(** * A shallow embedding of the TTS data-preparation pipelines

    Two programs are embedded here:
    - [pipeline/Data_loading/loader.py]   : [DataLoader.run], which merges the
      Common Voice TSV splits into one table, drops duplicate paths, saves
      the table and logs an artifact record;
    - [pipeline/Data_cleaning/cleaning_fn.py] : [trim_with_vad], which walks a
      directory tree and trims leading and trailing silence of every
      recording.

    The first part of the file holds the embedding, module by module; the
    second part names the terms the properties are stated with; the third
    part holds the properties and their proofs. *)

From Stdlib Require Import ZArith QArith Qabs Lia Bool Ascii String.
From Stdlib Require Import Strings.Byte.
From Stdlib Require Import Floats.SpecFloat.
From Stdlib Require Import Sorting.Sorted.
From stdpp Require Import gmap strings list pretty.

Open Scope Z_scope.

(* ===================================================================== *)
(** * Part I. The embedding                                               *)
(* ===================================================================== *)

(** ** Python values shared by both programs *)

Module Py.

(** A raised exception: its class and the text [str(e)] prints. *)
Record exn := Exn { exn_class : string; exn_msg : string }.

(** A computation that either raises or returns. *)
Inductive result (A : Type) :=
| Raise (e : exn)
| Return (a : A).
Arguments Raise {A} e.
Arguments Return {A} a.

Definition bind {A B} (r : result A) (k : A → result B) : result B :=
  match r with
  | Raise e => Raise e
  | Return a => k a
  end.

#[global] Instance result_ret : MRet result := λ A a, Return a.
#[global] Instance result_bind : MBind result := λ A B k r, bind r k.

(** [posixpath.join] on two strings. *)
Definition starts_with_slash (s : string) : bool :=
  match s with
  | String c _ => bool_decide (c = "/"%char)
  | EmptyString => false
  end.

Fixpoint ends_with_slash (s : string) : bool :=
  match s with
  | EmptyString => false
  | String c EmptyString => bool_decide (c = "/"%char)
  | String _ s' => ends_with_slash s'
  end.

Definition join (a b : string) : string :=
  if starts_with_slash b then b
  else if bool_decide (a = "") || ends_with_slash a then a +:+ b
  else a +:+ "/" +:+ b.

End Py.

(** ** Floating-point numbers and their conversions to integers

    NumPy's [float32] is IEEE 754 binary32 and Python's [float] is binary64;
    both are taken from the standard library's executable specification of
    IEEE arithmetic, rounding to nearest, ties to even. *)

Module Numeric.
Import Py.

Definition f32_mul : spec_float → spec_float → spec_float := SFmul 24 128.
Definition f32_of_Z (z : Z) : spec_float := binary_normalize 24 128 z 0 false.

Definition f64_mul : spec_float → spec_float → spec_float := SFmul 53 1024.
Definition f64_div : spec_float → spec_float → spec_float := SFdiv 53 1024.
Definition f64_sub : spec_float → spec_float → spec_float := SFsub 53 1024.
Definition f64_of_Z (z : Z) : spec_float := binary_normalize 53 1024 z 0 false.

Definition is_finite (x : spec_float) : bool :=
  match x with
  | S754_zero _ | S754_finite _ _ _ => true
  | _ => false
  end.

(** The conversion of a float to an integer by dropping its fraction, as
    C's cast and Python's [int] do; a NaN or an infinity has none. *)
Definition SFtrunc (x : spec_float) : option Z :=
  match x with
  | S754_zero _ => Some 0
  | S754_finite s m e => Some (cond_Zopp s (Z.shiftl (Zpos m) e))
  | _ => None
  end.

(** Python's [round] of a float: to the nearest integer, a tie to the even
    one. *)
Definition SFround (x : spec_float) : option Z :=
  match x with
  | S754_zero _ => Some 0
  | S754_finite s m (Zneg p) =>
      let q := Z.shiftr (Zpos m) (Zpos p) in
      let r := Z.land (Zpos m) (Z.ones (Zpos p)) in
      let h := Z.shiftl 1 (Zpos p - 1) in
      Some (cond_Zopp s
              (if r <? h then q
               else if h <? r then q + 1
               else if Z.even q then q else q + 1))
  | S754_finite s m e => Some (cond_Zopp s (Z.shiftl (Zpos m) e))
  | _ => None
  end.

(** The exact value of a finite float, as a rational. *)
Definition SF2Q (x : spec_float) : Q :=
  match x with
  | S754_finite s m (Zneg p) => cond_Zopp s (Zpos m) # 2 ^ p
  | S754_finite s m e => cond_Zopp s (Zpos m) * 2 ^ e # 1
  | _ => 0
  end.

(** *** [np.int16] applied to a [float32]

    NumPy casts with C's conversion, which the compiler carries out as a
    conversion to a 32-bit integer followed by a narrowing to 16 bits.
    Where the float is a NaN, an infinity, or its truncation does not fit
    32 bits, the hardware conversion is invalid and what it leaves
    depends on the target: [invalid] stands for it. *)
Definition fits_int32 (x : spec_float) : bool :=
  match SFtrunc x with
  | Some z => (- 2 ^ 31 <=? z) && (z <? 2 ^ 31)
  | None => false
  end.

Definition float_to_int32 (invalid : spec_float → Z) (x : spec_float) : Z :=
  match SFtrunc x with
  | Some z => if (- 2 ^ 31 <=? z) && (z <? 2 ^ 31) then z else invalid x
  | None => invalid x
  end.

(** Keeping the low 16 bits and reading them as a signed number. *)
Definition narrow16 (z : Z) : Z :=
  let u := Z.land z 65535 in
  if 32768 <=? u then u - 65536 else u.

Definition np_int16 (invalid : spec_float → Z) (x : spec_float) : Z :=
  narrow16 (float_to_int32 invalid x).

(** x86-64 leaves the "integer indefinite" value at an invalid
    conversion. *)
Definition x86_64 : spec_float → Z := λ _, - 2 ^ 31.

(** [audio_data * 32767] and [np.int16(...)], on one sample. *)
Definition scale (s : spec_float) : spec_float := f32_mul s (f32_of_Z 32767).

Definition sample_to_int16 (invalid : spec_float → Z) (s : spec_float) : Z :=
  np_int16 invalid (scale s).

(** [ndarray.tobytes()] of an [int16] array: two bytes a sample, the low
    one first. *)
Definition byte_of_Z (z : Z) : byte :=
  default "000"%byte (Byte.of_N (Z.to_N (z mod 256))).

Definition int16_bytes (z : Z) : list byte :=
  [byte_of_Z z; byte_of_Z (z / 256)].

Definition tobytes (a : list Z) : list byte := a ≫= int16_bytes.

(** *** Python numbers: an [int] or a [float] *)
Inductive num :=
| Int (z : Z)
| Float (x : spec_float).

Definition to_float (v : num) : spec_float :=
  match v with
  | Int z => f64_of_Z z
  | Float x => x
  end.

(** Python compares an [int] with a [float] by their exact values. *)
Definition float_compare_Z (x : spec_float) (z : Z) : option comparison :=
  match x with
  | S754_nan => None
  | S754_infinity s => Some (if s then Lt else Gt)
  | _ => Some (SF2Q x ?= inject_Z z)%Q
  end.

Definition num_compare (a b : num) : option comparison :=
  match a, b with
  | Int x, Int y => Some (x ?= y)
  | Float x, Float y => SFcompare x y
  | Float x, Int y => float_compare_Z x y
  | Int x, Float y => CompOpp <$> float_compare_Z y x
  end.

Definition num_ltb (a b : num) : bool :=
  match num_compare a b with Some Lt => true | _ => false end.

Definition num_eqb (a b : num) : bool :=
  match num_compare a b with Some Eq => true | _ => false end.

(** [min(a, b)]: the second argument only when it is smaller. *)
Definition py_min (a b : num) : num := if num_ltb b a then b else a.

Definition num_abs (v : num) : num :=
  match v with
  | Int z => Int (Z.abs z)
  | Float x => Float (SFabs x)
  end.

Definition num_sub (a b : num) : num :=
  match a, b with
  | Int x, Int y => Int (x - y)
  | _, _ => Float (f64_sub (to_float a) (to_float b))
  end.

(** [int(x)] and [round(x)] of a float. *)
Definition py_int (x : spec_float) : result Z :=
  match x with
  | S754_nan => Raise (Exn "ValueError" "cannot convert float NaN to integer")
  | S754_infinity _ =>
      Raise (Exn "OverflowError" "cannot convert float infinity to integer")
  | _ => Return (default 0 (SFtrunc x))
  end.

Definition py_round (x : spec_float) : result Z :=
  match x with
  | S754_nan => Raise (Exn "ValueError" "cannot convert float NaN to integer")
  | S754_infinity _ =>
      Raise (Exn "OverflowError" "cannot convert float infinity to integer")
  | _ => Return (default 0 (SFround x))
  end.

(** [x / y] with a float [x]. *)
Definition py_truediv (x : spec_float) (y : num) : result spec_float :=
  if num_eqb y (Int 0) then Raise (Exn "ZeroDivisionError" "float division by zero")
  else Return (f64_div x (to_float y)).

(** [l[a:b]] with integer bounds, which count from the end when
    negative and are cut to the length. *)
Definition clip_index (n i : Z) : nat :=
  Z.to_nat (Z.min n (if i <? 0 then Z.max 0 (i + n) else i)).

Definition py_slice {A} (l : list A) (a b : Z) : list A :=
  let n := Z.of_nat (length l) in
  drop (clip_index n a) (take (clip_index n b) l).

(** [l[i]] *)
Definition py_index {A} (l : list A) (i : Z) : result A :=
  let n := Z.of_nat (length l) in
  match l !! Z.to_nat (if i <? 0 then i + n else i) with
  | Some x => if (i <? - n) then Raise (Exn "IndexError" "list index out of range")
              else Return x
  | None => Raise (Exn "IndexError" "list index out of range")
  end.

End Numeric.

(** ** The part of [pydub.AudioSegment] that [trim_with_vad] uses *)

Module Pydub.
Import Py Numeric.

Record AudioSegment := {
  _data : list byte;
  sample_width : Z;
  frame_rate : Z;
  channels : Z
}.

Definition frame_width (seg : AudioSegment) : Z :=
  channels seg * sample_width seg.

(** [AudioSegment(data=..., sample_width=..., frame_rate=..., channels=...)] *)
Definition init (data : list byte) (sample_width frame_rate channels : Z)
    : result AudioSegment :=
  if bool_decide (Z.of_nat (length data) `mod` (sample_width * channels) ≠ 0) then
    Raise (Exn "ValueError"
             "data length must be a multiple of '(sample_width * channels)'")
  else Return {| _data := data; sample_width := sample_width;
                 frame_rate := frame_rate; channels := channels |}.

Definition _spawn (seg : AudioSegment) (data : list byte) : AudioSegment :=
  {| _data := data; sample_width := sample_width seg;
     frame_rate := frame_rate seg; channels := channels seg |}.

(** [frame_count()]: the frames of the whole segment, as a float. *)
Definition frame_count (seg : AudioSegment) : spec_float :=
  f64_of_Z (Z.of_nat (length (_data seg)) `div` frame_width seg).

(** [frame_count(ms=...)]: [ms * (self.frame_rate / 1000.0)] *)
Definition frame_count_ms (seg : AudioSegment) (ms : num) : spec_float :=
  f64_mul (to_float ms) (f64_div (f64_of_Z (frame_rate seg)) (f64_of_Z 1000)).

(** [len(seg)]: the length in milliseconds,
    [round(1000 * (self.frame_count() / self.frame_rate))]. *)
Definition len (seg : AudioSegment) : result Z :=
  x ← py_truediv (frame_count seg) (Int (frame_rate seg));
  py_round (f64_mul (f64_of_Z 1000) x).

Definition _parse_position (seg : AudioSegment) (val : num) : result Z :=
  val ← (if num_ltb val (Int 0)
         then n ← len seg; mret (num_sub (Int n) (num_abs val))
         else mret val);
  val ← (if num_eqb val (Float (S754_infinity false))
         then n ← len seg; mret (frame_count_ms seg (Int n))
         else mret (frame_count_ms seg val));
  py_int val.

(** [audioop.mul(fragment, width, 0)]: every sample becomes zero. *)
Definition silence_of (fragment : list byte) : list byte :=
  (λ _, "000"%byte) <$> fragment.

Definition repeat_bytes (b : list byte) (n : Z) : list byte :=
  mjoin (replicate (Z.to_nat n) b).

(** [seg[start:end]] with both bounds given, in milliseconds. *)
Definition getitem (seg : AudioSegment) (start stop : num)
    : result AudioSegment :=
  n ← len seg;
  let start := py_min start (Int n) in
  n ← len seg;
  let stop := py_min stop (Int n) in
  start ← _parse_position seg start;
  let start := start * frame_width seg in
  stop ← _parse_position seg stop;
  let stop := stop * frame_width seg in
  let data := py_slice (_data seg) start stop in
  let expected_length := stop - start in
  let missing_frames :=
    (expected_length - Z.of_nat (length data)) `div` frame_width seg in
  if bool_decide (missing_frames ≠ 0) then
    if num_ltb (Float (frame_count_ms seg (Int 2))) (Int missing_frames) then
      Raise (Exn "TooManyMissingFrames"
               ("You should never be filling in    more than 2 ms with silence here, missing frames: "
                  +:+ pretty missing_frames))
    else
      let silence := silence_of (py_slice data 0 (frame_width seg)) in
      mret (_spawn seg (data ++ repeat_bytes silence missing_frames))
  else mret (_spawn seg data).

End Pydub.

(** ** [pipeline/Data_cleaning/cleaning_fn.py] *)

Module Cleaning.
Import Py Numeric Pydub.

(** A path is the list of its components, as [abspath(p).split(sep)]
    gives them. *)
Definition show_path (p : list string) : string :=
  foldr (λ c acc, "/" +:+ c +:+ acc) "" p.

Definition dirname (p : list string) : list string :=
  take (length p - 1) p.

Fixpoint commonprefix (a b : list string) : list string :=
  match a, b with
  | x :: a', y :: b' => if decide (x = y) then x :: commonprefix a' b' else []
  | _, _ => []
  end.

(** [os.path.relpath(path, start)] *)
Definition relpath (path start : list string) : list string :=
  let i := length (commonprefix start path) in
  let rel_list := replicate (length start - i) ".." ++ drop i path in
  if decide (rel_list = []) then ["."] else rel_list.

(** [str.lower] on the ASCII letters, and [str.endswith]. *)
Definition lower_char (c : ascii) : ascii :=
  let n := nat_of_ascii c in
  if (65 <=? n)%nat && (n <=? 90)%nat then ascii_of_nat (n + 32) else c.

Fixpoint lower (s : string) : string :=
  match s with
  | EmptyString => EmptyString
  | String c s' => String (lower_char c) (lower s')
  end.

Definition endswith (s suffix : string) : bool :=
  let n := String.length s in
  let m := String.length suffix in
  (m <=? n)%nat && bool_decide (substring (n - m) m s = suffix).

(** [pyannote.core.Segment]; its second field is [end] in the source. *)
Record Segment := { start : spec_float; end_ : spec_float }.

(** [pyannote.core.segment.SEGMENT_PRECISION], the literal [1e-6]: the
    double nearest to a millionth. *)
Definition SEGMENT_PRECISION : spec_float :=
  S754_finite false 4722366482869645 (-72).

(** [Segment.__bool__]: a segment is empty unless it lasts more than
    [SEGMENT_PRECISION]. *)
Definition Segment_bool (s : Segment) : bool :=
  SFltb SEGMENT_PRECISION (f64_sub (end_ s) (start s)).

(** [Segment.__eq__] and [Segment.__lt__], which the dataclass derives
    from the pair [(start, end)]. *)
Definition Segment_eq (a b : Segment) : bool :=
  SFeqb (start a) (start b) && SFeqb (end_ a) (end_ b).

Definition Segment_lt (a b : Segment) : bool :=
  if SFeqb (start a) (start b) then SFltb (end_ a) (end_ b)
  else SFltb (start a) (start b).

(** [set(segments)]: of the segments that are equal the first is kept.
    The order the set is iterated in does not show, since it is sorted
    next. *)
Fixpoint py_set (segments : list Segment) : list Segment :=
  match segments with
  | [] => []
  | s :: segments' => s :: filter (λ x, Segment_eq s x = false) (py_set segments')
  end.

(** [SortedList(segments)]: the segments in increasing order. *)
Fixpoint insort (s : Segment) (sorted : list Segment) : list Segment :=
  match sorted with
  | [] => [s]
  | x :: sorted' => if Segment_lt x s then x :: insort s sorted' else s :: x :: sorted'
  end.

Definition SortedList (segments : list Segment) : list Segment :=
  foldr insort [] segments.

(** [Timeline(segments)]: the segments that are not empty, each once, in
    increasing order.  [len] and indexing are those of the sorted list. *)
Definition Timeline (segments : list Segment) : list Segment :=
  let segments_set := py_set (filter Segment_bool segments) in
  SortedList segments_set.

(** [Annotation.get_timeline()], on the segments of the tracks of the
    annotation: a copy of the timeline of those segments. *)
Definition get_timeline (tracks : list Segment) : list Segment :=
  Timeline (Timeline tracks).

(** The world a batch runs in: the target of the NumPy build, whether
    the detector can be set up, what [os.walk] yields, and what the calls
    on the files do; [vad_result] is what [pipeline(input_path)] returns,
    as the segments of the tracks of the annotation.  What a call raises
    is an instance of [Exception], the class the handler of
    [trim_with_vad] catches. *)
Record world := {
  invalid_cast : spec_float → Z;
  from_pretrained : option exn;
  os_walk : list string → list (list string * list string * list string);
  makedirs_error : list string → option exn;
  librosa_load : list string → result (list spec_float * Z);
  vad_result : spec_float → spec_float → list string → result (list Segment);
  export_error : list string → option exn
}.

(** Lines 79 and 80: the detector is run on the file and the timeline of
    what it returns is taken. *)
Definition pipeline (w : world) (min_duration_on min_duration_off : spec_float)
    (input_path : list string) : result (list Segment) :=
  tracks ← vad_result w min_duration_on min_duration_off input_path;
  mret (get_timeline tracks).

(** The output tree and the standard output. *)
Record state := {
  dirs : gset (list string);
  files : gmap (list string) AudioSegment;
  stdout : list string
}.

Definition initial : state := {| dirs := ∅; files := ∅; stdout := [] |}.

Definition print (line : string) (st : state) : state :=
  {| dirs := dirs st; files := files st; stdout := stdout st ++ [line] |}.

(** [os.makedirs(d, exist_ok=True)]: [d] and what is above it. *)
Definition ancestors (d : list string) : list (list string) :=
  (λ n, take n d) <$> seq 0 (S (length d)).

Definition makedirs (w : world) (d : list string) (st : state) : result state :=
  match makedirs_error w d with
  | Some e => Raise e
  | None => Return {| dirs := list_to_set (ancestors d) ∪ dirs st;
                      files := files st; stdout := stdout st |}
  end.

Definition export (seg : AudioSegment) (output_path : list string)
    (st : state) : state :=
  {| dirs := dirs st; files := <[output_path := seg]> (files st);
     stdout := stdout st |}.

(** Steps 5 and 6 on a timeline that is not empty. *)
Definition trim_window (speech_timeline : list Segment)
    : result (spec_float * spec_float) :=
  first ← py_index speech_timeline 0;
  let earliest_start := start first in
  last ← py_index speech_timeline (-1);
  let latest_end := end_ last in
  mret (earliest_start, latest_end).

(** What the body of the [try] computes for one file: [None] when it
    leaves by [continue], the trimmed segment once [export] has returned. *)
Definition try_body (w : world) (min_duration_on min_duration_off : spec_float)
    (input_path output_path : list string) : result (option AudioSegment) :=
  '(audio_data, sr) ← librosa_load w input_path;
  let audio_data_int16 := sample_to_int16 (invalid_cast w) <$> audio_data in
  full_audio_segment ← init (tobytes audio_data_int16) 2 sr 1;
  speech_timeline ←
    pipeline w min_duration_on min_duration_off input_path;
  if bool_decide (length speech_timeline = 0%nat) then mret None
  else
    '(earliest_start, latest_end) ← trim_window speech_timeline;
    let start_ms := f64_mul earliest_start (f64_of_Z 1000) in
    let end_ms := f64_mul latest_end (f64_of_Z 1000) in
    trimmed_segment ← getitem full_audio_segment (Float start_ms) (Float end_ms);
    match export_error w output_path with
    | Some e => Raise e
    | None => mret (Some trimmed_segment)
    end.

(** The [try] statement with its handler. *)
Definition try_file (w : world) (min_duration_on min_duration_off : spec_float)
    (input_path output_path : list string) (st : state) : state :=
  match try_body w min_duration_on min_duration_off input_path output_path with
  | Return (Some trimmed_segment) => export trimmed_segment output_path st
  | Return None =>
      print ("No speech found in " +:+ show_path input_path +:+ ". Skipping.") st
  | Raise e =>
      print ("Error processing " +:+ show_path input_path +:+ ": " +:+ exn_msg e) st
  end.

(** The inner loop, over the files of one directory.  An exception that
    no handler catches ends it. *)
Fixpoint for_files (w : world) (input_dir output_dir : list string)
    (min_duration_on min_duration_off : spec_float) (file_ext : string)
    (root : list string) (filenames : list string) (st : state)
    : option exn * state :=
  match filenames with
  | [] => (None, st)
  | filename :: filenames' =>
      if endswith (lower filename) (lower file_ext) then
        let input_path := root ++ [filename] in
        let rel_path := relpath input_path input_dir in
        let output_path := output_dir ++ rel_path in
        match makedirs w (dirname output_path) st with
        | Raise e => (Some e, st)
        | Return st =>
            let st := try_file w min_duration_on min_duration_off
                        input_path output_path st in
            for_files w input_dir output_dir min_duration_on min_duration_off
              file_ext root filenames' st
        end
      else
        for_files w input_dir output_dir min_duration_on min_duration_off
          file_ext root filenames' st
  end.

(** The outer loop, over what [os.walk] yields. *)
Fixpoint for_walk (w : world) (input_dir output_dir : list string)
    (min_duration_on min_duration_off : spec_float) (file_ext : string)
    (entries : list (list string * list string * list string)) (st : state)
    : option exn * state :=
  match entries with
  | [] => (None, st)
  | (root, _, filenames) :: entries' =>
      match for_files w input_dir output_dir min_duration_on min_duration_off
              file_ext root filenames st with
      | (Some e, st) => (Some e, st)
      | (None, st) =>
          for_walk w input_dir output_dir min_duration_on min_duration_off
            file_ext entries' st
      end
  end.

Definition trim_with_vad (w : world) (input_dir output_dir : list string)
    (min_duration_on min_duration_off : spec_float) (file_ext : string)
    : option exn * state :=
  match from_pretrained w with
  | Some e => (Some e, initial)
  | None =>
      for_walk w input_dir output_dir min_duration_on min_duration_off
        file_ext (os_walk w input_dir) initial
  end.

End Cleaning.

(** ** [pipeline/Data_loading/loader.py] *)

Module DataLoader.
Import Py.

(** The attributes [__init__] sets. *)
Record instance := {
  input_dir : string;
  output_dir : string;
  wandb_project : string;
  wandb_entity : option string
}.

(** A row maps a column name to its cell; a column without an entry holds
    NaN.  A [DataFrame] is its column index and its rows in order. *)
Record DataFrame := {
  columns : list string;
  rows : list (gmap string string)
}.

Definition len (df : DataFrame) : Z := Z.of_nat (length (rows df)).

(** [str(df.shape)] *)
Definition shape (df : DataFrame) : string :=
  "(" +:+ pretty (len df) +:+ ", "
      +:+ pretty (Z.of_nat (length (columns df))) +:+ ")".

(** The key of a row for [subset="path"] and [on="path"]; [None] is NaN,
    and pandas takes two NaN keys as equal in both operations. *)
Definition key (r : gmap string string) : option string := r !! "path".

Definition set_cell (c : string) (v : option string)
    (r : gmap string string) : gmap string string :=
  match v with
  | Some s => <[c := s]> r
  | None => delete c r
  end.

(** What [os.path.isfile] and [pd.read_csv(path, sep="\t")] find at a
    path. *)
Inductive file_state :=
| Missing
| Unreadable (e : exn)
| Tsv (df : DataFrame).

(** The world [run] executes in: the input files, the number of bytes
    [to_csv(sep="\t", index=False)] writes for a table, and what the calls
    of steps 5 and 6 on the file system and on W&B raise, if anything.
    [wandb.init], [logging] and [run.finish] are taken to return. *)
Record environment := {
  read : string → file_state;
  csv_bytes : DataFrame → Z;
  makedirs_error : string → option exn;
  to_csv_error : string → option exn;
  add_file_error : string → option exn;
  getsize_error : string → option exn;
  log_artifact_error : option exn
}.

Inductive level := INFO | WARNING | ERROR.

(** [artifact.metadata], a dict with these three keys. *)
Record Metadata := {
  file_path : string;
  size_bytes : Z;
  num_rows : Z
}.

Record Artifact := {
  art_name : string;
  art_type : string;
  art_description : string;
  art_files : list string;
  art_metadata : Metadata
}.

(** The run [wandb.init] opens. *)
Record Run := {
  project : string;
  entity : option string;
  name : string;
  job_type : string
}.

(** What a call of [run] leaves behind. *)
Record state := {
  wandb : option Run;
  logged : list (level * string);
  directories : gset string;
  disk : gmap string DataFrame;
  artifacts : list Artifact;
  finished : bool
}.

Definition initial : state :=
  {| wandb := None; logged := []; directories := ∅; disk := ∅;
     artifacts := []; finished := false |}.

Definition wandb_init (r : Run) (st : state) : state :=
  {| wandb := Some r; logged := logged st; directories := directories st;
     disk := disk st; artifacts := artifacts st; finished := finished st |}.

Definition logging (l : level) (msg : string) (st : state) : state :=
  {| wandb := wandb st;
     logged := logged st ++ [(l, msg)]; directories := directories st;
     disk := disk st; artifacts := artifacts st; finished := finished st |}.

(** [os.makedirs(d, exist_ok=True)] *)
Definition makedirs (env : environment) (d : string) (st : state)
    : result state :=
  match makedirs_error env d with
  | Some e => Raise e
  | None =>
      Return {| wandb := wandb st;
                logged := logged st; directories := {[d]} ∪ directories st;
                disk := disk st; artifacts := artifacts st;
                finished := finished st |}
  end.

(** [df.to_csv(path, sep="\t", index=False)]; a call that raises is taken
    to leave no table at the path. *)
Definition to_csv (env : environment) (df : DataFrame) (path : string)
    (st : state) : result state :=
  match to_csv_error env path with
  | Some e => Raise e
  | None =>
      Return {| wandb := wandb st;
                logged := logged st; directories := directories st;
                disk := <[path := df]> (disk st);
                artifacts := artifacts st; finished := finished st |}
  end.

(** [run.log_artifact(artifact)]; a call that raises is taken to log
    nothing. *)
Definition log_artifact (env : environment) (a : Artifact) (st : state)
    : result state :=
  match log_artifact_error env with
  | Some e => Raise e
  | None =>
      Return {| wandb := wandb st;
                logged := logged st; directories := directories st;
                disk := disk st;
                artifacts := artifacts st ++ [a]; finished := finished st |}
  end.

Definition finish (st : state) : state :=
  {| wandb := wandb st;
     logged := logged st; directories := directories st; disk := disk st;
     artifacts := artifacts st; finished := true |}.

(** [os.path.getsize]: the bytes of the table stored at the path. *)
Definition getsize (env : environment) (path : string) (st : state)
    : result Z :=
  match getsize_error env path with
  | Some e => Raise e
  | None =>
      match disk st !! path with
      | Some df => Return (csv_bytes env df)
      | None =>
          Raise (Exn "FileNotFoundError"
                   ("[Errno 2] No such file or directory: '" +:+ path +:+ "'"))
      end
  end.

Definition files_to_include : list string :=
  ["train.tsv"; "test.tsv"; "dev.tsv"; "validated.tsv"; "other.tsv"].

(** [df_part["source_file"] = filename] *)
Definition set_source (filename : string) (df : DataFrame) : DataFrame :=
  {| columns := if decide ("source_file" ∈ columns df) then columns df
                else columns df ++ ["source_file"];
     rows := (λ r, <["source_file" := filename]> r) <$> rows df |}.

(** The loop of step 2: it reads the files that exist, in the order of
    [files_to_include], and stops at the first one that cannot be
    parsed. *)
Fixpoint gather (env : environment) (input_dir : string)
    (names : list string) (dfs : list DataFrame) (st : state)
    : result (list DataFrame) * state :=
  match names with
  | [] => (Return dfs, st)
  | filename :: names' =>
      match read env (join input_dir filename) with
      | Tsv df_part =>
          let st := logging INFO ("Reading " +:+ filename) st in
          gather env input_dir names' (dfs ++ [set_source filename df_part]) st
      | Unreadable e =>
          (Raise e, logging INFO ("Reading " +:+ filename) st)
      | Missing =>
          let st := logging WARNING
            (filename +:+ " not found in " +:+ input_dir +:+ ", skipping...") st in
          gather env input_dir names' dfs st
      end
  end.

(** Column index of [pd.concat]: the columns in order of first
    appearance. *)
Fixpoint union_columns (seen : list string) (dfs : list DataFrame)
    : list string :=
  match dfs with
  | [] => seen
  | df :: dfs' =>
      union_columns (seen ++ filter (λ c, c ∉ seen) (columns df)) dfs'
  end.

(** [pd.concat(dfs, ignore_index=True)] *)
Definition concat (dfs : list DataFrame) : DataFrame :=
  {| columns := union_columns [] dfs; rows := dfs ≫= rows |}.

(** [durations_df.columns = ["path", "duration_ms"]]: a positional
    renaming, which pandas refuses unless there are two columns. *)
Definition rename_durations (df : DataFrame) : result DataFrame :=
  match columns df with
  | [c0; c1] =>
      Return {| columns := ["path"; "duration_ms"];
                rows := (λ r, set_cell "path" (r !! c0)
                                (set_cell "duration_ms" (r !! c1) ∅))
                        <$> rows df |}
  | _ => Raise (Exn "ValueError" "Length mismatch")
  end.

(** The rows [pd.merge(left, right, on="path", how="left")] makes of one
    left row: one per matching right row, in the order of [right], or
    the left row alone with a NaN duration.  [dcol] is the name the
    duration column has in the result. *)
Definition merge_row (dcol : string) (right : list (gmap string string))
    (l : gmap string string) : list (gmap string string) :=
  match filter (λ r, key r = key l) right with
  | [] => [delete dcol l]
  | ms => (λ r, set_cell dcol (r !! "duration_ms") l) <$> ms
  end.

(** A left column that is itself called [duration_ms] gets the suffix
    [_x] and the right one [_y]. *)
Definition rename_cell (old new : string) (r : gmap string string)
    : gmap string string :=
  set_cell new (r !! old) (delete old r).

Definition merge (left right : DataFrame) : result DataFrame :=
  if decide ("path" ∈ columns left) then
    if decide ("duration_ms" ∈ columns left) then
      Return {|
        columns :=
          ((λ c, if decide (c = "duration_ms") then "duration_ms_x" else c)
             <$> columns left) ++ ["duration_ms_y"];
        rows := (rename_cell "duration_ms" "duration_ms_x" <$> rows left)
                  ≫= merge_row "duration_ms_y" (rows right) |}
    else
      Return {| columns := columns left ++ ["duration_ms"];
                rows := rows left ≫= merge_row "duration_ms" (rows right) |}
  else Raise (Exn "KeyError" "path").

(** [keep="first"]: a row is dropped when an earlier row has its key. *)
Fixpoint drop_seen (seen : gset (option string))
    (l : list (gmap string string)) : list (gmap string string) :=
  match l with
  | [] => []
  | r :: l' =>
      if decide (key r ∈ seen) then drop_seen seen l'
      else r :: drop_seen ({[key r]} ∪ seen) l'
  end.

(** [df.drop_duplicates(subset="path")] *)
Definition drop_duplicates (df : DataFrame) : result DataFrame :=
  if decide ("path" ∈ columns df) then
    Return {| columns := columns df; rows := drop_seen ∅ (rows df) |}
  else Raise (Exn "KeyError" "Index(['path'], dtype='object')").

(** Step 3. *)
Definition merge_durations (env : environment) (input_dir : string)
    (combined_df : DataFrame) (st : state) : result DataFrame * state :=
  match read env (join input_dir "clip_durations.tsv") with
  | Tsv durations_df =>
      let st := logging INFO "Merging clip_durations.tsv" st in
      (bind (rename_durations durations_df) (merge combined_df), st)
  | Unreadable e =>
      (Raise e, logging INFO "Merging clip_durations.tsv" st)
  | Missing =>
      (Return combined_df,
       logging WARNING
         "clip_durations.tsv not found. Proceeding without durations." st)
  end.

(** Steps 5 to 7, on the table that step 4 returns: the exception that
    leaves them, if any, and the state they leave. *)
Definition save_and_log (env : environment) (output_dir : string)
    (before_drop : Z) (combined_df : DataFrame) (st : state)
    : option exn * state :=
  let after_drop := len combined_df in
  let st := logging INFO
    ("Dropped " +:+ pretty (before_drop - after_drop)
       +:+ " duplicates based on 'path'. Final shape: "
       +:+ shape combined_df) st in
  match makedirs env output_dir st with
  | Raise e => (Some e, st)
  | Return st =>
  let out_filename := "complete_data.tsv" in
  let out_path := join output_dir out_filename in
  match to_csv env combined_df out_path st with
  | Raise e => (Some e, st)
  | Return st =>
  let st := logging INFO ("Saved final dataset to: " +:+ out_path) st in
  match add_file_error env out_path with
  | Some e => (Some e, st)
  | None =>
  match getsize env out_path st with
  | Raise e => (Some e, st)
  | Return file_size =>
  let num_rows := len combined_df in
  let artifact :=
    {| art_name := "data_loading";
       art_type := "dataset";
       art_description :=
         "Complete merged dataset from Common Voice (no cleaning).";
       art_files := [out_path];
       art_metadata := {| file_path := out_path;
                          size_bytes := file_size;
                          num_rows := num_rows |} |} in
  match log_artifact env artifact st with
  | Raise e => (Some e, st)
  | Return st =>
  let st := logging INFO
    ("W&B artifact logged: data_loading (Rows: " +:+ pretty num_rows
       +:+ ", Size: " +:+ pretty file_size +:+ " bytes)") st in
  (None, finish st)
  end end end end end.

(** [DataLoader.run]: the exception that leaves it, if any, and the
    state it leaves. *)
Definition run (env : environment) (self : instance) : option exn * state :=
  let st := wandb_init {| project := wandb_project self;
                          entity := wandb_entity self;
                          name := "data_loading";
                          job_type := "data_loading" |} initial in
  let st := logging INFO "Data loading pipeline started." st in
  match gather env (input_dir self) files_to_include [] st with
  | (Raise e, st) => (Some e, st)
  | (Return [], st) =>
      let st := logging ERROR
        "No valid TSV files found to merge. Exiting." st in
      (None, finish st)
  | (Return dfs, st) =>
      let combined_df := concat dfs in
      let st := logging INFO
        ("Initial combined shape (no durations merged): "
           +:+ shape combined_df) st in
      match merge_durations env (input_dir self) combined_df st with
      | (Raise e, st) => (Some e, st)
      | (Return combined_df, st) =>
          let before_drop := len combined_df in
          match drop_duplicates combined_df with
          | Raise e => (Some e, st)
          | Return combined_df =>
              save_and_log env (output_dir self) before_drop combined_df st
          end
      end
  end.

End DataLoader.

(* ===================================================================== *)
(** * Part II. The terms the properties are stated with                   *)
(* ===================================================================== *)

(** None of the definitions of this part belongs to the programs: they
    name what the statements of the third part speak about, and give
    concrete inputs to run the programs on. *)

(** ** Terms for the conversion of the samples *)

Module NumericSpec.
Import Py Numeric.

(** The integer part of a rational: its fraction is dropped, toward
    zero. *)
Definition Qtrunc (q : Q) : Z := Z.quot (Qnum q) (Zpos (Qden q)).

(** The number of [-32768 .. 32767] an integer is congruent to modulo
    [2^16]. *)
Definition wrap16 (z : Z) : Z := (z + 32768) `mod` 65536 - 32768.

(** The record after [k] shifts of the exact mantissa [M]. *)
Definition shifted (M : Z) (k : nat) : shr_record :=
  Nat.iter k shr_1 {| shr_m := M; shr_r := false; shr_s := false |}.

(** The mantissa that rounding to nearest, ties to even, makes of [M]
    when its last [k] bits are dropped. *)
Definition rounded (M : Z) (k : nat) : Z :=
  round_nearest_even (shr_m (shifted M k)) (loc_of_shr_record (shifted M k)).

(** Dyadic literals: [m * 2^e] as a [float] and as a [float32]. *)
Definition f64 (m e : Z) : spec_float := binary_normalize 53 1024 m e false.
Definition f32 (m e : Z) : spec_float := binary_normalize 24 128 m e false.

Definition zero : spec_float := S754_zero false.


(** Reading a buffer of whole samples back as [int16] numbers, two bytes a
    sample, the low one first: what [np.frombuffer(b, dtype=np.int16)]
    returns on the machines [tobytes] writes the low byte first on. *)
Definition int16_of_bytes (lo hi : byte) : Z :=
  narrow16 (Z.of_N (Byte.to_N lo) + 256 * Z.of_N (Byte.to_N hi)).

Fixpoint frombuffer (b : list byte) : list Z :=
  match b with
  | lo :: hi :: b' => int16_of_bytes lo hi :: frombuffer b'
  | _ => []
  end.

End NumericSpec.

(** ** Terms for the batch orchestrator, and worlds to run it in *)

Module CleaningSpec.
Import Py Numeric Pydub Cleaning NumericSpec.

Implicit Types (w : world) (st : state) (e : exn).
Implicit Types (input_dir output_dir root sub : list string).
Implicit Types (filename file_ext : string).

(** The path a discovered file is written to, and the directory
    [os.makedirs] is called on. *)
Definition output_path_of input_dir output_dir root filename : list string :=
  output_dir ++ relpath (root ++ [filename]) input_dir.

(** The state once the directory of a file has been made. *)
Definition made (d : list string) st : state :=
  {| dirs := list_to_set (ancestors d) ∪ dirs st;
     files := files st; stdout := stdout st |}.

(** The segment [trim_with_vad] builds of what [librosa.load] returns. *)
Definition segment_of w (audio_data : list spec_float) (sr : Z) : AudioSegment :=
  {| _data := tobytes (sample_to_int16 (invalid_cast w) <$> audio_data);
     sample_width := 2; frame_rate := sr; channels := 1 |}.

(** Two milliseconds of a ramp at 16 kHz. *)
Definition ramp : list spec_float := (λ i, f32 (Z.of_nat i) (-6)) <$> seq 0 32.

(** A tree with four recordings and a text file: [b.wav] cannot be
    decoded, the detector marks nothing in [quiet/d.wav], and what it
    marks in [c.WAV] is a single instant.  In the other recordings it
    marks two intervals, given here out of order, one of them twice, with
    a third that lasts less than a microsecond. *)
Definition example_world : world :=
  {| invalid_cast := x86_64;
     from_pretrained := None;
     os_walk := λ d, [ (d, ["quiet"], ["a.wav"; "b.wav"; "notes.txt"; "c.WAV"]);
                       (d ++ ["quiet"], [], ["d.wav"]) ];
     makedirs_error := λ _, None;
     librosa_load := λ p,
       if decide (p = ["in"; "b.wav"]) then
         Raise (Exn "LibsndfileError" "Error opening 'b.wav': Format not recognised.")
       else Return (ramp, 16000);
     vad_result := λ _ _ p,
       if decide (p = ["in"; "quiet"; "d.wav"]) then Return []
       else if decide (p = ["in"; "c.WAV"]) then
         Return [ {| start := f64 1 (-10); end_ := f64 1 (-10) |} ]
       else Return [ {| start := f64 3 (-11); end_ := f64 7 (-12) |};
                     {| start := f64 1 (-11); end_ := f64 1 (-10) |};
                     {| start := f64 2097153 (-21); end_ := f64 1048577 (-20) |};
                     {| start := f64 3 (-11); end_ := f64 7 (-12) |} ];
     export_error := λ _, None |}.

(** The same tree when the output root cannot be written to. *)
Definition readonly_world : world :=
  {| invalid_cast := invalid_cast example_world;
     from_pretrained := None;
     os_walk := os_walk example_world;
     makedirs_error := λ _,
       Some (Exn "PermissionError" "[Errno 13] Permission denied: '/out'");
     librosa_load := librosa_load example_world;
     vad_result := vad_result example_world;
     export_error := λ _, None |}.

(** The frames from offset [a] up to offset [b]. *)
Definition frames_between {A} (a b : Z) (l : list A) : list A :=
  take (Z.to_nat (b - a)) (drop (Z.to_nat a) l).

(** The offset that rounding gives a boundary time:
    [round(t * frame_rate)]. *)
Definition rounded_offset (t : spec_float) (frame_rate : Z) : option Z :=
  SFround (f64_mul t (f64_of_Z frame_rate)).

(** Two hundred frames that hold their own index, at 16 kHz. *)
Definition count_up : list Z := Z.of_nat <$> seq 0 200.

Definition count_up_segment : AudioSegment :=
  {| _data := tobytes count_up; sample_width := 2;
     frame_rate := 16000; channels := 1 |}.

(** The files of the walk that carry the extension, each with the
    directory it was found in, in the order of the walk. *)
Definition discovered_files w input_dir file_ext : list (list string * string) :=
  '(root, _, filenames) ← os_walk w input_dir;
  (λ filename, (root, filename)) <$>
    filter (λ filename, endswith (lower filename) (lower file_ext) = true) filenames.

(** The two lines [trim_with_vad] prints. *)
Definition skip_line (input_path : list string) : string :=
  "No speech found in " +:+ show_path input_path +:+ ". Skipping.".

Definition error_line (input_path : list string) e : string :=
  "Error processing " +:+ show_path input_path +:+ ": " +:+ exn_msg e.

(** What a visit leaves of a discovered file: its directory, and either the
    clip the [try] body returned, or the line that tells why there is
    none. *)
Definition accounted w (on off : spec_float) input_dir output_dir root filename st
    : Prop :=
  let input_path := root ++ [filename] in
  let output_path := output_path_of input_dir output_dir root filename in
  dirname output_path ∈ dirs st ∧
  ((∃ seg, try_body w on off input_path output_path = Return (Some seg) ∧
           is_Some (files st !! output_path)) ∨
   (try_body w on off input_path output_path = Return None ∧
    skip_line input_path ∈ stdout st) ∨
   (∃ e, try_body w on off input_path output_path = Raise e ∧
         error_line input_path e ∈ stdout st)).

(** A later state holds what an earlier one held. *)
Definition grows st st' : Prop :=
  dirs st ⊆ dirs st' ∧
  (∀ p, is_Some (files st !! p) → is_Some (files st' !! p)) ∧
  (∀ line, line ∈ stdout st → line ∈ stdout st').

(** The clip [trim_with_vad] makes of [a.wav] in [example_world]: the frames
    7 to 26 of the ramp. *)
Definition ramp_clip : AudioSegment :=
  _spawn (segment_of example_world ramp 16000)
    (tobytes (frames_between 7 27 (sample_to_int16 x86_64 <$> ramp))).

(** The same tree when [out/quiet] cannot be made. *)
Definition locked_world : world :=
  {| invalid_cast := invalid_cast example_world;
     from_pretrained := None;
     os_walk := os_walk example_world;
     makedirs_error := λ d,
       if decide (d = ["out"; "quiet"]) then
         Some (Exn "PermissionError"
                 "[Errno 13] Permission denied: '/out/quiet'")
       else None;
     librosa_load := librosa_load example_world;
     vad_result := vad_result example_world;
     export_error := λ _, None |}.




(** The line a discovered file gets on the standard output, if any. *)
Definition report w (on off : spec_float) input_dir output_dir
    (file : list string * string) : option string :=
  let input_path := file.1 ++ [file.2] in
  match try_body w on off input_path
          (output_path_of input_dir output_dir file.1 file.2) with
  | Return (Some _) => None
  | Return None => Some (skip_line input_path)
  | Raise e => Some (error_line input_path e)
  end.

End CleaningSpec.

(** ** Terms for the metadata consolidator, and a corpus to run it on *)

Module LoaderSpec.
Import Py DataLoader.

Implicit Types (r : gmap string string) (l : list (gmap string string)).
Implicit Types (k : option string) (seen : gset (option string)).

(** The first row of a list that carries a given key. *)
Definition first_with k l : option (gmap string string) :=
  snd <$> list_find (λ r, key r = k) l.

(** The tables step 2 collects: one per file that exists, in the order of
    the names, each with its [source_file] column set. *)
Definition tagged (env : environment) (input_dir : string)
    (names : list string) : list DataFrame :=
  names ≫= (λ f, match read env (join input_dir f) with
                 | Tsv t => [set_source f t]
                 | _ => []
                 end).

(** The table step 3 hands to step 4. *)
Definition with_durations (env : environment) (input_dir : string)
    (combined_df : DataFrame) : result DataFrame :=
  match read env (join input_dir "clip_durations.tsv") with
  | Tsv durations_df => bind (rename_durations durations_df) (merge combined_df)
  | Unreadable e => Raise e
  | Missing => Return combined_df
  end.

Definition out_path (output_dir : string) : string :=
  join output_dir "complete_data.tsv".

(** The table [run] saves and the record it logs, when it gets that far. *)
Definition saved_table (merged : DataFrame) : DataFrame :=
  {| columns := columns merged; rows := drop_seen ∅ (rows merged) |}.

Definition logged_artifact (env : environment) (output_dir : string)
    (df : DataFrame) : Artifact :=
  {| art_name := "data_loading";
     art_type := "dataset";
     art_description :=
       "Complete merged dataset from Common Voice (no cleaning).";
     art_files := [out_path output_dir];
     art_metadata := {| file_path := out_path output_dir;
                        size_bytes := csv_bytes env df;
                        num_rows := len df |} |}.

(** The rows a merge makes of a left row keep its key and its cells
    outside the duration columns. *)
Definition duration_columns : list string :=
  ["duration_ms"; "duration_ms_x"; "duration_ms_y"].

Definition keeps_row (g : gmap string string → list (gmap string string)) : Prop :=
  ∀ r, g r ≠ [] ∧
       ∀ r', r' ∈ g r → ∀ c, c ∉ duration_columns → r' !! c = r !! c.

(** Rows at different positions carry different paths. *)
Definition distinct_paths (df : DataFrame) : Prop :=
  ∀ i j r1 r2,
    rows df !! i = Some r1 → rows df !! j = Some r2 → i ≠ j → key r1 ≠ key r2.

(** The earliest row with a given path: the files are searched in the
    order of the names, and the rows of a file from the top. *)
Fixpoint first_occurrence (env : environment) (input_dir : string)
    (names : list string) k : option (string * gmap string string) :=
  match names with
  | [] => None
  | f :: names' =>
      match read env (join input_dir f) with
      | Tsv t =>
          match first_with k (rows t) with
          | Some r0 => Some (f, r0)
          | None => first_occurrence env input_dir names' k
          end
      | _ => first_occurrence env input_dir names' k
      end
  end.

(** A small corpus: [b.mp3] is listed in two splits, and twice in the
    durations table. *)
Definition example_env : environment :=
  {| read := λ p,
       if decide (p = "cv/train.tsv") then
         Tsv {| columns := ["path"; "sentence"];
                rows := [ {[ "path" := "a.mp3"; "sentence" := "one" ]};
                          {[ "path" := "b.mp3"; "sentence" := "two" ]} ] |}
       else if decide (p = "cv/dev.tsv") then
         Tsv {| columns := ["path"; "sentence"];
                rows := [ {[ "path" := "b.mp3"; "sentence" := "deux" ]};
                          {[ "path" := "c.mp3"; "sentence" := "three" ]};
                          {[ "path" := "a.mp3"; "sentence" := "un" ]} ] |}
       else if decide (p = "cv/clip_durations.tsv") then
         Tsv {| columns := ["clip"; "duration[ms]"];
                rows := [ {[ "clip" := "b.mp3"; "duration[ms]" := "2100" ]};
                          {[ "clip" := "c.mp3"; "duration[ms]" := "3300" ]};
                          {[ "clip" := "b.mp3"; "duration[ms]" := "2200" ]} ] |}
       else Missing;
     csv_bytes := λ df, 40 * len df + 30;
     makedirs_error := λ _, None;
     to_csv_error := λ _, None;
     add_file_error := λ _, None;
     getsize_error := λ _, None;
     log_artifact_error := None |}.

Definition example_loader : instance :=
  {| input_dir := "cv"; output_dir := "out";
     wandb_project := "TTS_opensource"; wandb_entity := None |}.

Definition example_saved : DataFrame :=
  {| columns := ["path"; "sentence"; "source_file"; "duration_ms"];
     rows := [ {[ "path" := "a.mp3"; "sentence" := "one";
                  "source_file" := "train.tsv" ]};
               {[ "path" := "b.mp3"; "sentence" := "two";
                  "source_file" := "train.tsv"; "duration_ms" := "2100" ]};
               {[ "path" := "c.mp3"; "sentence" := "three";
                  "source_file" := "dev.tsv"; "duration_ms" := "3300" ]} ] |}.

(** The run [wandb.init] opens for a loader. *)
Definition opened (self : instance) : Run :=
  {| project := wandb_project self; entity := wandb_entity self;
     name := "data_loading"; job_type := "data_loading" |}.

(** The paths of the input tables, in the order [run] reads them: the files
    in the order of the names, the rows of a file from the top. *)
Definition input_paths (env : environment) (input_dir : string)
    (names : list string) : list (option string) :=
  names ≫= (λ f, match read env (join input_dir f) with
                 | Tsv t => key <$> rows t
                 | _ => []
                 end).

(** A list without its repetitions, every element where it stands
    first. *)
Fixpoint distinct_in_order (l : list (option string)) : list (option string) :=
  match l with
  | [] => []
  | k :: l' => k :: filter (λ k', k' ≠ k) (distinct_in_order l')
  end.

(** The duration the durations table lists first for a path: the cell of
    its second column, in the first row whose first column holds the
    path. *)
Definition listed_duration (d : DataFrame) (k : option string) : option string :=
  match columns d with
  | [c0; c1] =>
      x ← snd <$> list_find (λ x : gmap string string, x !! c0 = k) (rows d);
      x !! c1
  | _ => None
  end.

(** The small corpus where the output directory cannot be made, and where
    W&B refuses the artifact. *)
Definition readonly_env : environment :=
  {| read := read example_env;
     csv_bytes := csv_bytes example_env;
     makedirs_error := λ _,
       Some (Exn "PermissionError" "[Errno 13] Permission denied: 'out'");
     to_csv_error := λ _, None;
     add_file_error := λ _, None;
     getsize_error := λ _, None;
     log_artifact_error := None |}.

Definition offline_env : environment :=
  {| read := read example_env;
     csv_bytes := csv_bytes example_env;
     makedirs_error := λ _, None;
     to_csv_error := λ _, None;
     add_file_error := λ _, None;
     getsize_error := λ _, None;
     log_artifact_error := Some (Exn "CommError" "Network error") |}.

(** The line step 2 logs for a file. *)
Definition gather_line (env : environment) (input_dir f : string)
    : level * string :=
  match read env (join input_dir f) with
  | Missing => (WARNING, f +:+ " not found in " +:+ input_dir +:+ ", skipping...")
  | _ => (INFO, "Reading " +:+ f)
  end.


(** A corpus whose durations table has a third column. *)
Definition three_column_env : environment :=
  {| read := λ p,
       if decide (p = "cv/train.tsv") then
         Tsv {| columns := ["path"; "sentence"];
                rows := [ {[ "path" := "a.mp3"; "sentence" := "one" ]} ] |}
       else if decide (p = "cv/clip_durations.tsv") then
         Tsv {| columns := ["clip"; "duration[ms]"; "checked"];
                rows := [ {[ "clip" := "a.mp3"; "duration[ms]" := "1900";
                             "checked" := "yes" ]} ] |}
       else Missing;
     csv_bytes := λ df, 40 * len df + 30;
     makedirs_error := λ _, None;
     to_csv_error := λ _, None;
     add_file_error := λ _, None;
     getsize_error := λ _, None;
     log_artifact_error := None |}.

(** A corpus whose only table names its clips in a column [clip]. *)
Definition unkeyed_env : environment :=
  {| read := λ p,
       if decide (p = "cv/train.tsv") then
         Tsv {| columns := ["clip"; "sentence"];
                rows := [ {[ "clip" := "a.mp3"; "sentence" := "one" ]} ] |}
       else Missing;
     csv_bytes := λ df, 40 * len df + 30;
     makedirs_error := λ _, None;
     to_csv_error := λ _, None;
     add_file_error := λ _, None;
     getsize_error := λ _, None;
     log_artifact_error := None |}.

(** A corpus whose [test.tsv] cannot be parsed. *)
Definition corrupt_env : environment :=
  {| read := λ p,
       if decide (p = "cv/train.tsv") then
         Tsv {| columns := ["path"; "sentence"];
                rows := [ {[ "path" := "a.mp3"; "sentence" := "one" ]} ] |}
       else if decide (p = "cv/test.tsv") then
         Unreadable (Exn "ParserError" "Error tokenizing data.")
       else Missing;
     csv_bytes := λ df, 40 * len df + 30;
     makedirs_error := λ _, None;
     to_csv_error := λ _, None;
     add_file_error := λ _, None;
     getsize_error := λ _, None;
     log_artifact_error := None |}.

(** The row the saved table holds for a path: the earliest row with that
    path, with the name of its file in [source_file] and, when the
    durations table is merged, the duration that table lists first. *)
Definition annotate (env : environment) (input_dir : string)
    (k : option string) (r : gmap string string) : gmap string string :=
  match read env (join input_dir "clip_durations.tsv") with
  | Tsv d => set_cell "duration_ms" (listed_duration d k) r
  | _ => r
  end.

Definition saved_row (env : environment) (input_dir : string)
    (k : option string) : option (gmap string string) :=
  '(f, r0) ← first_occurrence env input_dir files_to_include k;
  Some (annotate env input_dir k (<["source_file" := f]> r0)).

End LoaderSpec.

(* ===================================================================== *)
(** * Part III. Properties                                                *)
(* ===================================================================== *)

(** ** The conversion of the samples *)

Section NumericProperties.
Import Py Numeric NumericSpec.

Lemma narrow16_wrap16 (z : Z) : narrow16 z = wrap16 z.
Proof.
  unfold narrow16, wrap16.
  change 65535 with (Z.ones 16). rewrite Z.land_ones by lia.
  change (2 ^ 16) with 65536.
  destruct (Z.leb_spec 32768 (z `mod` 65536)); Z.div_mod_to_equations; lia.
Qed.

Lemma wrap16_range (z : Z) : -32768 ≤ wrap16 z ≤ 32767.
Proof. unfold wrap16. Z.div_mod_to_equations. lia. Qed.

Lemma wrap16_small (z : Z) : -32768 ≤ z ≤ 32767 → wrap16 z = z.
Proof. intros H. unfold wrap16. Z.div_mod_to_equations. lia. Qed.

Lemma SFtrunc_Qtrunc (x : spec_float) :
  is_finite x = true → SFtrunc x = Some (Qtrunc (SF2Q x)).
Proof.
  destruct x as [s|s| |s m e]; [done|done|done|]; intros _; cbn [SFtrunc]; f_equal.
  unfold SF2Q, Qtrunc. destruct e as [|p|p]; cbn [Qnum Qden].
  - rewrite Z.quot_1_r, Z.shiftl_mul_pow2 by lia. destruct s; cbn [cond_Zopp]; lia.
  - rewrite Z.quot_1_r, Z.shiftl_mul_pow2 by lia. destruct s; cbn [cond_Zopp]; lia.
  - change (Z.shiftl (Z.pos m) (Z.neg p)) with (Z.shiftr (Z.pos m) (Z.pos p)).
    rewrite Z.shiftr_div_pow2 by lia.
    rewrite Pos2Z.inj_pow. destruct s; cbn [cond_Zopp].
    + change (- Z.pos m) with (- (Z.pos m)).
      rewrite Z.quot_opp_l by lia. rewrite Z.quot_div_nonneg by lia. done.
    + by rewrite Z.quot_div_nonneg by lia.
Qed.

(** *** Rounding to [prec] bits *)

Lemma digits2_pos_size (p : positive) : digits2_pos p = Pos.size p.
Proof. induction p as [p IH|p IH|]; cbn; by rewrite ?IH. Qed.

Lemma digits2_pos_bounds (p : positive) :
  2 ^ (Z.pos (digits2_pos p) - 1) ≤ Z.pos p < 2 ^ Z.pos (digits2_pos p).
Proof.
  rewrite digits2_pos_size. split.
  - pose proof (Pos.size_le p) as Hle.
    assert (H2 : 2 ^ Z.pos (Pos.size p) ≤ 2 * Z.pos p).
    { rewrite <- Pos2Z.inj_pow. change (2 * Z.pos p) with (Z.pos p~0). lia. }
    replace (Z.pos (Pos.size p)) with (Z.succ (Z.pos (Pos.size p) - 1)) in H2 by lia.
    rewrite Z.pow_succ_r in H2 by lia. lia.
  - pose proof (Pos.size_gt p) as Hgt. rewrite <- Pos2Z.inj_pow. lia.
Qed.

Lemma iter_pos_nat {A} (f : A → A) (p : positive) (x : A) :
  SpecFloat.iter_pos f p x = Nat.iter (Pos.to_nat p) f x.
Proof.
  revert x. induction p as [p IH|p IH|]; intros x; cbn [SpecFloat.iter_pos].
  - rewrite !IH, Pos2Nat.inj_xI.
    replace (S (2 * Pos.to_nat p)) with (Pos.to_nat p + (Pos.to_nat p + 1))%nat by lia.
    rewrite !Nat.iter_add. done.
  - rewrite !IH, Pos2Nat.inj_xO.
    replace (2 * Pos.to_nat p)%nat with (Pos.to_nat p + Pos.to_nat p)%nat by lia.
    by rewrite Nat.iter_add.
  - done.
Qed.

Lemma shr_1_nonneg (m : Z) (r s : bool) :
  0 ≤ m →
  shr_1 {| shr_m := m; shr_r := r; shr_s := s |} =
    {| shr_m := m `div` 2; shr_r := Z.odd m; shr_s := r || s |}.
Proof.
  intros Hm. destruct m as [|[p|p|]|p]; try lia; cbn [shr_1]; f_equal.
  - rewrite Pos2Z.inj_xI. Z.div_mod_to_equations. lia.
  - rewrite Pos2Z.inj_xO. Z.div_mod_to_equations. lia.
Qed.

Lemma shifted_spec (M : Z) (k : nat) :
  0 ≤ M →
  shifted M (S k) =
    {| shr_m := M `div` 2 ^ Z.of_nat (S k);
       shr_r := Z.odd (M `div` 2 ^ Z.of_nat k);
       shr_s := negb (M `mod` 2 ^ Z.of_nat k =? 0) |}.
Proof.
  intros HM. induction k as [|k IH].
  - change (shifted M 1) with
      (shr_1 {| shr_m := M; shr_r := false; shr_s := false |}).
    rewrite shr_1_nonneg by done.
    change (2 ^ Z.of_nat 0) with 1. change (2 ^ Z.of_nat 1) with 2.
    by rewrite Z.div_1_r, Z.mod_1_r.
  - change (shifted M (S (S k))) with (shr_1 (shifted M (S k))). rewrite IH.
    rewrite shr_1_nonneg by (apply Z.div_pos; lia). f_equal.
    + rewrite Z.div_div by lia. f_equal.
      rewrite (Nat2Z.inj_succ (S k)), Z.pow_succ_r by lia. lia.
    + replace (2 ^ Z.of_nat (S k)) with (2 ^ Z.of_nat k * 2)
        by (rewrite Nat2Z.inj_succ, Z.pow_succ_r by lia; lia).
      rewrite Z.rem_mul_r by lia.
      pose proof (Z.mod_pos_bound M (2 ^ Z.of_nat k) ltac:(lia)) as Hb.
      rewrite Zodd_mod.
      destruct (Z.eqb_spec (M `mod` 2 ^ Z.of_nat k) 0) as [H0|H0];
        destruct (Z.eqb_spec ((M `div` 2 ^ Z.of_nat k) `mod` 2) 1) as [H1|H1];
        cbn; symmetry.
      all: try (apply Z.eqb_eq; nia).
      all: try (apply negb_true_iff, Z.eqb_neq; Z.div_mod_to_equations; nia).
      all: apply negb_false_iff, Z.eqb_eq; Z.div_mod_to_equations; nia.
Qed.

Lemma rounded_0 (M : Z) : rounded M 0 = M.
Proof. reflexivity. Qed.

Lemma pow2_succ (k : nat) : 2 ^ Z.of_nat (S k) = 2 * 2 ^ Z.of_nat k.
Proof. rewrite Nat2Z.inj_succ, Z.pow_succ_r by lia. done. Qed.

Lemma pow2_pos (k : nat) : 0 < 2 ^ Z.of_nat k.
Proof. apply Z.pow_pos_nonneg; lia. Qed.

Lemma rounded_cases (M : Z) (k : nat) :
  0 ≤ M →
  let q := M `div` 2 ^ Z.of_nat k in
  let r := M `mod` 2 ^ Z.of_nat k in
  (q ≤ rounded M k ≤ q + 1) ∧
  (r = 0 → rounded M k = q) ∧
  (2 ^ Z.of_nat k < 2 * r → rounded M k = q + 1).
Proof.
  intros HM q r. subst q r. destruct k as [|k].
  - rewrite rounded_0. change (2 ^ Z.of_nat 0) with 1.
    rewrite Z.div_1_r, Z.mod_1_r. lia.
  - unfold rounded. rewrite shifted_spec by done.
    cbn [shr_m loc_of_shr_record].
    pose proof (pow2_pos k) as Hk.
    assert (Hrem : M `mod` 2 ^ Z.of_nat (S k) =
                   M `mod` 2 ^ Z.of_nat k +
                   2 ^ Z.of_nat k * ((M `div` 2 ^ Z.of_nat k) `mod` 2)).
    { rewrite pow2_succ, (Z.mul_comm 2). apply Z.rem_mul_r; lia. }
    rewrite Hrem. clear Hrem.
    pose proof (Z.mod_pos_bound M (2 ^ Z.of_nat k) Hk) as Hb.
    pose proof (Z.mod_pos_bound (M `div` 2 ^ Z.of_nat k) 2 ltac:(lia)) as Hb2.
    pose proof (pow2_succ k) as HS.
    rewrite Zodd_mod.
    generalize dependent (M `div` 2 ^ Z.of_nat (S k)). intros q.
    generalize dependent ((M `div` 2 ^ Z.of_nat k) `mod` 2). intros b Hb2.
    generalize dependent (M `mod` 2 ^ Z.of_nat k). intros l Hl.
    generalize dependent (2 ^ Z.of_nat (S k)). intros Q.
    generalize dependent (2 ^ Z.of_nat k). intros P HP Hl HQ.
    assert (Hb : b = 0 ∨ b = 1) by lia. destruct Hb as [-> | ->].
    + destruct (Z.eqb_spec l 0) as [H0|H0]; cbn [negb Z.eqb round_nearest_even]; lia.
    + destruct (Z.eqb_spec l 0) as [H0|H0]; cbn [negb Z.eqb Pos.eqb round_nearest_even];
        try destruct (Z.even q); lia.
Qed.

(** Rounding goes to a nearest multiple of [2^k]. *)
Lemma rounded_nearest (M : Z) (k : nat) :
  0 ≤ M → 2 * Z.abs (rounded M k * 2 ^ Z.of_nat k - M) ≤ 2 ^ Z.of_nat k.
Proof.
  intros HM. destruct k as [|k].
  - rewrite rounded_0. change (2 ^ Z.of_nat 0) with 1. lia.
  - unfold rounded. rewrite shifted_spec by done.
    cbn [shr_m loc_of_shr_record].
    pose proof (pow2_pos k) as Hk.
    assert (Hrem : M `mod` 2 ^ Z.of_nat (S k) =
                   M `mod` 2 ^ Z.of_nat k +
                   2 ^ Z.of_nat k * ((M `div` 2 ^ Z.of_nat k) `mod` 2)).
    { rewrite pow2_succ, (Z.mul_comm 2). apply Z.rem_mul_r; lia. }
    pose proof (Z.div_mod M (2 ^ Z.of_nat (S k)) ltac:(rewrite pow2_succ; lia)) as Hdm.
    rewrite Hrem in Hdm. clear Hrem.
    pose proof (Z.mod_pos_bound M (2 ^ Z.of_nat k) Hk) as Hb.
    pose proof (Z.mod_pos_bound (M `div` 2 ^ Z.of_nat k) 2 ltac:(lia)) as Hb2.
    pose proof (pow2_succ k) as HS.
    rewrite Zodd_mod.
    generalize dependent (M `div` 2 ^ Z.of_nat (S k)). intros q.
    generalize dependent ((M `div` 2 ^ Z.of_nat k) `mod` 2). intros b Hb2.
    generalize dependent (M `mod` 2 ^ Z.of_nat k). intros l Hl.
    generalize dependent (2 ^ Z.of_nat (S k)). intros Q.
    generalize dependent (2 ^ Z.of_nat k). intros P HP Hl HQ Hdm.
    assert (Hb : b = 0 ∨ b = 1) by lia. destruct Hb as [-> | ->].
    + destruct (Z.eqb_spec l 0) as [H0|H0]; cbn [negb Z.eqb round_nearest_even]; nia.
    + destruct (Z.eqb_spec l 0) as [H0|H0]; cbn [negb Z.eqb Pos.eqb round_nearest_even];
        try destruct (Z.even q); nia.
Qed.

Lemma shr_exact (M E n : Z) :
  shr (shr_record_of_loc M loc_Exact) E n =
    (shifted M (Z.to_nat n), E + Z.of_nat (Z.to_nat n)).
Proof.
  destruct n as [|p|p]; cbn [shr shr_record_of_loc].
  - f_equal. cbn. lia.
  - rewrite iter_pos_nat. f_equal. lia.
  - f_equal. cbn. lia.
Qed.

Lemma shifted_m (M : Z) (k : nat) :
  0 ≤ M → shr_m (shifted M k) = M `div` 2 ^ Z.of_nat k.
Proof.
  intros HM. destruct k as [|k].
  - cbn. by rewrite Z.div_1_r.
  - by rewrite shifted_spec.
Qed.

Lemma digits_le (p : positive) (n : Z) :
  0 ≤ n → Z.pos p < 2 ^ n → Z.pos (digits2_pos p) ≤ n.
Proof.
  intros Hn Hp. pose proof (digits2_pos_bounds p) as [Hlo _].
  destruct (Z.le_gt_cases (Z.pos (digits2_pos p)) n) as [|Hgt]; [done|].
  assert (2 ^ n ≤ 2 ^ (Z.pos (digits2_pos p) - 1)) by (apply Z.pow_le_mono_r; lia).
  lia.
Qed.

(** What rounding an exact product to binary32 returns: with [k] the
    number of bits dropped, the result carries the rounded mantissa at the
    exponent [E + k], up to one renormalising shift. *)
Lemma round_aux_value (sx : bool) (M : positive) (E : Z) :
  let k := Z.to_nat (fexp 24 128 (Z.pos (digits2_pos M) + E) - E) in
  let m := rounded (Z.pos M) k in
  let e := E + Z.of_nat k in
  match binary_round_aux 24 128 sx (Z.pos M) E loc_Exact with
  | S754_zero s => s = sx ∧ m = 0
  | S754_infinity s => s = sx ∧ 104 ≤ e
  | S754_nan => False
  | S754_finite s mf ef =>
      s = sx ∧ e ≤ ef ≤ 104 ∧ Z.pos mf * 2 ^ (ef - e) = m
  end.
Proof.
  intros k m e. unfold binary_round_aux, shr_fexp.
  cbn [Zdigits2]. rewrite shr_exact. fold k. fold e.
  change (round_nearest_even (shr_m (shifted (Z.pos M) k))
            (loc_of_shr_record (shifted (Z.pos M) k))) with m.
  rewrite shr_exact.
  set (k2 := Z.to_nat (fexp 24 128 (Zdigits2 m + e) - e)).
  pose proof (rounded_cases (Z.pos M) k ltac:(lia)) as [[Hlo Hhi] _]. fold m in Hlo, Hhi.
  pose proof (digits2_pos_bounds M) as [HMlo HMhi].
  assert (Hm0 : 0 ≤ m).
  { etrans; [|apply Hlo]. apply Z.div_pos; [lia | apply pow2_pos]. }
  rewrite shifted_m by done.
  assert (Hk2 : (k = 0%nat ∧ k2 = 0%nat ∧ m = Z.pos M) ∨
                (k ≠ 0%nat ∧ k2 = 0%nat) ∨
                (k ≠ 0%nat ∧ k2 = 1%nat ∧ m = 2 ^ 24)).
  { destruct (decide (k = 0%nat)) as [Hk|Hk].
    - left. subst m. rewrite Hk, rounded_0. split; [done|]. split; [|done].
      subst k2 e. rewrite Hk, rounded_0. cbn [Zdigits2]. subst k.
      unfold fexp, emin in *. clear - Hk. lia.
    - right.
      assert (He : e = fexp 24 128 (Z.pos (digits2_pos M) + E)).
      { subst e k. unfold fexp, emin in *. lia. }
      assert (Hq : Z.pos M `div` 2 ^ Z.of_nat k < 2 ^ 24).
      { apply Z.div_lt_upper_bound; [apply pow2_pos|].
        rewrite <- Z.pow_add_r by lia.
        eapply Z.lt_le_trans; [apply HMhi|].
        apply Z.pow_le_mono_r; [lia|]. subst k e. unfold fexp, emin in *. lia. }
      destruct (decide (m = 2 ^ 24)) as [Hm|Hm].
      + right. split; [done|]. split; [|done].
        subst k2. rewrite Hm. change (Zdigits2 (2 ^ 24)) with 25.
        rewrite He. unfold fexp, emin. lia.
      + left. split; [done|]. subst k2.
        destruct m as [|pm|pm]; [| |lia].
        * cbn [Zdigits2]. rewrite He. unfold fexp, emin. lia.
        * cbn [Zdigits2].
          pose proof (digits_le pm 24 ltac:(lia) ltac:(lia)).
          rewrite He. unfold fexp, emin. lia. }
  clearbody k2 m.
  destruct Hk2 as [(Hk & -> & Hm) | [(Hk & ->) | (Hk & -> & Hm)]].
  - change (2 ^ Z.of_nat 0) with 1. rewrite Z.div_1_r, Hm, Z.add_0_r.
    destruct (Z.leb_spec e (128 - 24)); [|split; [done | lia]].
    split; [done|]. split; [lia|]. rewrite Z.sub_diag. lia.
  - change (2 ^ Z.of_nat 0) with 1. rewrite Z.div_1_r, Z.add_0_r.
    destruct m as [|pm|pm]; [done| |lia].
    destruct (Z.leb_spec e (128 - 24)); [|split; [done | lia]].
    split; [done|]. split; [lia|]. rewrite Z.sub_diag. lia.
  - rewrite Hm. change (2 ^ 24 `div` 2 ^ Z.of_nat 1) with (Z.pos (2 ^ 23)).
    cbv iota.
    destruct (Z.leb_spec (e + Z.of_nat 1) (128 - 24)); [|split; [done | lia]].
    split; [done|]. split; [lia|].
    replace (e + Z.of_nat 1 - e) with 1 by lia. done.
Qed.

Lemma scale_finite (sx : bool) (m : positive) (e : Z) :
  scale (S754_finite sx m e) =
    binary_round_aux 24 128 sx (Z.pos (m * 16776704)) (e + -9) loc_Exact.
Proof.
  unfold scale, f32_mul.
  change (f32_of_Z 32767) with (S754_finite false 16776704 (-9)).
  cbn [SFmul]. by rewrite xorb_false_r.
Qed.

(** The magnitude of [m * 2^e] is at most one. *)
Lemma Q_le_one (sx : bool) (m : positive) (e : Z) :
  (-1 <= SF2Q (S754_finite sx m e) <= 1)%Q → e ≤ 0 ∧ Z.pos m ≤ 2 ^ (- e).
Proof.
  unfold SF2Q, Qle. intros [Hlo Hhi].
  destruct e as [|p|p]; cbn [Qnum Qden] in Hlo, Hhi.
  - destruct sx; cbn [cond_Zopp] in *; split; lia.
  - assert (2 ≤ 2 ^ Z.pos p).
    { change 2 with (2 ^ 1) at 1. apply Z.pow_le_mono_r; lia. }
    destruct sx; cbn [cond_Zopp] in *; nia.
  - rewrite Pos2Z.inj_pow in Hlo, Hhi. change (- Z.neg p) with (Z.pos p).
    destruct sx; cbn [cond_Zopp] in *; split; lia.
Qed.

Lemma shiftl_le (a C ef e : Z) :
  0 ≤ a → 0 ≤ C → e ≤ ef → e ≤ 0 →
  a * 2 ^ (ef - e) ≤ C * 2 ^ (- e) →
  0 ≤ Z.shiftl a ef ≤ C.
Proof.
  intros Ha HC Hef He Hle. split; [by apply Z.shiftl_nonneg|].
  destruct (Z.le_gt_cases 0 ef) as [Hpos|Hneg].
  - rewrite Z.shiftl_mul_pow2 by done.
    replace (ef - e) with (ef + - e) in Hle by lia.
    rewrite Z.pow_add_r in Hle by lia.
    assert (0 < 2 ^ (- e)) by (apply Z.pow_pos_nonneg; lia). nia.
  - rewrite <- (Z.opp_involutive ef) at 1. rewrite Z.shiftl_opp_r.
    rewrite Z.shiftr_div_pow2 by lia.
    replace (- e) with (- ef + (ef - e)) in Hle by lia.
    rewrite Z.pow_add_r in Hle by lia.
    assert (0 < 2 ^ (ef - e)) by (apply Z.pow_pos_nonneg; lia).
    assert (0 < 2 ^ (- ef)) by (apply Z.pow_pos_nonneg; lia).
    assert (a ≤ C * 2 ^ (- ef)) by nia.
    apply Z.div_le_upper_bound; lia.
Qed.

(** Scaling a sample of magnitude at most one never leaves
    [-32767, 32767]. *)
Lemma scale_in_range (s : spec_float) :
  is_finite s = true → (-1 <= SF2Q s <= 1)%Q →
  ∃ z, SFtrunc (scale s) = Some z ∧ -32767 ≤ z ≤ 32767.
Proof.
  destruct s as [sx|sx| |sx m e]; try done; intros _ Hs.
  { exists 0. by destruct sx. }
  apply Q_le_one in Hs as [He Hm].
  rewrite scale_finite.
  pose proof (round_aux_value sx (m * 16776704) (e + -9)) as Hr.
  set (M := (m * 16776704)%positive) in *. set (E := e + -9) in *.
  cbv zeta in Hr.
  set (k := Z.to_nat (fexp 24 128 (Z.pos (digits2_pos M) + E) - E)) in *.
  pose proof (rounded_cases (Z.pos M) k ltac:(lia)) as ([Hlo Hhi] & Hex & _).
  pose proof (digits2_pos_bounds M) as [HMlo HMhi].
  pose proof (pow2_pos k) as Hk.
  assert (HM : Z.pos M ≤ 32767 * 2 ^ (- E)).
  { subst M E. rewrite Pos2Z.inj_mul.
    replace (- (e + -9)) with (- e + 9) by lia.
    rewrite Z.pow_add_r by lia. change (2 ^ 9) with 512.
    change (Z.pos 16776704) with (32767 * 512). nia. }
  assert (Hd : Z.pos (digits2_pos M) + E ≤ 15).
  { assert (Hlt : 2 ^ (Z.pos (digits2_pos M) - 1) < 2 ^ (15 - E)).
    { eapply Z.le_lt_trans; [apply HMlo|]. eapply Z.le_lt_trans; [apply HM|].
      replace (15 - E) with (15 + - E) by lia.
      rewrite Z.pow_add_r by lia. change (2 ^ 15) with 32768.
      assert (0 < 2 ^ (- E)) by (apply Z.pow_pos_nonneg; lia). lia. }
    apply Z.pow_lt_mono_r_iff in Hlt; lia. }
  assert (He' : E + Z.of_nat k ≤ -9).
  { subst k. unfold fexp, emin. lia. }
  set (e' := E + Z.of_nat k) in *.
  assert (Hm'' : rounded (Z.pos M) k ≤ 32767 * 2 ^ (- e')).
  { assert (HB : Z.pos M ≤ (32767 * 2 ^ (- e')) * 2 ^ Z.of_nat k).
    { rewrite <- Z.mul_assoc, <- Z.pow_add_r by lia.
      replace (- e' + Z.of_nat k) with (- E) by lia. done. }
    set (B := 32767 * 2 ^ (- e')) in *.
    assert (Hq : Z.pos M `div` 2 ^ Z.of_nat k ≤ B).
    { apply Z.div_le_upper_bound; lia. }
    destruct (Z.eq_dec (Z.pos M `div` 2 ^ Z.of_nat k) B) as [Heq|Hne]; [|lia].
    rewrite Hex; [lia|].
    pose proof (Z.div_mod (Z.pos M) (2 ^ Z.of_nat k) ltac:(lia)) as Hdm.
    pose proof (Z.mod_pos_bound (Z.pos M) (2 ^ Z.of_nat k) Hk). nia. }
  destruct (binary_round_aux 24 128 sx (Z.pos M) E loc_Exact) as [s|s| |s mf ef].
  - by exists 0.
  - lia.
  - done.
  - destruct Hr as (-> & [Hef _] & Hmf). cbn [SFtrunc].
    pose proof (shiftl_le (Z.pos mf) 32767 ef e' ltac:(lia) ltac:(lia)
                  Hef ltac:(lia) ltac:(lia)) as Hsh.
    eexists. split; [done|]. destruct sx; cbn [cond_Zopp]; lia.
Qed.

(** The magnitude of [m * 2^e] is above 32768/32767. *)
Lemma Q_above_threshold (sx : bool) (m : positive) (e : Z) :
  (32768 # 32767 < Qabs (SF2Q (S754_finite sx m e)))%Q →
  (0 ≤ e ∧ 32768 < 32767 * (Z.pos m * 2 ^ e)) ∨
  (e < 0 ∧ 32768 * 2 ^ (- e) < 32767 * Z.pos m).
Proof.
  unfold SF2Q, Qlt, Qabs. intros H.
  destruct e as [|p|p]; cbn [Qnum Qden] in H.
  - left. destruct sx; cbn [cond_Zopp] in H; split; lia.
  - left. assert (0 < 2 ^ Z.pos p) by (apply Z.pow_pos_nonneg; lia).
    assert (Ha : Z.abs (cond_Zopp sx (Z.pos m) * 2 ^ Z.pos p) =
                 Z.pos m * 2 ^ Z.pos p).
    { destruct sx; cbn [cond_Zopp]; nia. }
    rewrite Ha in H. split; lia.
  - right. rewrite Pos2Z.inj_pow in H. change (- Z.neg p) with (Z.pos p).
    destruct sx; cbn [cond_Zopp] in H; split; lia.
Qed.

Lemma canonical_normal (m : positive) (e : Z) :
  canonical_mantissa 24 128 m e = true → -149 < e →
  2 ^ 23 ≤ Z.pos m < 2 ^ 24.
Proof.
  unfold canonical_mantissa, fexp, emin. intros Hc He.
  apply Z.eqb_eq in Hc.
  assert (Hd : Z.pos (digits2_pos m) = 24) by lia.
  pose proof (digits2_pos_bounds m) as Hb. rewrite Hd in Hb. exact Hb.
Qed.

(** The rounded product of a [float32] above the threshold is above
    [2^15], by at least one unit in the last place. *)
Lemma scale_rounded_exceeds (m : positive) (e : Z) :
  canonical_mantissa 24 128 m e = true →
  (0 ≤ e ∧ 32768 < 32767 * (Z.pos m * 2 ^ e)) ∨
    (e < 0 ∧ 32768 * 2 ^ (- e) < 32767 * Z.pos m) →
  let M := (m * 16776704)%positive in
  let E := e + -9 in
  let k := Z.to_nat (fexp 24 128 (Z.pos (digits2_pos M) + E) - E) in
  0 ≤ E + Z.of_nat k + 8 ∧
  2 ^ 23 + 1 ≤ rounded (Z.pos M) k * 2 ^ (E + Z.of_nat k + 8).
Proof.
  intros Hc Hth M E k.
  assert (He : -23 ≤ e).
  { destruct Hth as [[He _]|[He Hth]]; [lia|].
    destruct (Z.le_gt_cases (-23) e) as [|Hlt]; [done|]. exfalso.
    assert (Hm : Z.pos m < 2 ^ 24).
    { pose proof (digits2_pos_bounds m) as [_ Hhi].
      eapply Z.lt_le_trans; [apply Hhi|]. apply Z.pow_le_mono_r; [lia|].
      unfold canonical_mantissa, fexp, emin in Hc. apply Z.eqb_eq in Hc. lia. }
    assert (2 ^ 24 ≤ 2 ^ (- e)) by (apply Z.pow_le_mono_r; lia). lia. }
  pose proof (canonical_normal m e Hc ltac:(lia)) as [Hmlo Hmhi].
  change (2 ^ 23) with 8388608 in *. change (2 ^ 24) with 16777216 in *.
  assert (HM : Z.pos M = Z.pos m * 16776704) by (subst M; lia).
  pose proof (digits2_pos_bounds M) as [HMlo HMhi].
  assert (Hd : Z.pos (digits2_pos M) = 47 ∨ Z.pos (digits2_pos M) = 48).
  { assert (Hlt1 : 2 ^ (Z.pos (digits2_pos M) - 1) < 2 ^ 48).
    { eapply Z.le_lt_trans; [apply HMlo|]. change (2 ^ 48) with 281474976710656. lia. }
    assert (Hlt2 : 2 ^ 46 < 2 ^ Z.pos (digits2_pos M)).
    { eapply Z.le_lt_trans; [|apply HMhi]. change (2 ^ 46) with 70368744177664. lia. }
    apply Z.pow_lt_mono_r_iff in Hlt1; [|lia|lia].
    apply Z.pow_lt_mono_r_iff in Hlt2; lia. }
  assert (Hk : Z.of_nat k = Z.pos (digits2_pos M) - 24).
  { subst k E. unfold fexp, emin. lia. }
  pose proof (rounded_cases (Z.pos M) k ltac:(lia)) as ([Hlo _] & _ & Hup).
  pose proof (pow2_pos k) as Hkpos.
  pose proof (Z.div_mod (Z.pos M) (2 ^ Z.of_nat k) ltac:(lia)) as Hdm.
  pose proof (Z.mod_pos_bound (Z.pos M) (2 ^ Z.of_nat k) Hkpos) as Hmod.
  assert (Hq : 8388608 ≤ Z.pos M `div` 2 ^ Z.of_nat k).
  { apply Z.div_le_lower_bound; [done|].
    etrans; [|apply HMlo]. change 8388608 with (2 ^ 23).
    rewrite <- Z.pow_add_r by lia. apply Z.pow_le_mono_r; lia. }
  set (q := Z.pos M `div` 2 ^ Z.of_nat k) in *.
  set (r := Z.pos M `mod` 2 ^ Z.of_nat k) in *.
  set (m2 := rounded (Z.pos M) k) in *.
  replace (E + Z.of_nat k + 8) with (Z.pos (digits2_pos M) + e - 25)
    by (subst E; lia).
  destruct Hd as [Hd|Hd]; rewrite Hd in *.
  - (* 47 digits *)
    replace (Z.of_nat k) with 23 in * by lia. change (2 ^ 23) with 8388608 in *.
    assert (He2 : e ≠ -23).
    { intros ->. destruct Hth as [[? _]|[_ Hth]]; [lia|].
      change (2 ^ (- -23)) with 8388608 in Hth.
      change (2 ^ 47) with 140737488355328 in HMhi. lia. }
    split; [lia|].
    destruct (Z.eq_dec e (-22)) as [->|Hne].
    + change (2 ^ (47 + -22 - 25)) with 1. lia.
    + assert (2 ≤ 2 ^ (47 + e - 25)).
      { change 2 with (2 ^ 1) at 1. apply Z.pow_le_mono_r; lia. }
      nia.
  - (* 48 digits *)
    replace (Z.of_nat k) with 24 in * by lia. change (2 ^ 24) with 16777216 in *.
    split; [lia|].
    destruct (Z.eq_dec e (-23)) as [->|Hne].
    + change (2 ^ (48 + -23 - 25)) with 1.
      destruct Hth as [[? _]|[_ Hth]]; [lia|].
      change (2 ^ (- -23)) with 8388608 in Hth.
      destruct (Z.eq_dec q 8388608) as [Hq8|Hq8]; [|lia].
      rewrite Hup; lia.
    + assert (2 ≤ 2 ^ (48 + e - 25)).
      { change 2 with (2 ^ 1) at 1. apply Z.pow_le_mono_r; lia. }
      nia.
Qed.

Lemma scale_exceeds (s : spec_float) :
  valid_binary 24 128 s = true →
  (32768 # 32767 < Qabs (SF2Q s))%Q →
  is_finite (scale s) = true →
  (SF2Q (scale s) < -32768 ∨ 32767 < SF2Q (scale s))%Q.
Proof.
  destruct s as [sx|sx| |sx m e]; try (intros _ H; by vm_compute in H).
  cbn [valid_binary]. unfold bounded. intros Hv Hth Hfin.
  apply andb_prop in Hv as [Hc _].
  apply Q_above_threshold in Hth.
  pose proof (scale_rounded_exceeds m e Hc Hth) as Hex.
  pose proof (round_aux_value sx (m * 16776704) (e + -9)) as Hr.
  rewrite scale_finite in *. cbv zeta in Hex, Hr.
  set (M := (m * 16776704)%positive) in *. set (E := e + -9) in *.
  set (k := Z.to_nat (fexp 24 128 (Z.pos (digits2_pos M) + E) - E)) in *.
  set (e' := E + Z.of_nat k) in *. destruct Hex as [He' Hex].
  destruct (binary_round_aux 24 128 sx (Z.pos M) E loc_Exact)
    as [s0|s0| |s0 mf ef]; [|done|done|].
  { destruct Hr as [_ Hr]. rewrite Hr in Hex. lia. }
  destruct Hr as (-> & [Hef _] & Hmf).
  assert (Hval : 2 ^ 23 + 1 ≤ Z.pos mf * 2 ^ (ef + 8)).
  { replace (ef + 8) with (ef - e' + (e' + 8)) by lia.
    rewrite Z.pow_add_r, Z.mul_assoc, Hmf by lia. done. }
  change (2 ^ 23) with 8388608 in Hval.
  assert (Hmag : (32768 < Qabs (SF2Q (S754_finite sx mf ef)))%Q).
  { unfold SF2Q, Qlt, Qabs. destruct ef as [|p|p]; cbn [Qnum Qden].
    - change (2 ^ (0 + 8)) with 256 in Hval.
      destruct sx; cbn [cond_Zopp]; lia.
    - rewrite Z.pow_add_r in Hval by lia. change (2 ^ 8) with 256 in Hval.
      assert (0 < 2 ^ Z.pos p) by (apply Z.pow_pos_nonneg; lia).
      assert (Ha : Z.abs (cond_Zopp sx (Z.pos mf) * 2 ^ Z.pos p) =
                   Z.pos mf * 2 ^ Z.pos p).
      { destruct sx; cbn [cond_Zopp]; nia. }
      rewrite Ha. lia.
    - rewrite Pos2Z.inj_pow.
      assert (Hsplit : 2 ^ Z.pos p * 2 ^ (Z.neg p + 8) = 256).
      { rewrite <- Z.pow_add_r by lia.
        replace (Z.pos p + (Z.neg p + 8)) with 8 by lia. done. }
      assert (0 < 2 ^ Z.pos p) by (apply Z.pow_pos_nonneg; lia).
      assert (0 < 2 ^ (Z.neg p + 8)) by (apply Z.pow_pos_nonneg; lia).
      assert (Ha : Z.abs (cond_Zopp sx (Z.pos mf)) = Z.pos mf).
      { destruct sx; cbn [cond_Zopp]; lia. }
      rewrite Ha. nia. }
  revert Hmag. generalize (SF2Q (S754_finite sx mf ef)). intros q Hq.
  destruct (Qlt_le_dec q 0) as [Hneg|Hpos].
  - left. rewrite Qabs_neg in Hq by (by apply Qlt_le_weak).
    apply Qopp_lt_compat in Hq. rewrite Qopp_involutive in Hq. exact Hq.
  - right. rewrite Qabs_pos in Hq by done.
    eapply Qlt_trans; [|apply Hq]. done.
Qed.

Lemma np_int16_fits (invalid : spec_float → Z) (x : spec_float) :
  fits_int32 x = true →
  np_int16 invalid x = wrap16 (Qtrunc (SF2Q x)).
Proof.
  unfold fits_int32, np_int16, float_to_int32. intros Hf.
  assert (Hfin : is_finite x = true) by (by destruct x).
  rewrite (SFtrunc_Qtrunc x Hfin) in *. rewrite Hf. apply narrow16_wrap16.
Qed.

Lemma scale_fits (s : spec_float) :
  is_finite s = true → (-1 <= SF2Q s <= 1)%Q →
  fits_int32 (scale s) = true ∧ -32767 ≤ Qtrunc (SF2Q (scale s)) ≤ 32767.
Proof.
  intros Hfin Hs. destruct (scale_in_range s Hfin Hs) as (z & Hz & Hr).
  assert (Hf : is_finite (scale s) = true) by (by destruct (scale s)).
  rewrite (SFtrunc_Qtrunc _ Hf) in Hz. injection Hz as Hz.
  unfold fits_int32. rewrite (SFtrunc_Qtrunc _ Hf), Hz. split; [|lia].
  apply andb_true_intro. split; [apply Z.leb_le | apply Z.ltb_lt]; lia.
Qed.

(** The value of a finite float over a power of two. *)
Lemma SF2Q_over (s : bool) (m : positive) (e b : Z) :
  b ≤ e → b ≤ 0 →
  (SF2Q (S754_finite s m e) ==
   cond_Zopp s (Z.pos m * 2 ^ (e - b)) # Z.to_pos (2 ^ (- b)))%Q.
Proof.
  intros Hbe Hb.
  assert (Hp : 0 < 2 ^ (- b)) by (apply Z.pow_pos_nonneg; lia).
  unfold SF2Q, Qeq. destruct e as [|p|p]; cbn [Qnum Qden];
    rewrite Z2Pos.id by done.
  - replace (0 - b) with (- b) by lia. change (2 ^ 0) with 1.
    destruct s; cbn [cond_Zopp]; lia.
  - replace (Z.pos p - b) with (Z.pos p + - b) by lia.
    rewrite Z.pow_add_r by lia. destruct s; cbn [cond_Zopp]; lia.
  - rewrite Pos2Z.inj_pow.
    replace (- b) with ((Z.neg p - b) + Z.pos p) by lia.
    rewrite Z.pow_add_r by lia. destruct s; cbn [cond_Zopp]; lia.
Qed.

(** The [float32] product of a sample between -1 and 1 with 32767 lies
    within [2^-10] of the exact product. *)
Lemma scale_error (s : spec_float) :
  is_finite s = true → (-1 <= SF2Q s <= 1)%Q →
  (Qabs (SF2Q (scale s) - SF2Q s * 32767) <= 1 # 1024)%Q.
Proof.
  destruct s as [sx|sx| |sx m e]; try done; intros _ Hs.
  pose proof Hs as Hs'. apply Q_le_one in Hs' as [He Hm].
  rewrite scale_finite.
  pose proof (round_aux_value sx (m * 16776704) (e + -9)) as Hr.
  set (M := (m * 16776704)%positive) in *. set (E := e + -9) in *.
  cbv zeta in Hr.
  set (k := Z.to_nat (fexp 24 128 (Z.pos (digits2_pos M) + E) - E)) in *.
  pose proof (rounded_nearest (Z.pos M) k ltac:(lia)) as Hnear.
  pose proof (digits2_pos_bounds M) as [HMlo HMhi].
  pose proof (pow2_pos k) as Hk.
  assert (HM : Z.pos M ≤ 32767 * 2 ^ (- E)).
  { subst M E. rewrite Pos2Z.inj_mul.
    replace (- (e + -9)) with (- e + 9) by lia.
    rewrite Z.pow_add_r by lia. change (2 ^ 9) with 512.
    change (Z.pos 16776704) with (32767 * 512). nia. }
  assert (Hd : Z.pos (digits2_pos M) + E ≤ 15).
  { assert (Hlt : 2 ^ (Z.pos (digits2_pos M) - 1) < 2 ^ (15 - E)).
    { eapply Z.le_lt_trans; [apply HMlo|]. eapply Z.le_lt_trans; [apply HM|].
      replace (15 - E) with (15 + - E) by lia.
      rewrite Z.pow_add_r by lia. change (2 ^ 15) with 32768.
      assert (0 < 2 ^ (- E)) by (apply Z.pow_pos_nonneg; lia). lia. }
    apply Z.pow_lt_mono_r_iff in Hlt; lia. }
  assert (He' : E + Z.of_nat k ≤ -9).
  { subst k. unfold fexp, emin. lia. }
  assert (HE : E ≤ -9) by (subst E; lia).
  assert (Hp : 0 < 2 ^ (- E)) by (apply Z.pow_pos_nonneg; lia).
  (* the exact product over 2^(-E) *)
  assert (Hexact : (SF2Q (S754_finite sx m e) * 32767 ==
                    cond_Zopp sx (Z.pos M) # Z.to_pos (2 ^ (- E)))%Q).
  { rewrite (SF2Q_over sx m e E) by lia.
    replace (e - E) with 9 by (subst E; lia).
    unfold Qeq, Qmult. cbn [Qnum Qden]. subst M. rewrite Pos2Z.inj_mul.
    change (2 ^ 9) with 512. change (Z.pos 16776704) with (32767 * 512).
    rewrite Pos2Z.inj_mul. destruct sx; cbn [cond_Zopp]; lia. }
  (* the bound in integers *)
  assert (Hbound : ∀ v : Z,
            v = rounded (Z.pos M) k * 2 ^ Z.of_nat k →
            (Qabs ((cond_Zopp sx v # Z.to_pos (2 ^ (- E))) -
                   (cond_Zopp sx (Z.pos M) # Z.to_pos (2 ^ (- E)))) <= 1 # 1024)%Q).
  { intros v ->.
    assert (H10 : 2 ^ Z.of_nat k * 1024 ≤ 2 * 2 ^ (- E) ∨ k = 0%nat).
    { destruct (decide (k = 0%nat)) as [H0|H0]; [by right|]. left.
      replace (2 ^ Z.of_nat k * 1024) with (2 ^ (Z.of_nat k + 10))
        by (rewrite Z.pow_add_r by lia; done).
      replace (2 * 2 ^ (- E)) with (2 ^ (1 + - E))
        by (rewrite Z.pow_add_r by lia; done).
      apply Z.pow_le_mono_r; lia. }
    set (D := rounded (Z.pos M) k * 2 ^ Z.of_nat k - Z.pos M) in *.
    assert (HD : Z.abs D * 1024 ≤ 2 ^ (- E)).
    { destruct H10 as [H10 | H0]; [nia|].
      subst D. rewrite H0, rounded_0. change (2 ^ Z.of_nat 0) with 1. lia. }
    assert (Heq : ((cond_Zopp sx (rounded (Z.pos M) k * 2 ^ Z.of_nat k)
                      # Z.to_pos (2 ^ (- E))) -
                   (cond_Zopp sx (Z.pos M) # Z.to_pos (2 ^ (- E))) ==
                   cond_Zopp sx D # Z.to_pos (2 ^ (- E)))%Q).
    { unfold Qeq, Qminus, Qplus, Qopp. cbn [Qnum Qden].
      rewrite Pos2Z.inj_mul. subst D. destruct sx; cbn [cond_Zopp]; lia. }
    rewrite Heq. unfold Qabs, Qle. cbn [Qnum Qden].
    rewrite Z2Pos.id by done.
    destruct sx; cbn [cond_Zopp]; lia. }
  destruct (binary_round_aux 24 128 sx (Z.pos M) E loc_Exact) as [s|s| |s mf ef].
  - destruct Hr as [_ Hm0]. rewrite Hexact.
    assert (Hz : (SF2Q (S754_zero s) == cond_Zopp sx 0 # Z.to_pos (2 ^ (- E)))%Q)
      by (by destruct sx).
    rewrite Hz. apply Hbound. rewrite Hm0. lia.
  - lia.
  - done.
  - destruct Hr as (-> & [Hef Hef'] & Hmf). rewrite Hexact.
    rewrite (SF2Q_over sx mf ef E) by lia.
    apply Hbound. rewrite <- Hmf, <- Z.mul_assoc, <- Z.pow_add_r by lia.
    do 2 f_equal. lia.
Qed.

(** C6, as the code has it.  Each sample is multiplied by 32767 in
    [float32] and the product, as stored, loses its fraction.  For a sample
    of the decoded buffer, a [float32] between -1 and 1, the stored product
    lies within [2^-10] of the exact one, the cast is defined, and the
    result is the stored product truncated toward zero, a value of 16 bits.
    Wherever the cast is defined the result is the 16-bit value of the
    truncated stored product.  The result is not the nearest integer: a
    half gives 16383, which [round] would take to 16384, and minus a half
    gives -16383. *)
Theorem sample_conversion_truncates (invalid : spec_float → Z) :
  (∀ s, is_finite s = true → (-1 <= SF2Q s <= 1)%Q →
        (Qabs (SF2Q (scale s) - SF2Q s * 32767) <= 1 # 1024)%Q ∧
        fits_int32 (scale s) = true ∧
        sample_to_int16 invalid s = Qtrunc (SF2Q (scale s)) ∧
        -32767 ≤ sample_to_int16 invalid s ≤ 32767) ∧
  (∀ s, fits_int32 (scale s) = true →
        sample_to_int16 invalid s = wrap16 (Qtrunc (SF2Q (scale s)))) ∧
  (sample_to_int16 invalid (f32 1 (-1)) = 16383 ∧
   Qtrunc (SF2Q (f32 1 (-1)) * 32767) = 16383 ∧
   SFround (scale (f32 1 (-1))) = Some 16384 ∧
   sample_to_int16 invalid (f32 (-1) (-1)) = -16383).
Proof.
  split; [|split].
  - intros s Hfin Hs. destruct (scale_fits s Hfin Hs) as [Hf Hr].
    split; [by apply scale_error|]. split; [done|].
    assert (Heq : sample_to_int16 invalid s = Qtrunc (SF2Q (scale s))).
    { unfold sample_to_int16.
      rewrite (np_int16_fits invalid _ Hf). apply wrap16_small. lia. }
    split; [done|]. rewrite Heq. lia.
  - intros s Hf. by apply np_int16_fits.
  - repeat split; vm_compute; reflexivity.
Qed.

Lemma sample_conversion_truncates_example :
  (Qabs (SF2Q (scale (f32 3 (-2))) - SF2Q (f32 3 (-2)) * 32767) <= 1 # 1024)%Q ∧
  fits_int32 (scale (f32 3 (-2))) = true ∧
  sample_to_int16 x86_64 (f32 3 (-2)) = Qtrunc (SF2Q (scale (f32 3 (-2)))) ∧
  -32767 ≤ sample_to_int16 x86_64 (f32 3 (-2)) ≤ 32767.
Proof.
  apply (proj1 (sample_conversion_truncates x86_64) (f32 3 (-2))).
  - vm_compute. reflexivity.
  - split; vm_compute; discriminate.
Defined.

(** The exact product is not what is truncated.  The sample
    [32769 * 2^-30] is a [float32] between -1 and 1 whose exact product
    with 32767 is [1 - 2^-30], so that truncating it gives 0; the product
    is stored as 1, and the sample is converted to 1. *)
Lemma exact_product_is_not_truncated :
  let s := f32 32769 (-30) in
  valid_binary 24 128 s = true ∧ is_finite s = true ∧
  (-1 <= SF2Q s <= 1)%Q ∧
  (SF2Q s * 32767 == 1073741823 # 1073741824)%Q ∧
  Qtrunc (SF2Q s * 32767) = 0 ∧
  wrap16 (Qtrunc (SF2Q s * 32767)) = 0 ∧
  scale s = f32 1 0 ∧
  sample_to_int16 x86_64 s = 1.
Proof.
  cbv zeta. split; [vm_compute; reflexivity|]. split; [vm_compute; reflexivity|].
  split; [split; vm_compute; discriminate|].
  repeat split; vm_compute; reflexivity.
Qed.

(** C10, as the code has it.  A sample between -1 and 1 is converted to a
    value between -32767 and 32767.  For a [float32] sample of magnitude
    above 32768/32767 whose product with 32767 still converts to a 32-bit
    integer, the product lies outside [-32768, 32767] and the result is
    the truncated product reduced modulo 2^16 into the 16-bit range: the
    sample 2 gives -2, not the nearest representable value 32767. *)
Theorem conversion_does_not_saturate (invalid : spec_float → Z) :
  (∀ s, is_finite s = true → (-1 <= SF2Q s <= 1)%Q →
        -32767 ≤ sample_to_int16 invalid s ≤ 32767) ∧
  (∀ s, valid_binary 24 128 s = true →
        (32768 # 32767 < Qabs (SF2Q s))%Q →
        fits_int32 (scale s) = true →
        (SF2Q (scale s) < -32768 ∨ 32767 < SF2Q (scale s))%Q ∧
        sample_to_int16 invalid s = wrap16 (Qtrunc (SF2Q (scale s)))) ∧
  sample_to_int16 invalid (f32 2 0) = -2.
Proof.
  split; [|split].
  - intros s Hfin Hs. destruct (scale_fits s Hfin Hs) as [Hf Hr].
    unfold sample_to_int16. rewrite (np_int16_fits invalid _ Hf).
    rewrite wrap16_small; lia.
  - intros s Hv Hth Hf. split.
    + apply scale_exceeds; [done|done|].
      unfold fits_int32 in Hf. by destruct (scale s).
    + by apply np_int16_fits.
  - vm_compute. reflexivity.
Qed.

Lemma conversion_does_not_saturate_example :
  (SF2Q (scale (f32 3 0)) < -32768 ∨ 32767 < SF2Q (scale (f32 3 0)))%Q ∧
  sample_to_int16 x86_64 (f32 3 0) = wrap16 (Qtrunc (SF2Q (scale (f32 3 0)))).
Proof.
  apply (proj1 (proj2 (conversion_does_not_saturate x86_64)) (f32 3 0));
    vm_compute; reflexivity.
Defined.

(** C10 as stated fails.  The product of the sample 2^127 with 32767 is
    the [float32] infinity, which has no truncation for the result to be
    congruent to; and the product of the sample 65541 does not fit 32
    bits, so that an x86-64 build stores 0 where the truncated product
    reduced modulo 2^16 is -32768. *)
Lemma wrap_fails_beyond_int32 :
  valid_binary 24 128 (f32 1 127) = true ∧
  (32768 # 32767 < Qabs (SF2Q (f32 1 127)))%Q ∧
  scale (f32 1 127) = S754_infinity false ∧
  SFtrunc (scale (f32 1 127)) = None ∧
  valid_binary 24 128 (f32 65541 0) = true ∧
  (32768 # 32767 < Qabs (SF2Q (f32 65541 0)))%Q ∧
  sample_to_int16 x86_64 (f32 65541 0) = 0 ∧
  wrap16 (Qtrunc (SF2Q (scale (f32 65541 0)))) = -32768.
Proof. repeat split; vm_compute; reflexivity. Qed.

(** *** The bytes of the samples *)

Lemma to_N_byte_of_Z (z : Z) : Z.of_N (Byte.to_N (byte_of_Z z)) = z `mod` 256.
Proof.
  unfold byte_of_Z. pose proof (Z.mod_pos_bound z 256 eq_refl) as Hb.
  destruct (Byte.of_N (Z.to_N (z `mod` 256))) as [b|] eqn:Hof.
  - apply Byte.to_of_N in Hof. cbn [default from_option id]. rewrite Hof. lia.
  - apply Byte.of_N_None_iff in Hof. lia.
Qed.

Lemma int16_of_int16_bytes (z : Z) :
  int16_of_bytes (byte_of_Z z) (byte_of_Z (z / 256)) = narrow16 z.
Proof.
  unfold int16_of_bytes. rewrite !to_N_byte_of_Z, !narrow16_wrap16.
  unfold wrap16. f_equal. Z.div_mod_to_equations. lia.
Qed.

Lemma narrow16_range (z : Z) : -32768 ≤ narrow16 z ≤ 32767.
Proof. rewrite narrow16_wrap16. apply wrap16_range. Qed.

Lemma narrow16_small (z : Z) : -32768 ≤ z ≤ 32767 → narrow16 z = z.
Proof. rewrite narrow16_wrap16. apply wrap16_small. Qed.

(** X1.  The bytes handed to the segment hold the converted samples: read back
    two by two, the low byte first, they give every sample again, in order; a
    number outside the 16-bit range comes back reduced modulo 2^16. *)
Theorem tobytes_round_trip (invalid : spec_float → Z) :
  (∀ a, frombuffer (tobytes a) = narrow16 <$> a) ∧
  (∀ a, Forall (λ z, -32768 ≤ z ≤ 32767) a → frombuffer (tobytes a) = a) ∧
  (∀ audio_data,
     frombuffer (tobytes (sample_to_int16 invalid <$> audio_data)) =
       sample_to_int16 invalid <$> audio_data).
Proof.
  assert (Hall : ∀ a, frombuffer (tobytes a) = narrow16 <$> a).
  { intros a. induction a as [|z a IH]; [done|].
    unfold tobytes in *. rewrite bind_cons. cbn [int16_bytes app frombuffer fmap list_fmap].
    by rewrite int16_of_int16_bytes, IH. }
  assert (Hsmall : ∀ a, Forall (λ z, -32768 ≤ z ≤ 32767) a → narrow16 <$> a = a).
  { intros a Ha. induction Ha as [|z a Hz Ha IH]; [done|].
    rewrite fmap_cons, IH. f_equal. by apply narrow16_small. }
  split; [done|]. split.
  - intros a Ha. by rewrite Hall, Hsmall.
  - intros audio_data. rewrite Hall. apply Hsmall.
    apply Forall_fmap, Forall_forall. intros s _. apply narrow16_range.
Qed.

(** *** The conversion of a sample and of its opposite *)

Lemma binary_round_aux_opp prec emax (s : bool) (m e : Z) (l : location) :
  binary_round_aux prec emax (negb s) m e l =
    SFopp (binary_round_aux prec emax s m e l).
Proof.
  unfold binary_round_aux.
  destruct (shr_fexp prec emax m e l) as [mrs' e'].
  destruct (shr_fexp prec emax _ e' loc_Exact) as [mrs'' e''].
  destruct (shr_m mrs''); [done| |done].
  by destruct (e'' <=? emax - prec).
Qed.

Lemma scale_opp (s : spec_float) :
  is_finite s = true → scale (SFopp s) = SFopp (scale s).
Proof.
  destruct s as [sx|sx| |sx m e]; try done; intros _.
  - by destruct sx.
  - unfold scale, f32_mul, SFmul.
    destruct (f32_of_Z 32767) as [sy|sy| |sy my ey] eqn:Hc; cbn [SFopp].
    + by destruct sx, sy.
    + by destruct sx, sy.
    + done.
    + rewrite <- binary_round_aux_opp. by destruct sx, sy.
Qed.

Lemma SFtrunc_opp (x : spec_float) : SFtrunc (SFopp x) = Z.opp <$> SFtrunc x.
Proof.
  destruct x as [s|s| |s m e]; try done. cbn. f_equal.
  destruct s; cbn; lia.
Qed.

Lemma SF2Q_opp (x : spec_float) : (SF2Q (SFopp x) == - SF2Q x)%Q.
Proof.
  destruct x as [s|s| |s m e]; try done.
  unfold SF2Q, SFopp. destruct e as [|p|p]; destruct s; cbn [negb cond_Zopp];
    unfold Qeq, Qopp; cbn [Qnum Qden]; lia.
Qed.

(** X2.  Truncation toward zero treats the two signs alike: between -1 and 1
    the opposite of a sample is converted to the opposite value, so that the
    range of the converted samples is symmetric and -32768 is never produced. *)
Theorem conversion_is_odd (invalid : spec_float → Z) (s : spec_float) :
  is_finite s = true → (-1 <= SF2Q s <= 1)%Q →
  sample_to_int16 invalid (SFopp s) = - sample_to_int16 invalid s.
Proof.
  intros Hfin Hs.
  assert (Hfin' : is_finite (SFopp s) = true) by (by destruct s).
  assert (Hs' : (-1 <= SF2Q (SFopp s) <= 1)%Q).
  { rewrite SF2Q_opp. destruct Hs as [H1 H2]. split.
    - apply Qopp_le_compat in H2. exact H2.
    - apply Qopp_le_compat in H1. exact H1. }
  destruct (scale_fits s Hfin Hs) as [Hf Hr].
  destruct (scale_fits (SFopp s) Hfin' Hs') as [Hf' Hr'].
  unfold sample_to_int16.
  rewrite (np_int16_fits invalid _ Hf), (np_int16_fits invalid _ Hf').
  rewrite !wrap16_small by lia.
  assert (Hsc : is_finite (scale s) = true).
  { unfold fits_int32 in Hf. by destruct (scale s). }
  assert (Hsc' : is_finite (scale (SFopp s)) = true).
  { unfold fits_int32 in Hf'. by destruct (scale (SFopp s)). }
  pose proof (SFtrunc_Qtrunc _ Hsc) as Ht.
  pose proof (SFtrunc_Qtrunc _ Hsc') as Ht'.
  rewrite scale_opp, SFtrunc_opp, Ht in Ht' by done.
  cbn [fmap option_fmap option_map] in Ht'. rewrite scale_opp by done. congruence.
Qed.

Lemma conversion_is_odd_example :
  sample_to_int16 x86_64 (SFopp (f32 3 (-2))) = - sample_to_int16 x86_64 (f32 3 (-2)).
Proof.
  apply conversion_is_odd.
  - vm_compute. reflexivity.
  - split; vm_compute; discriminate.
Defined.

(** *** Differences and comparisons of doubles *)















End NumericProperties.

(** ** The batch orchestrator *)

Section CleaningProperties.
Import Py Numeric Pydub Cleaning NumericSpec CleaningSpec.

Implicit Types (w : world) (st : state) (e : exn).
Implicit Types (input_dir output_dir root sub : list string).
Implicit Types (filename file_ext : string).

Ltac run_result :=
  cbn [mbind mret result_bind result_ret bind] in *.

Lemma for_files_skip w input_dir output_dir on off file_ext root filename rest st :
  endswith (lower filename) (lower file_ext) = false →
  for_files w input_dir output_dir on off file_ext root (filename :: rest) st =
  for_files w input_dir output_dir on off file_ext root rest st.
Proof. intros Hq. cbn [for_files]. by rewrite Hq. Qed.

Lemma for_files_step w input_dir output_dir on off file_ext root filename rest st :
  endswith (lower filename) (lower file_ext) = true →
  makedirs_error w
    (dirname (output_path_of input_dir output_dir root filename)) = None →
  for_files w input_dir output_dir on off file_ext root (filename :: rest) st =
  for_files w input_dir output_dir on off file_ext root rest
    (try_file w on off (root ++ [filename])
       (output_path_of input_dir output_dir root filename)
       (made (dirname (output_path_of input_dir output_dir root filename)) st)).
Proof.
  intros Hq Hm. cbn [for_files]. rewrite Hq.
  unfold makedirs, output_path_of in *. by rewrite Hm.
Qed.

Lemma for_files_abort w input_dir output_dir on off file_ext root filename rest st e :
  endswith (lower filename) (lower file_ext) = true →
  makedirs_error w
    (dirname (output_path_of input_dir output_dir root filename)) = Some e →
  for_files w input_dir output_dir on off file_ext root (filename :: rest) st =
  (Some e, st).
Proof.
  intros Hq Hm. cbn [for_files]. rewrite Hq.
  unfold makedirs, output_path_of in *. by rewrite Hm.
Qed.

(** No exception leaves the loops while every directory can be made. *)
Lemma for_files_returns w input_dir output_dir on off file_ext root filenames st :
  (∀ d, makedirs_error w d = None) →
  (for_files w input_dir output_dir on off file_ext root filenames st).1 = None.
Proof.
  intros Hm. revert st. induction filenames as [|f fs IH]; intros st; [done|].
  destruct (endswith (lower f) (lower file_ext)) eqn:Hq.
  - rewrite for_files_step by done. apply IH.
  - rewrite for_files_skip by done. apply IH.
Qed.

Lemma for_walk_returns w input_dir output_dir on off file_ext entries st :
  (∀ d, makedirs_error w d = None) →
  (for_walk w input_dir output_dir on off file_ext entries st).1 = None.
Proof.
  intros Hm. revert st.
  induction entries as [|[[root ds] fs] entries IH]; intros st; [done|].
  cbn [for_walk].
  pose proof (for_files_returns w input_dir output_dir on off file_ext root fs st Hm) as Hf.
  destruct (for_files _ _ _ _ _ _ _ _ _) as [[e|] st']; [done|]. apply IH.
Qed.

(** The samples of a file always make a well-formed segment. *)
Lemma length_tobytes (a : list Z) : length (tobytes a) = (2 * length a)%nat.
Proof.
  unfold tobytes. induction a as [|z a IH]; [done|].
  rewrite bind_cons, length_app, IH. cbn. lia.
Qed.

Lemma init_tobytes (a : list Z) sr :
  init (tobytes a) 2 sr 1 =
    Return {| _data := tobytes a; sample_width := 2;
              frame_rate := sr; channels := 1 |}.
Proof.
  unfold init. rewrite length_tobytes.
  rewrite bool_decide_eq_false_2; [done|].
  intros Hne. apply Hne.
  replace (Z.of_nat (2 * length a)) with (Z.of_nat (length a) * (2 * 1)) by lia.
  apply Z.mod_mul. done.
Qed.

(** The stages of the [try] body, one after the other. *)
Lemma try_body_load_raises w on off input_path output_path e :
  librosa_load w input_path = Raise e →
  try_body w on off input_path output_path = Raise e.
Proof. intros H. unfold try_body. by rewrite H. Qed.

Lemma try_body_detect_raises w on off input_path output_path audio_data sr e :
  librosa_load w input_path = Return (audio_data, sr) →
  pipeline w on off input_path = Raise e →
  try_body w on off input_path output_path = Raise e.
Proof.
  intros Hl Hp. unfold try_body. rewrite Hl. run_result.
  rewrite init_tobytes. run_result. by rewrite Hp.
Qed.

Lemma try_body_no_speech w on off input_path output_path audio_data sr :
  librosa_load w input_path = Return (audio_data, sr) →
  pipeline w on off input_path = Return [] →
  try_body w on off input_path output_path = Return None.
Proof.
  intros Hl Hp. unfold try_body. rewrite Hl. run_result.
  rewrite init_tobytes. run_result. by rewrite Hp.
Qed.

Lemma try_body_speech w on off input_path output_path audio_data sr tl :
  librosa_load w input_path = Return (audio_data, sr) →
  pipeline w on off input_path = Return tl →
  tl ≠ [] →
  try_body w on off input_path output_path =
    '(earliest_start, latest_end) ← trim_window tl;
    trimmed_segment ←
      getitem (segment_of w audio_data sr)
        (Float (f64_mul earliest_start (f64_of_Z 1000)))
        (Float (f64_mul latest_end (f64_of_Z 1000)));
    match export_error w output_path with
    | Some e => Raise e
    | None => mret (Some trimmed_segment)
    end.
Proof.
  intros Hl Hp Hne. unfold try_body. rewrite Hl. run_result.
  rewrite init_tobytes. run_result. rewrite Hp. run_result.
  rewrite bool_decide_eq_false_2; [done|]. by destruct tl.
Qed.

(** Paths below the input root. *)
Lemma commonprefix_app (a b : list string) : commonprefix a (a ++ b) = a.
Proof.
  induction a as [|x a IH]; [by destruct b|].
  cbn. rewrite decide_True by done. by rewrite IH.
Qed.

Lemma relpath_below input_dir sub filename :
  relpath (input_dir ++ sub ++ [filename]) input_dir = sub ++ [filename].
Proof.
  unfold relpath. rewrite commonprefix_app, Nat.sub_diag, drop_app_length.
  cbn [replicate app]. rewrite decide_False; [done|]. by destruct sub.
Qed.

Lemma output_path_below input_dir output_dir sub filename :
  output_path_of input_dir output_dir (input_dir ++ sub) filename =
    output_dir ++ sub ++ [filename].
Proof.
  unfold output_path_of. by rewrite <- app_assoc, relpath_below.
Qed.

Lemma dirname_app (d : list string) filename : dirname (d ++ [filename]) = d.
Proof.
  unfold dirname. rewrite length_app. cbn [length].
  replace (length d + 1 - 1)%nat with (length d) by lia.
  by rewrite take_app_length.
Qed.

Lemma ancestors_self (d : list string) : d ∈ ancestors d.
Proof.
  unfold ancestors. apply list_elem_of_fmap. exists (length d). split.
  - by rewrite firstn_all.
  - apply elem_of_seq. lia.
Qed.

(** The handler and the export leave the directories alone, and touch at
    most the file at the output path. *)
Lemma try_file_dirs w on off input_path output_path st :
  dirs (try_file w on off input_path output_path st) = dirs st.
Proof. unfold try_file. by destruct (try_body _ _ _ _ _) as [e|[seg|]]. Qed.

Lemma try_file_other_files w on off input_path output_path st p :
  p ≠ output_path →
  files (try_file w on off input_path output_path st) !! p = files st !! p.
Proof.
  intros Hp. unfold try_file.
  destruct (try_body _ _ _ _ _) as [e|[seg|]]; cbn; [done| |done].
  by apply lookup_insert_ne.
Qed.

(** Python's [l[0]] and [l[-1]] on a list that is not empty. *)
Lemma py_index_first {A} (l : list A) x : head l = Some x → py_index l 0 = Return x.
Proof. destruct l as [|y l]; [done|]. intros [= ->]. unfold py_index. cbn. done. Qed.

Lemma py_index_last {A} (l : list A) x : last l = Some x → py_index l (-1) = Return x.
Proof.
  intros Hl. unfold py_index.
  assert (Hn : (0 < length l)%nat) by (destruct l; [done | cbn; lia]).
  rewrite last_lookup in Hl.
  replace (Z.to_nat (if -1 <? 0 then -1 + Z.of_nat (length l) else -1))
    with (pred (length l)) by (cbn; lia).
  rewrite Hl. destruct (Z.ltb_spec (-1) (- Z.of_nat (length l))); [lia | done].
Qed.

Lemma try_body_slice_raises w on off input_path output_path audio_data sr
    tl first lst e :
  librosa_load w input_path = Return (audio_data, sr) →
  pipeline w on off input_path = Return tl →
  head tl = Some first → last tl = Some lst →
  getitem (segment_of w audio_data sr)
    (Float (f64_mul (start first) (f64_of_Z 1000)))
    (Float (f64_mul (end_ lst) (f64_of_Z 1000))) = Raise e →
  try_body w on off input_path output_path = Raise e.
Proof.
  intros Hl Hp Hh Hla Hg.
  rewrite (try_body_speech _ _ _ _ _ _ _ _ Hl Hp) by (by destruct tl).
  unfold trim_window. rewrite (py_index_first _ _ Hh), (py_index_last _ _ Hla).
  run_result. by rewrite Hg.
Qed.

Lemma try_body_export_raises w on off input_path output_path audio_data sr
    tl first lst trimmed e :
  librosa_load w input_path = Return (audio_data, sr) →
  pipeline w on off input_path = Return tl →
  head tl = Some first → last tl = Some lst →
  getitem (segment_of w audio_data sr)
    (Float (f64_mul (start first) (f64_of_Z 1000)))
    (Float (f64_mul (end_ lst) (f64_of_Z 1000))) = Return trimmed →
  export_error w output_path = Some e →
  try_body w on off input_path output_path = Raise e.
Proof.
  intros Hl Hp Hh Hla Hg He.
  rewrite (try_body_speech _ _ _ _ _ _ _ _ Hl Hp) by (by destruct tl).
  unfold trim_window. rewrite (py_index_first _ _ Hh), (py_index_last _ _ Hla).
  run_result. rewrite Hg. run_result. by rewrite He.
Qed.

Example example_batch :
  let res := trim_with_vad example_world ["in"] ["out"] zero zero ".wav" in
  res.1 = None ∧
  stdout res.2 =
    [ "Error processing /in/b.wav: Error opening 'b.wav': Format not recognised.";
      "No speech found in /in/c.WAV. Skipping.";
      "No speech found in /in/quiet/d.wav. Skipping." ] ∧
  dirs res.2 = {[ []; ["out"]; ["out"; "quiet"] ]} ∧
  dom (files res.2) = {[ ["out"; "a.wav"] ]} ∧
  (length ∘ _data <$> files res.2 : gmap (list string) nat) =
    {[ ["out"; "a.wav"] := 40%nat ]}.
Proof. repeat split; vm_compute; reflexivity. Qed.

(** C2.  The window of a timeline that is not empty starts where its
    first interval starts and ends where its last interval ends, whatever
    lies between the two. *)
Theorem trim_window_first_start_last_end (speech_timeline : list Segment) :
  speech_timeline ≠ [] →
  ∃ first lst,
    head speech_timeline = Some first ∧
    last speech_timeline = Some lst ∧
    trim_window speech_timeline = Return (start first, end_ lst).
Proof.
  intros Hne.
  destruct (head speech_timeline) as [first|] eqn:Hh;
    [|by destruct speech_timeline].
  destruct (last speech_timeline) as [lst|] eqn:Hl;
    [|by apply last_None in Hl].
  exists first, lst. split; [done|]. split; [done|].
  unfold trim_window. rewrite (py_index_first _ _ Hh), (py_index_last _ _ Hl).
  done.
Qed.

Lemma trim_window_first_start_last_end_example :
  ∃ first lst,
    head [ {| start := f64 2 0; end_ := f64 3 0 |};
           {| start := f64 15 (-1); end_ := f64 9 0 |} ] = Some first ∧
    last [ {| start := f64 2 0; end_ := f64 3 0 |};
           {| start := f64 15 (-1); end_ := f64 9 0 |} ] = Some lst ∧
    trim_window [ {| start := f64 2 0; end_ := f64 3 0 |};
                  {| start := f64 15 (-1); end_ := f64 9 0 |} ] =
      Return (start first, end_ lst).
Proof. apply trim_window_first_start_last_end. discriminate. Defined.

(** C3.  A discovered file that decodes and in which the detector finds
    no interval gets the line "No speech found in ... Skipping." on the
    standard output, no file is written for it, and the loop goes on with
    the files that follow. *)
Theorem no_speech_is_skipped w input_dir output_dir on off file_ext root
    filename rest st audio_data sr :
  endswith (lower filename) (lower file_ext) = true →
  makedirs_error w
    (dirname (output_path_of input_dir output_dir root filename)) = None →
  librosa_load w (root ++ [filename]) = Return (audio_data, sr) →
  pipeline w on off (root ++ [filename]) = Return [] →
  ∃ st',
    for_files w input_dir output_dir on off file_ext root (filename :: rest) st =
    for_files w input_dir output_dir on off file_ext root rest st' ∧
    stdout st' =
      stdout st ++
        ["No speech found in " +:+ show_path (root ++ [filename]) +:+ ". Skipping."] ∧
    files st' = files st.
Proof.
  intros Hq Hm Hl Hp. eexists. split.
  - rewrite for_files_step by done. reflexivity.
  - unfold try_file.
    rewrite (try_body_no_speech _ _ _ _ _ _ _ Hl Hp). done.
Qed.

Lemma no_speech_is_skipped_example :
  ∃ st',
    for_files example_world ["in"] ["out"] zero zero ".wav" ["in"; "quiet"]
      ["d.wav"] initial =
    for_files example_world ["in"] ["out"] zero zero ".wav" ["in"; "quiet"]
      [] st' ∧
    stdout st' =
      stdout initial ++
        ["No speech found in " +:+ show_path (["in"; "quiet"] ++ ["d.wav"])
           +:+ ". Skipping."] ∧
    files st' = files initial.
Proof.
  apply (no_speech_is_skipped example_world ["in"] ["out"] zero zero ".wav"
           ["in"; "quiet"] "d.wav" [] initial ramp 16000);
    vm_compute; reflexivity.
Defined.

(** C1, as the code has it.  When the directory of a discovered file can
    be made, an exception raised by any stage inside the [try] (decoding,
    building the segment, detection, the window, slicing, export) is
    caught there: its message is printed after the path of the file, and
    the loop goes on with the files that follow.  No exception then
    leaves the batch as long as every directory can be made. *)
Theorem exceptions_in_try_are_caught w input_dir output_dir on off file_ext
    root filename rest st e :
  endswith (lower filename) (lower file_ext) = true →
  makedirs_error w
    (dirname (output_path_of input_dir output_dir root filename)) = None →
  try_body w on off (root ++ [filename])
    (output_path_of input_dir output_dir root filename) = Raise e →
  (∃ st',
     for_files w input_dir output_dir on off file_ext root (filename :: rest) st =
     for_files w input_dir output_dir on off file_ext root rest st' ∧
     stdout st' =
       stdout st ++
         ["Error processing " +:+ show_path (root ++ [filename]) +:+ ": "
            +:+ exn_msg e] ∧
     files st' = files st) ∧
  ((∀ d, makedirs_error w d = None) →
   from_pretrained w = None →
   (trim_with_vad w input_dir output_dir on off file_ext).1 = None).
Proof.
  intros Hq Hm Hb. split.
  - eexists. split.
    + rewrite for_files_step by done. reflexivity.
    + unfold try_file. rewrite Hb. done.
  - intros Hall Hs. unfold trim_with_vad. rewrite Hs.
    by apply for_walk_returns.
Qed.

Lemma exceptions_in_try_are_caught_example :
  (∃ st',
     for_files example_world ["in"] ["out"] zero zero ".wav" ["in"]
       ("b.wav" :: ["notes.txt"; "c.WAV"]) initial =
     for_files example_world ["in"] ["out"] zero zero ".wav" ["in"]
       ["notes.txt"; "c.WAV"] st' ∧
     stdout st' =
       stdout initial ++
         ["Error processing " +:+ show_path (["in"] ++ ["b.wav"]) +:+ ": "
            +:+ exn_msg (Exn "LibsndfileError"
                           "Error opening 'b.wav': Format not recognised.")] ∧
     files st' = files initial) ∧
  ((∀ d, makedirs_error example_world d = None) →
   from_pretrained example_world = None →
   (trim_with_vad example_world ["in"] ["out"] zero zero ".wav").1 = None).
Proof.
  apply (exceptions_in_try_are_caught example_world ["in"] ["out"] zero zero
           ".wav" ["in"] "b.wav" ["notes.txt"; "c.WAV"] initial);
    vm_compute; reflexivity.
Defined.

(** C1 as stated fails: an exception raised while the directory of the
    first file is being made is not caught.  It leaves [trim_with_vad],
    nothing is printed, and none of the files is processed. *)
Lemma makedirs_exception_aborts_batch :
  trim_with_vad readonly_world ["in"] ["out"] zero zero ".wav" =
    (Some (Exn "PermissionError" "[Errno 13] Permission denied: '/out'"),
     initial).
Proof. vm_compute. reflexivity. Qed.

(** C7, as the code has it.  The output path of a file found below the
    input root is the same relative path below the output root, and the
    directory of that path exists as soon as the file has been visited,
    whatever becomes of the file; nothing but the file at the output path
    is written. *)
Theorem output_mirrors_input w input_dir output_dir on off file_ext root sub
    filename rest st :
  root = input_dir ++ sub →
  endswith (lower filename) (lower file_ext) = true →
  makedirs_error w (output_dir ++ sub) = None →
  output_path_of input_dir output_dir root filename =
    output_dir ++ sub ++ [filename] ∧
  ∃ st',
    for_files w input_dir output_dir on off file_ext root (filename :: rest) st =
    for_files w input_dir output_dir on off file_ext root rest st' ∧
    output_dir ++ sub ∈ dirs st' ∧
    ∀ p, p ≠ output_dir ++ sub ++ [filename] → files st' !! p = files st !! p.
Proof.
  intros -> Hq Hm.
  assert (Hd : dirname (output_path_of input_dir output_dir (input_dir ++ sub) filename)
               = output_dir ++ sub).
  { by rewrite output_path_below, app_assoc, dirname_app. }
  split; [apply output_path_below|].
  eexists. split; [|split].
  - rewrite for_files_step by (by rewrite ?Hd). reflexivity.
  - rewrite try_file_dirs, Hd. unfold made. cbn [dirs].
    apply elem_of_union_l, elem_of_list_to_set, ancestors_self.
  - intros p Hp. rewrite try_file_other_files; [done|].
    by rewrite output_path_below.
Qed.

Lemma output_mirrors_input_example :
  output_path_of ["in"] ["out"] ["in"; "quiet"] "d.wav" =
    ["out"] ++ ["quiet"] ++ ["d.wav"] ∧
  ∃ st',
    for_files example_world ["in"] ["out"] zero zero ".wav" ["in"; "quiet"]
      ["d.wav"] initial =
    for_files example_world ["in"] ["out"] zero zero ".wav" ["in"; "quiet"]
      [] st' ∧
    ["out"] ++ ["quiet"] ∈ dirs st' ∧
    ∀ p, p ≠ ["out"] ++ ["quiet"] ++ ["d.wav"] →
         files st' !! p = files initial !! p.
Proof.
  apply (output_mirrors_input example_world ["in"] ["out"] zero zero ".wav"
           ["in"; "quiet"] ["quiet"] "d.wav" [] initial);
    vm_compute; reflexivity.
Defined.

(** C7 as stated fails: the directory [out/quiet] is made for [d.wav],
    which holds no speech and for which no file is written. *)
Lemma directory_made_without_output :
  let res := for_files example_world ["in"] ["out"] zero zero ".wav"
               ["in"; "quiet"] ["d.wav"] initial in
  res.1 = None ∧ files res.2 = ∅ ∧ ["out"; "quiet"] ∈ dirs res.2.
Proof.
  split; [|split].
  - vm_compute. reflexivity.
  - vm_compute. reflexivity.
  - apply (bool_decide_unpack _). vm_compute. reflexivity.
Qed.

Lemma take_tobytes (k : nat) (a : list Z) :
  take (2 * k) (tobytes a) = tobytes (take k a).
Proof.
  revert a. induction k as [|k IH]; intros a; [done|].
  destruct a as [|z a]; [done|].
  replace (2 * S k)%nat with (S (S (2 * k))) by lia.
  unfold tobytes in *. rewrite bind_cons. cbn [int16_bytes app take].
  rewrite IH. by rewrite bind_cons.
Qed.

Lemma drop_tobytes (k : nat) (a : list Z) :
  drop (2 * k) (tobytes a) = tobytes (drop k a).
Proof.
  revert a. induction k as [|k IH]; intros a; [done|].
  destruct a as [|z a]; [done|].
  replace (2 * S k)%nat with (S (S (2 * k))) by lia.
  unfold tobytes in *. rewrite bind_cons. cbn [int16_bytes app drop].
  by rewrite IH.
Qed.

Lemma py_slice_tobytes (a : list Z) (so eo : Z) :
  0 ≤ so ≤ eo → eo ≤ Z.of_nat (length a) →
  py_slice (tobytes a) (so * 2) (eo * 2) = tobytes (frames_between so eo a).
Proof.
  intros Hso Heo. unfold py_slice, clip_index, frames_between.
  rewrite length_tobytes.
  destruct (Z.ltb_spec (so * 2) 0); [lia|].
  destruct (Z.ltb_spec (eo * 2) 0); [lia|].
  replace (Z.to_nat (Z.of_nat (2 * length a) `min` (so * 2)))
    with (2 * Z.to_nat so)%nat by lia.
  replace (Z.to_nat (Z.of_nat (2 * length a) `min` (eo * 2)))
    with (2 * Z.to_nat eo)%nat by lia.
  rewrite take_tobytes, drop_tobytes. f_equal.
  rewrite take_drop_commute. f_equal. f_equal. lia.
Qed.

Lemma py_slice_same {A} (l : list A) (a : Z) : py_slice l a a = [].
Proof. unfold py_slice. apply drop_ge. rewrite length_take. lia. Qed.

(** A position that has been capped at the length is never [+inf]. *)
Lemma py_min_not_inf (v : num) (n : Z) :
  num_eqb (py_min v (Int n)) (Float (S754_infinity false)) = false.
Proof.
  unfold py_min. destruct (num_ltb (Int n) v) eqn:Hlt; [done|].
  by destruct v as [z|[s|[|]| |s m e]].
Qed.

Lemma parse_position_nonneg seg (v : num) (n : Z) :
  num_ltb (py_min v (Int n)) (Int 0) = false →
  _parse_position seg (py_min v (Int n)) =
    py_int (frame_count_ms seg (py_min v (Int n))).
Proof.
  intros Hpos. unfold _parse_position. rewrite Hpos. run_result.
  rewrite py_min_not_inf. by run_result.
Qed.

(** A slice from a position to that same position holds no frames. *)
Lemma getitem_same_bounds seg (v : num) seg' :
  getitem seg v v = Return seg' → _data seg' = [].
Proof.
  unfold getitem. destruct (len seg) as [e|n]; [done|]. run_result.
  destruct (_parse_position seg (py_min v (Int n))) as [e|so]; [done|].
  run_result. rewrite py_slice_same. cbn [length].
  replace ((so * frame_width seg - so * frame_width seg - Z.of_nat 0)
             `div` frame_width seg) with 0.
  2:{ replace (so * frame_width seg - so * frame_width seg - Z.of_nat 0)
        with 0 by lia. by rewrite Zdiv_0_l. }
  rewrite bool_decide_eq_false_2 by (intros Hne; by apply Hne).
  by intros [= <-].
Qed.

Lemma py_int_trunc (x : spec_float) (z : Z) :
  SFtrunc x = Some z → py_int x = Return z.
Proof. destruct x; try done; cbn; by intros [= ->]. Qed.

(** C5, as the code has it.  A boundary time [t] is turned into
    milliseconds, capped at the length of the segment in whole
    milliseconds, and goes to the frame offset
    [int(ms * (frame_rate / 1000.0))], the product with its fraction
    dropped; when the two offsets are in order and inside the buffer, the
    slice is the contiguous range of frames from the first offset up to the
    second. *)
Theorem slice_truncates_offsets (a : list Z) (sr : Z)
    (earliest_start latest_end : spec_float) (n so eo : Z) :
  let seg := {| _data := tobytes a; sample_width := 2;
                frame_rate := sr; channels := 1 |} in
  let start_ms := py_min (Float (f64_mul earliest_start (f64_of_Z 1000))) (Int n) in
  let end_ms := py_min (Float (f64_mul latest_end (f64_of_Z 1000))) (Int n) in
  let per_ms := f64_div (f64_of_Z sr) (f64_of_Z 1000) in
  len seg = Return n →
  num_ltb start_ms (Int 0) = false →
  num_ltb end_ms (Int 0) = false →
  SFtrunc (f64_mul (to_float start_ms) per_ms) = Some so →
  SFtrunc (f64_mul (to_float end_ms) per_ms) = Some eo →
  0 ≤ so ≤ eo → eo ≤ Z.of_nat (length a) →
  getitem seg (Float (f64_mul earliest_start (f64_of_Z 1000)))
              (Float (f64_mul latest_end (f64_of_Z 1000))) =
    Return (_spawn seg (tobytes (frames_between so eo a))).
Proof.
  intros seg start_ms end_ms per_ms Hn Hs He Hso Heo Hord Hin.
  subst start_ms end_ms per_ms.
  unfold getitem. rewrite Hn. run_result.
  rewrite (parse_position_nonneg seg _ n Hs), (parse_position_nonneg seg _ n He).
  unfold frame_count_ms. change (frame_rate seg) with sr.
  rewrite (py_int_trunc _ _ Hso), (py_int_trunc _ _ Heo). run_result.
  change (frame_width seg) with 2. change (_data seg) with (tobytes a).
  rewrite py_slice_tobytes by done.
  rewrite length_tobytes.
  assert (Hlen : length (frames_between so eo a) = Z.to_nat (eo - so)).
  { unfold frames_between. rewrite length_take, length_drop. lia. }
  rewrite Hlen.
  replace ((eo * 2 - so * 2 - Z.of_nat (2 * Z.to_nat (eo - so))) `div` 2)
    with 0 by (replace (eo * 2 - so * 2 - Z.of_nat (2 * Z.to_nat (eo - so)))
                 with 0 by lia; done).
  rewrite bool_decide_eq_false_2 by (intros Hne; by apply Hne). done.
Qed.

Lemma slice_truncates_offsets_example :
  getitem count_up_segment
    (Float (f64_mul (f64 3 (-9)) (f64_of_Z 1000)))
    (Float (f64_mul (f64 1 (-7)) (f64_of_Z 1000))) =
  Return (_spawn count_up_segment (tobytes (frames_between 93 125 count_up))).
Proof.
  apply (slice_truncates_offsets count_up 16000 (f64 3 (-9)) (f64 1 (-7)) 12 93 125);
    vm_compute; try reflexivity; try (split; discriminate); discriminate.
Defined.

(** C5 as stated fails: at 16 kHz the time 3/512 s lies 93.75 frames into
    the recording, which rounds to 94, and the slice starts at frame 93. *)
Lemma slice_offset_is_not_rounded :
  rounded_offset (f64 3 (-9)) 16000 = Some 94 ∧
  rounded_offset (f64 1 (-7)) 16000 = Some 125 ∧
  getitem count_up_segment
    (Float (f64_mul (f64 3 (-9)) (f64_of_Z 1000)))
    (Float (f64_mul (f64 1 (-7)) (f64_of_Z 1000))) =
  Return (_spawn count_up_segment (tobytes (frames_between 93 125 count_up))) ∧
  frames_between 93 125 count_up ≠ frames_between 94 125 count_up.
Proof.
  repeat split; try (vm_compute; reflexivity).
  intros Heq. apply (f_equal length) in Heq. vm_compute in Heq. discriminate.
Qed.

(** *** Timelines *)

(** [SEGMENT_PRECISION] is what [1 / 1000000] gives, the double nearest to
    a millionth. *)
Example SEGMENT_PRECISION_value :
  SEGMENT_PRECISION = f64_div (f64_of_Z 1) (f64_of_Z 1000000) ∧
  valid_binary 53 1024 SEGMENT_PRECISION = true ∧
  (Qabs (SF2Q SEGMENT_PRECISION - (1 # 1000000)) <= 1 # 2 ^ 73)%Q.
Proof. repeat split; vm_compute; (reflexivity || discriminate). Qed.

(** A timeline leaves out the segments that are empty, the one of
    [2^-20] s among them, holds equal segments once, and is in increasing
    order of start, then of end. *)
Example Timeline_example :
  Timeline [ {| start := f64 3 0; end_ := f64 4 0 |};
             {| start := f64 1 0; end_ := f64 2 0 |};
             {| start := f64 5 0; end_ := f64 5 0 |};
             {| start := f64 1 0; end_ := f64 1048577 (-20) |};
             {| start := f64 3 0; end_ := f64 4 0 |};
             {| start := f64 1 0; end_ := f64 524289 (-19) |} ] =
    [ {| start := f64 1 0; end_ := f64 524289 (-19) |};
      {| start := f64 1 0; end_ := f64 2 0 |};
      {| start := f64 3 0; end_ := f64 4 0 |} ].
Proof. vm_compute. reflexivity. Qed.






















(** *** The batch as a whole *)

Lemma elem_of_discovered_files w input_dir file_ext root filename :
  (root, filename) ∈ discovered_files w input_dir file_ext ↔
  ∃ ds fs, (root, ds, fs) ∈ os_walk w input_dir ∧ filename ∈ fs ∧
           endswith (lower filename) (lower file_ext) = true.
Proof.
  unfold discovered_files. rewrite list_elem_of_bind. split.
  - intros ([[root' ds] fs] & Hin & Hw).
    apply list_elem_of_fmap in Hin as (f & [= -> ->] & Hf).
    apply list_elem_of_filter in Hf as [Hq Hf]. eauto.
  - intros (ds & fs & Hw & Hf & Hq). exists (root, ds, fs). split; [|done].
    apply list_elem_of_fmap. exists filename. split; [done|].
    by apply list_elem_of_filter.
Qed.

(** A property of the state that every visit of a file keeps is kept by
    the loops, whether they run to their end or are left by an
    exception. *)
Lemma for_files_invariant (I : state → Prop) w input_dir output_dir on off
    file_ext root filenames st :
  (∀ filename st,
     filename ∈ filenames →
     endswith (lower filename) (lower file_ext) = true →
     I st →
     I (try_file w on off (root ++ [filename])
          (output_path_of input_dir output_dir root filename)
          (made (dirname (output_path_of input_dir output_dir root filename)) st))) →
  I st →
  I (for_files w input_dir output_dir on off file_ext root filenames st).2.
Proof.
  intros Hstep. revert st. induction filenames as [|f fs IH]; intros st HI; [done|].
  destruct (endswith (lower f) (lower file_ext)) eqn:Hq.
  - destruct (makedirs_error w
      (dirname (output_path_of input_dir output_dir root f))) as [e|] eqn:Hm.
    + by rewrite (for_files_abort _ _ _ _ _ _ _ _ _ _ e).
    + rewrite for_files_step by done. apply IH.
      * intros f' st' Hf'. apply Hstep. by right.
      * apply Hstep; [left|done|done].
  - rewrite for_files_skip by done. apply IH; [|done].
    intros f' st' Hf'. apply Hstep. by right.
Qed.

Lemma for_walk_invariant (I : state → Prop) w input_dir output_dir on off
    file_ext entries st :
  (∀ root ds filenames filename st,
     (root, ds, filenames) ∈ entries →
     filename ∈ filenames →
     endswith (lower filename) (lower file_ext) = true →
     I st →
     I (try_file w on off (root ++ [filename])
          (output_path_of input_dir output_dir root filename)
          (made (dirname (output_path_of input_dir output_dir root filename)) st))) →
  I st →
  I (for_walk w input_dir output_dir on off file_ext entries st).2.
Proof.
  intros Hstep. revert st.
  induction entries as [|[[root ds] fs] entries IH]; intros st HI; [done|].
  cbn [for_walk].
  assert (Hf : I (for_files w input_dir output_dir on off file_ext root fs st).2).
  { apply for_files_invariant; [|done].
    intros f st' Hin. apply (Hstep root ds fs); [left | done]. }
  destruct (for_files _ _ _ _ _ _ _ _ _) as [[e|] st']; [done|].
  apply IH; [|done]. intros root' ds' fs' f st'' Hin.
  apply (Hstep root' ds' fs'). by right.
Qed.


Lemma grows_refl st : grows st st.
Proof. done. Qed.

Lemma grows_trans st1 st2 st3 : grows st1 st2 → grows st2 st3 → grows st1 st3.
Proof.
  intros (Hd & Hf & Ho) (Hd' & Hf' & Ho'). split; [|split].
  - by etrans.
  - intros p Hp. by apply Hf', Hf.
  - intros l Hl. by apply Ho', Ho.
Qed.

Lemma visit_grows w on off input_path output_path d st :
  grows st (try_file w on off input_path output_path (made d st)).
Proof.
  split; [|split].
  - rewrite try_file_dirs. unfold made. cbn [dirs]. apply union_subseteq_r.
  - intros p Hp. unfold try_file.
    destruct (try_body _ _ _ _ _) as [e|[seg|]]; cbn; [done| |done].
    destruct (decide (output_path = p)) as [->|Hne].
    + by rewrite lookup_insert_eq.
    + by rewrite lookup_insert_ne.
  - intros l Hl. unfold try_file.
    destruct (try_body _ _ _ _ _) as [e|[seg|]]; cbn; [|done|];
      apply elem_of_app; by left.
Qed.

Lemma for_files_grows w input_dir output_dir on off file_ext root filenames st :
  grows st (for_files w input_dir output_dir on off file_ext root filenames st).2.
Proof.
  apply (for_files_invariant (grows st)); [|apply grows_refl].
  intros f st' _ _ Hg. eapply grows_trans; [done | apply visit_grows].
Qed.

Lemma for_walk_grows w input_dir output_dir on off file_ext entries st :
  grows st (for_walk w input_dir output_dir on off file_ext entries st).2.
Proof.
  apply (for_walk_invariant (grows st)); [|apply grows_refl].
  intros root ds fs f st' _ _ _ Hg. eapply grows_trans; [done | apply visit_grows].
Qed.

Lemma accounted_grows w on off input_dir output_dir root filename st st' :
  grows st st' →
  accounted w on off input_dir output_dir root filename st →
  accounted w on off input_dir output_dir root filename st'.
Proof.
  intros (Hd & Hf & Ho) [Hdir Hcase]. split; [by apply Hd|].
  destruct Hcase as [(seg & Hb & Hs) | [[Hb Hl] | (e & Hb & Hl)]].
  - left. exists seg. split; [done | by apply Hf].
  - right. left. split; [done | by apply Ho].
  - right. right. exists e. split; [done | by apply Ho].
Qed.

Lemma visit_accounts w on off input_dir output_dir root filename st :
  accounted w on off input_dir output_dir root filename
    (try_file w on off (root ++ [filename])
       (output_path_of input_dir output_dir root filename)
       (made (dirname (output_path_of input_dir output_dir root filename)) st)).
Proof.
  split.
  - rewrite try_file_dirs. unfold made. cbn [dirs].
    apply elem_of_union_l, elem_of_list_to_set, ancestors_self.
  - unfold try_file.
    destruct (try_body _ _ _ _ _) as [e|[seg|]] eqn:Hb.
    + right. right. exists e. split; [done|]. cbn. apply elem_of_app. right. left.
    + left. exists seg. split; [done|]. cbn. by rewrite lookup_insert_eq.
    + right. left. split; [done|]. cbn. apply elem_of_app. right. left.
Qed.

Lemma for_files_accounts w input_dir output_dir on off file_ext root filenames st :
  (for_files w input_dir output_dir on off file_ext root filenames st).1 = None →
  ∀ filename,
    filename ∈ filenames →
    endswith (lower filename) (lower file_ext) = true →
    accounted w on off input_dir output_dir root filename
      (for_files w input_dir output_dir on off file_ext root filenames st).2.
Proof.
  revert st. induction filenames as [|f fs IH]; intros st Hnone filename Hin Hq.
  { by apply elem_of_nil in Hin. }
  destruct (endswith (lower f) (lower file_ext)) eqn:Hqf.
  - destruct (makedirs_error w
      (dirname (output_path_of input_dir output_dir root f))) as [e|] eqn:Hm.
    { by rewrite (for_files_abort _ _ _ _ _ _ _ _ _ _ e) in Hnone. }
    rewrite for_files_step in Hnone |- * by done.
    apply elem_of_cons in Hin as [-> | Hin]; [|by apply IH].
    eapply accounted_grows; [apply for_files_grows | apply visit_accounts].
  - rewrite for_files_skip in Hnone |- * by done.
    apply elem_of_cons in Hin as [-> | Hin]; [congruence | by apply IH].
Qed.

Lemma for_walk_accounts w input_dir output_dir on off file_ext entries st :
  (for_walk w input_dir output_dir on off file_ext entries st).1 = None →
  ∀ root ds filenames filename,
    (root, ds, filenames) ∈ entries →
    filename ∈ filenames →
    endswith (lower filename) (lower file_ext) = true →
    accounted w on off input_dir output_dir root filename
      (for_walk w input_dir output_dir on off file_ext entries st).2.
Proof.
  revert st. induction entries as [|[[root0 ds0] fs0] entries IH];
    intros st Hnone root ds fs f Hin Hf Hq.
  { by apply elem_of_nil in Hin. }
  cbn [for_walk] in Hnone |- *.
  pose proof (for_files_accounts w input_dir output_dir on off file_ext root0 fs0 st)
    as Hacc.
  destruct (for_files w input_dir output_dir on off file_ext root0 fs0 st)
    as [[e|] st1]; [done|].
  apply elem_of_cons in Hin as [[= -> -> ->] | Hin].
  - eapply accounted_grows; [apply for_walk_grows | by apply Hacc].
  - by apply (IH st1 Hnone root ds fs).
Qed.

(** X3.  Every discovered file is accounted for when the batch returns: its
    directory exists, and either the clip the [try] body returned lies at its
    mirrored path, or the line that reports the skip or the error has been
    printed. *)
Theorem no_file_is_lost_silently w input_dir output_dir on off file_ext
    root filename :
  (trim_with_vad w input_dir output_dir on off file_ext).1 = None →
  (root, filename) ∈ discovered_files w input_dir file_ext →
  accounted w on off input_dir output_dir root filename
    (trim_with_vad w input_dir output_dir on off file_ext).2.
Proof.
  unfold trim_with_vad. destruct (from_pretrained w); [done|].
  intros Hnone Hin. apply elem_of_discovered_files in Hin as (ds & fs & Hw & Hf & Hq).
  by apply (for_walk_accounts _ _ _ _ _ _ _ _ Hnone root ds fs).
Qed.

Lemma no_file_is_lost_silently_example :
  accounted example_world zero zero ["in"] ["out"] ["in"] "b.wav"
    (trim_with_vad example_world ["in"] ["out"] zero zero ".wav").2.
Proof.
  apply no_file_is_lost_silently.
  - vm_compute. reflexivity.
  - apply (bool_decide_unpack _). vm_compute. reflexivity.
Defined.






Lemma visit_stdout w on off input_dir output_dir root filename d st :
  stdout (try_file w on off (root ++ [filename])
            (output_path_of input_dir output_dir root filename) (made d st)) =
  stdout st ++ option_list (report w on off input_dir output_dir (root, filename)).
Proof.
  unfold try_file, report. cbn [fst snd].
  destruct (try_body _ _ _ _ _) as [e|[seg|]]; cbn; by rewrite ?app_nil_r.
Qed.

Lemma omap_cons_list {A B} (g : A → option B) (x : A) (l : list A) :
  omap g (x :: l) = option_list (g x) ++ omap g l.
Proof. cbn. by destruct (g x). Qed.

Lemma for_files_stdout w input_dir output_dir on off file_ext root filenames st :
  ∃ l,
    stdout (for_files w input_dir output_dir on off file_ext root filenames st).2 =
      stdout st ++ l ∧
    l `prefix_of`
      omap (report w on off input_dir output_dir)
        ((λ filename, (root, filename)) <$>
           filter (λ filename, endswith (lower filename) (lower file_ext) = true)
             filenames) ∧
    ((for_files w input_dir output_dir on off file_ext root filenames st).1 = None →
     l = omap (report w on off input_dir output_dir)
           ((λ filename, (root, filename)) <$>
              filter (λ filename, endswith (lower filename) (lower file_ext) = true)
                filenames)).
Proof.
  revert st. induction filenames as [|f fs IH]; intros st.
  { exists []. by rewrite app_nil_r. }
  destruct (endswith (lower f) (lower file_ext)) eqn:Hq.
  - rewrite filter_cons_True by done. rewrite fmap_cons, omap_cons_list.
    destruct (makedirs_error w
      (dirname (output_path_of input_dir output_dir root f))) as [e|] eqn:Hm.
    + rewrite (for_files_abort _ _ _ _ _ _ _ _ _ _ e) by done.
      exists []. rewrite app_nil_r. split; [done|]. split; [apply prefix_nil | done].
    + rewrite for_files_step by done.
      destruct (IH (try_file w on off (root ++ [f])
                      (output_path_of input_dir output_dir root f)
                      (made (dirname (output_path_of input_dir output_dir root f)) st)))
        as (l & Hl & Hp & Hn).
      rewrite visit_stdout, <- app_assoc in Hl.
      exists (option_list (report w on off input_dir output_dir (root, f)) ++ l).
      split; [done|]. split; [by apply prefix_app|].
      intros Hnone. f_equal. by apply Hn.
  - rewrite filter_cons_False by (by rewrite Hq). rewrite for_files_skip by done.
    apply IH.
Qed.

Lemma for_walk_stdout w input_dir output_dir on off file_ext entries st :
  let lines :=
    omap (report w on off input_dir output_dir)
      ('(root, _, filenames) ← entries;
       (λ filename, (root, filename)) <$>
         filter (λ filename, endswith (lower filename) (lower file_ext) = true)
           filenames) in
  ∃ l,
    stdout (for_walk w input_dir output_dir on off file_ext entries st).2 =
      stdout st ++ l ∧
    l `prefix_of` lines ∧
    ((for_walk w input_dir output_dir on off file_ext entries st).1 = None →
     l = lines).
Proof.
  revert st. induction entries as [|[[root ds] fs] entries IH]; intros st lines.
  { exists []. by rewrite app_nil_r. }
  subst lines. rewrite bind_cons, omap_app. cbn [for_walk].
  destruct (for_files_stdout w input_dir output_dir on off file_ext root fs st)
    as (l1 & Hl1 & Hp1 & Hn1).
  destruct (for_files w input_dir output_dir on off file_ext root fs st)
    as [[e|] st1]; cbn [fst snd] in *.
  - exists l1. split; [done|]. split; [by apply prefix_app_r | done].
  - destruct (IH st1) as (l2 & Hl2 & Hp2 & Hn2).
    exists (l1 ++ l2). rewrite Hl2, Hl1, <- app_assoc. split; [done|].
    rewrite (Hn1 eq_refl). split; [by apply prefix_app|].
    intros Hnone. f_equal. by apply Hn2.
Qed.

(** X6.  The standard output holds one line for every discovered file that
    yields no clip, in the order of the walk, and nothing else: the skip line
    of a file without speech, the error line of a file whose [try] body
    raised. When an exception ends the batch early, the lines printed so far
    are the first of those lines. *)
Theorem printed_lines_follow_the_walk w input_dir output_dir on off file_ext :
  let res := trim_with_vad w input_dir output_dir on off file_ext in
  let lines :=
    omap (report w on off input_dir output_dir)
      (discovered_files w input_dir file_ext) in
  stdout res.2 `prefix_of` lines ∧
  (res.1 = None → stdout res.2 = lines).
Proof.
  intros res lines. subst res lines. unfold trim_with_vad, discovered_files.
  destruct (from_pretrained w).
  { split; [apply prefix_nil | done]. }
  destruct (for_walk_stdout w input_dir output_dir on off file_ext
              (os_walk w input_dir) initial) as (l & Hl & Hp & Hn).
  cbn [initial stdout app] in Hl. rewrite Hl. done.
Qed.

Lemma for_walk_app w input_dir output_dir on off file_ext es1 es2 st :
  for_walk w input_dir output_dir on off file_ext (es1 ++ es2) st =
    match for_walk w input_dir output_dir on off file_ext es1 st with
    | (Some e, st') => (Some e, st')
    | (None, st') => for_walk w input_dir output_dir on off file_ext es2 st'
    end.
Proof.
  revert st. induction es1 as [|[[root ds] fs] es1 IH]; intros st; [done|].
  rewrite <- app_comm_cons. cbn [for_walk].
  destruct (for_files w _ _ _ _ _ _ _ _) as [[e|] st']; [done|]. apply IH.
Qed.

(** The files of one directory share their output directory: when it
    cannot be made, the first of them that carries the extension ends the
    loop. *)
Lemma for_files_locked w input_dir output_dir on off file_ext sub filenames
    filename st e :
  filename ∈ filenames →
  endswith (lower filename) (lower file_ext) = true →
  makedirs_error w (output_dir ++ sub) = Some e →
  for_files w input_dir output_dir on off file_ext (input_dir ++ sub) filenames st =
    (Some e, st).
Proof.
  intros Hin Hq Hm. induction filenames as [|f fs IH].
  { by apply elem_of_nil in Hin. }
  destruct (endswith (lower f) (lower file_ext)) eqn:Hqf.
  - apply for_files_abort; [done|].
    by rewrite output_path_below, app_assoc, dirname_app.
  - rewrite for_files_skip by done.
    apply elem_of_cons in Hin as [-> | Hin]; [congruence | by apply IH].
Qed.

(** X8.  The batch is not all-or-nothing. When [os.makedirs] raises for the
    output directory of a directory of the walk that holds a file with the
    extension, the exception leaves [trim_with_vad] there: what the
    directories before it produced stays as it is, and neither its files nor
    the directories after it are processed. *)
Theorem batch_stops_at_first_makedirs_failure w input_dir output_dir on off
    file_ext before sub ds filenames filename after st e :
  (for_walk w input_dir output_dir on off file_ext before st).1 = None →
  filename ∈ filenames →
  endswith (lower filename) (lower file_ext) = true →
  makedirs_error w (output_dir ++ sub) = Some e →
  for_walk w input_dir output_dir on off file_ext
    (before ++ (input_dir ++ sub, ds, filenames) :: after) st =
  (Some e, (for_walk w input_dir output_dir on off file_ext before st).2).
Proof.
  intros Hb Hin Hq Hm. rewrite for_walk_app.
  destruct (for_walk w input_dir output_dir on off file_ext before st)
    as [[e'|] st']; [done|].
  cbn [for_walk snd].
  by rewrite (for_files_locked _ _ _ _ _ _ _ _ filename _ e).
Qed.

Lemma batch_stops_at_first_makedirs_failure_example :
  for_walk locked_world ["in"] ["out"] zero zero ".wav"
    ([ (["in"], ["quiet"], ["a.wav"; "b.wav"; "notes.txt"; "c.WAV"]) ] ++
     (["in"] ++ ["quiet"], [], ["d.wav"]) :: []) initial =
  (Some (Exn "PermissionError" "[Errno 13] Permission denied: '/out/quiet'"),
   (for_walk locked_world ["in"] ["out"] zero zero ".wav"
      [ (["in"], ["quiet"], ["a.wav"; "b.wav"; "notes.txt"; "c.WAV"]) ]
      initial).2).
Proof.
  apply (batch_stops_at_first_makedirs_failure locked_world ["in"] ["out"] zero
           zero ".wav" _ ["quiet"] [] ["d.wav"] "d.wav").
  - vm_compute. reflexivity.
  - apply (bool_decide_unpack _). vm_compute. reflexivity.
  - vm_compute. reflexivity.
  - vm_compute. reflexivity.
Defined.

(** *** What a clip holds *)

(** X9.  Inside the [try] only four calls can raise: [librosa.load], the
    detector, the slicing of the segment and the export. Building the segment
    of the converted samples and taking the first and the last interval of a
    timeline that is not empty never do. *)
Theorem only_four_calls_raise_in_try w on off input_path output_path e :
  try_body w on off input_path output_path = Raise e →
  librosa_load w input_path = Raise e ∨
  ∃ audio_data sr,
    librosa_load w input_path = Return (audio_data, sr) ∧
    (pipeline w on off input_path = Raise e ∨
     ∃ speech_timeline first lst,
       pipeline w on off input_path = Return speech_timeline ∧
       head speech_timeline = Some first ∧
       last speech_timeline = Some lst ∧
       (getitem (segment_of w audio_data sr)
          (Float (f64_mul (start first) (f64_of_Z 1000)))
          (Float (f64_mul (end_ lst) (f64_of_Z 1000))) = Raise e ∨
        (∃ trimmed,
           getitem (segment_of w audio_data sr)
             (Float (f64_mul (start first) (f64_of_Z 1000)))
             (Float (f64_mul (end_ lst) (f64_of_Z 1000))) = Return trimmed) ∧
        export_error w output_path = Some e)).
Proof.
  intros Hb. unfold try_body in Hb.
  destruct (librosa_load w input_path) as [e'|[audio_data sr]].
  { injection Hb as ->. by left. }
  right. exists audio_data, sr. split; [done|].
  run_result. rewrite init_tobytes in Hb. run_result.
  destruct (pipeline w on off input_path) as [e'|tl].
  { injection Hb as ->. by left. }
  right. run_result. case_bool_decide as Hlen; [done|].
  destruct (head tl) as [first|] eqn:Hh; [|by destruct tl].
  destruct (last tl) as [lst|] eqn:Hl; [|by apply last_None in Hl; subst tl].
  exists tl, first, lst. do 3 (split; [done|]).
  unfold trim_window in Hb.
  rewrite (py_index_first _ _ Hh), (py_index_last _ _ Hl) in Hb.
  run_result. fold (segment_of w audio_data sr) in Hb.
  destruct (getitem _ _ _) as [e'|trimmed].
  { injection Hb as ->. by left. }
  run_result. destruct (export_error w output_path) as [e'|]; [|done].
  injection Hb as ->. right. eauto.
Qed.

Lemma only_four_calls_raise_in_try_example :
  librosa_load example_world ["in"; "b.wav"] =
    Raise (Exn "LibsndfileError" "Error opening 'b.wav': Format not recognised.") ∨
  ∃ audio_data sr,
    librosa_load example_world ["in"; "b.wav"] = Return (audio_data, sr) ∧
    (pipeline example_world zero zero ["in"; "b.wav"] =
       Raise (Exn "LibsndfileError" "Error opening 'b.wav': Format not recognised.") ∨
     ∃ speech_timeline first lst,
       pipeline example_world zero zero ["in"; "b.wav"] = Return speech_timeline ∧
       head speech_timeline = Some first ∧
       last speech_timeline = Some lst ∧
       (getitem (segment_of example_world audio_data sr)
          (Float (f64_mul (start first) (f64_of_Z 1000)))
          (Float (f64_mul (end_ lst) (f64_of_Z 1000))) =
          Raise (Exn "LibsndfileError"
                   "Error opening 'b.wav': Format not recognised.") ∨
        (∃ trimmed,
           getitem (segment_of example_world audio_data sr)
             (Float (f64_mul (start first) (f64_of_Z 1000)))
             (Float (f64_mul (end_ lst) (f64_of_Z 1000))) = Return trimmed) ∧
        export_error example_world ["out"; "b.wav"] =
          Some (Exn "LibsndfileError"
                  "Error opening 'b.wav': Format not recognised."))).
Proof.
  apply (only_four_calls_raise_in_try example_world zero zero ["in"; "b.wav"]
           ["out"; "b.wav"]).
  vm_compute. reflexivity.
Defined.

(** A slice of the bytes at frame boundaries is the bytes of a slice of the
    samples, whatever the bounds. *)
Lemma clip_index_double (n i : Z) :
  0 ≤ n → clip_index (2 * n) (i * 2) = (2 * clip_index n i)%nat.
Proof.
  intros Hn. unfold clip_index.
  destruct (Z.ltb_spec (i * 2) 0), (Z.ltb_spec i 0); lia.
Qed.

Lemma py_slice_tobytes_frames (a : list Z) (so eo : Z) :
  py_slice (tobytes a) (so * 2) (eo * 2) = tobytes (py_slice a so eo).
Proof.
  unfold py_slice. rewrite length_tobytes.
  replace (Z.of_nat (2 * length a)) with (2 * Z.of_nat (length a)) by lia.
  rewrite !clip_index_double by lia.
  by rewrite take_tobytes, drop_tobytes.
Qed.

Lemma tobytes_app (a b : list Z) : tobytes (a ++ b) = tobytes a ++ tobytes b.
Proof. unfold tobytes. apply bind_app. Qed.

Lemma repeat_bytes_silence (n : Z) :
  repeat_bytes (int16_bytes 0) n = tobytes (replicate (Z.to_nat n) 0).
Proof.
  unfold repeat_bytes. induction (Z.to_nat n) as [|k IH]; [done|].
  change (mjoin (replicate (S k) (int16_bytes 0)))
    with (int16_bytes 0 ++ mjoin (replicate k (int16_bytes 0))).
  rewrite IH. done.
Qed.

Lemma repeat_bytes_nil (n : Z) : repeat_bytes [] n = [].
Proof. unfold repeat_bytes. by induction (Z.to_nat n). Qed.

(** The silence pydub appends to a slice that came out short: the first
    frame of the slice with its sample set to zero, or nothing when the
    slice is empty. *)
Lemma silence_of_first_frame (a : list Z) :
  silence_of (py_slice (tobytes a) 0 2) =
    match a with [] => [] | _ => int16_bytes 0 end.
Proof.
  change 0 with (0 * 2) at 1. change 2 with (1 * 2) at 2.
  rewrite py_slice_tobytes_frames. destruct a as [|z a]; [done|].
  unfold py_slice, clip_index. cbn [length].
  replace (Z.to_nat (Z.of_nat (S (length a)) `min` (if 1 <? 0 then _ else 1)))
    with 1%nat by (cbn; lia).
  replace (Z.to_nat (Z.of_nat (S (length a)) `min` (if 0 <? 0 then _ else 0)))
    with 0%nat by (cbn; lia).
  done.
Qed.

(** [seg[start:end]] on the segment of a file: a run of its samples, and
    the zeros pydub appends when the run came out short. *)
Lemma getitem_samples (a : list Z) (sr : Z) (v1 v2 : num) seg' :
  getitem {| _data := tobytes a; sample_width := 2;
             frame_rate := sr; channels := 1 |} v1 v2 = Return seg' →
  ∃ i j n : nat,
    seg' = {| _data := tobytes (drop i (take j a) ++ replicate n 0);
              sample_width := 2; frame_rate := sr; channels := 1 |} ∧
    (n = 0%nat ∨
     num_ltb (Float (f64_mul (f64_of_Z 2)
                       (f64_div (f64_of_Z sr) (f64_of_Z 1000))))
             (Int (Z.of_nat n)) = false).
Proof.
  set (seg := {| _data := tobytes a; sample_width := 2;
                 frame_rate := sr; channels := 1 |}).
  unfold getitem. destruct (len seg) as [e|n]; [done|]. run_result.
  destruct (_parse_position seg (py_min v1 (Int n))) as [e|so]; [done|]. run_result.
  destruct (_parse_position seg (py_min v2 (Int n))) as [e|eo]; [done|]. run_result.
  change (frame_width seg) with 2. change (_data seg) with (tobytes a).
  rewrite py_slice_tobytes_frames.
  set (i := clip_index (Z.of_nat (length a)) so).
  set (j := clip_index (Z.of_nat (length a)) eo).
  change (py_slice a so eo) with (drop i (take j a)).
  set (missing := (eo * 2 - so * 2 - Z.of_nat (length (tobytes (drop i (take j a)))))
                    `div` 2).
  case_bool_decide as Hm.
  - destruct (num_ltb _ _) eqn:Hlt; [done|]. intros [= <-].
    rewrite silence_of_first_frame.
    destruct (drop i (take j a)) as [|z run] eqn:Hrun.
    + exists i, j, 0%nat. split; [|by left].
      unfold _spawn. cbn [sample_width frame_rate channels]. f_equal.
      by rewrite Hrun, repeat_bytes_nil.
    + exists i, j, (Z.to_nat missing). split.
      * unfold _spawn. cbn [sample_width frame_rate channels]. f_equal.
        by rewrite Hrun, tobytes_app, repeat_bytes_silence.
      * destruct (Z.le_gt_cases missing 0) as [Hle|Hgt]; [left; lia|].
        right. rewrite Z2Nat.id by lia. exact Hlt.
  - intros [= <-]. exists i, j, 0%nat. split; [|by left].
    unfold _spawn. cbn [sample_width frame_rate channels]. f_equal.
    by rewrite app_nil_r.
Qed.

(** X10.  A clip the [try] body returns is mono, 16 bits wide and at the
    sample rate the file was decoded at, and it holds a run of the converted
    samples of the file, in their order and unchanged, followed by at most two
    milliseconds of zeros: trimming drops samples at both ends and alters
    none. *)
Theorem exported_clip_is_a_run_of_the_samples w on off input_path output_path seg :
  try_body w on off input_path output_path = Return (Some seg) →
  ∃ audio_data sr (i j n : nat),
    librosa_load w input_path = Return (audio_data, sr) ∧
    seg = {| _data := tobytes
                        (drop i (take j (sample_to_int16 (invalid_cast w)
                                           <$> audio_data))
                         ++ replicate n 0);
             sample_width := 2; frame_rate := sr; channels := 1 |} ∧
    (n = 0%nat ∨
     num_ltb (Float (f64_mul (f64_of_Z 2)
                       (f64_div (f64_of_Z sr) (f64_of_Z 1000))))
             (Int (Z.of_nat n)) = false).
Proof.
  unfold try_body. destruct (librosa_load w input_path) as [e|[audio_data sr]]; [done|].
  run_result. rewrite init_tobytes. run_result.
  destruct (pipeline w on off input_path) as [e|tl]; [done|]. run_result.
  case_bool_decide; [done|].
  destruct (trim_window tl) as [e|[t0 t1]]; [done|]. run_result.
  destruct (getitem _ _ _) as [e|trimmed] eqn:Hg; [done|]. run_result.
  destruct (export_error w output_path); [done|]. intros [= <-].
  apply getitem_samples in Hg as (i & j & n & -> & Hn).
  exists audio_data, sr, i, j, n. done.
Qed.

Lemma exported_clip_is_a_run_of_the_samples_example :
  ∃ audio_data sr (i j n : nat),
    librosa_load example_world ["in"; "a.wav"] = Return (audio_data, sr) ∧
    ramp_clip =
      {| _data := tobytes
                    (drop i (take j (sample_to_int16 (invalid_cast example_world)
                                       <$> audio_data))
                     ++ replicate n 0);
         sample_width := 2; frame_rate := sr; channels := 1 |} ∧
    (n = 0%nat ∨
     num_ltb (Float (f64_mul (f64_of_Z 2)
                       (f64_div (f64_of_Z sr) (f64_of_Z 1000))))
             (Int (Z.of_nat n)) = false).
Proof.
  apply (exported_clip_is_a_run_of_the_samples example_world zero zero
           ["in"; "a.wav"] ["out"; "a.wav"]).
  vm_compute. reflexivity.
Defined.

End CleaningProperties.

(** ** The metadata consolidator *)

Section LoaderProperties.
Import Py DataLoader LoaderSpec.

Implicit Types (r : gmap string string) (l : list (gmap string string)).
Implicit Types (k : option string) (seen : gset (option string)).

Lemma first_with_nil k : first_with k [] = None.
Proof. reflexivity. Qed.

Lemma first_with_cons k r l :
  first_with k (r :: l) = if decide (key r = k) then Some r else first_with k l.
Proof.
  unfold first_with. cbn. case_decide; [done|].
  destruct (list_find _ l) as [[i x]|]; done.
Qed.

Lemma first_with_app k l1 l2 :
  first_with k (l1 ++ l2) =
    match first_with k l1 with Some r => Some r | None => first_with k l2 end.
Proof.
  induction l1 as [|r l1 IH]; [done|].
  rewrite <- app_comm_cons, !first_with_cons. by case_decide.
Qed.

Lemma first_with_Some k l r : first_with k l = Some r → r ∈ l ∧ key r = k.
Proof.
  induction l as [|x l IH]; [done|]. rewrite first_with_cons.
  case_decide; intros Hs.
  - injection Hs as <-. split; [left | done].
  - destruct (IH Hs). split; [by right | done].
Qed.

Lemma first_with_None k l : first_with k l = None ↔ ∀ r, r ∈ l → key r ≠ k.
Proof.
  induction l as [|x l IH].
  - split; [intros _ r Hr; by apply elem_of_nil in Hr | done].
  - rewrite first_with_cons. case_decide; split.
    + done.
    + intros H'. exfalso. apply (H' x); [left | done].
    + intros Hn r Hr. apply elem_of_cons in Hr as [-> | Hr]; [done|].
      by apply IH.
    + intros H'. apply IH. intros r Hr. apply H'. by right.
Qed.

(** What [keep="first"] retains of each key. *)
Lemma drop_seen_filter seen l k :
  filter (λ r, key r = k) (drop_seen seen l) =
    if decide (k ∈ seen) then [] else option_list (first_with k l).
Proof.
  revert seen. induction l as [|r l IH]; intros seen; cbn [drop_seen].
  - by case_decide.
  - rewrite first_with_cons. destruct (decide (key r ∈ seen)) as [Hin|Hin].
    + rewrite IH. destruct (decide (k ∈ seen)); [done|].
      case_decide; [congruence | done].
    + rewrite filter_cons, IH.
      destruct (decide (key r = k)) as [Hk|Hk];
        destruct (decide (k ∈ seen)) as [Hs|Hs];
        destruct (decide (k ∈ {[key r]} ∪ seen)) as [Hu|Hu];
        try done; exfalso.
      * apply Hin. by rewrite Hk.
      * apply Hin. by rewrite Hk.
      * apply Hu, elem_of_union_l, elem_of_singleton. done.
      * apply Hu, elem_of_union_r. done.
      * apply elem_of_union in Hu as [Hu|Hu]; [|done].
        apply elem_of_singleton in Hu. done.
Qed.

Lemma drop_seen_keys_NoDup seen l : NoDup (key <$> drop_seen seen l).
Proof.
  revert seen. induction l as [|r l IH]; intros seen; cbn [drop_seen].
  - constructor.
  - case_decide; [apply IH|]. rewrite fmap_cons. constructor; [|apply IH].
    intros Hin. apply list_elem_of_fmap in Hin as (r' & Hk & Hr').
    assert (Hf : r' ∈ filter (λ x, key x = key r) (drop_seen ({[key r]} ∪ seen) l)).
    { apply list_elem_of_filter. done. }
    rewrite drop_seen_filter in Hf. rewrite decide_True in Hf by set_solver.
    by apply elem_of_nil in Hf.
Qed.

(** Logging touches neither the disk nor the artifacts. *)
Lemma gather_frame env input_dir names dfs st :
  disk (gather env input_dir names dfs st).2 = disk st ∧
  artifacts (gather env input_dir names dfs st).2 = artifacts st.
Proof.
  revert dfs st. induction names as [|f names IH]; intros dfs st; [done|].
  cbn [gather]. destruct (read env _); [| done |].
  - destruct (IH dfs (logging WARNING
      (f +:+ " not found in " +:+ input_dir +:+ ", skipping...") st)) as [-> ->].
    done.
  - destruct (IH (dfs ++ [set_source f df])
      (logging INFO ("Reading " +:+ f) st)) as [-> ->]. done.
Qed.

Lemma gather_Return env input_dir names dfs st dfs' :
  (gather env input_dir names dfs st).1 = Return dfs' →
  dfs' = dfs ++ tagged env input_dir names.
Proof.
  revert dfs st. induction names as [|f names IH]; intros dfs st; cbn [gather].
  - intros [= <-]. unfold tagged. cbn. by rewrite app_nil_r.
  - unfold tagged. cbn [mbind list_bind]. fold (tagged env input_dir names).
    destruct (read env _); [| done |]; intros Hg; apply IH in Hg as ->.
    + done.
    + by rewrite <- app_assoc.
Qed.

Lemma merge_durations_fst env input_dir c st :
  (merge_durations env input_dir c st).1 = with_durations env input_dir c.
Proof. unfold merge_durations, with_durations. by destruct (read env _). Qed.

Lemma merge_durations_frame env input_dir c st :
  disk (merge_durations env input_dir c st).2 = disk st ∧
  artifacts (merge_durations env input_dir c st).2 = artifacts st.
Proof. unfold merge_durations. by destruct (read env _). Qed.

(** Every way steps 5 to 7 can end: with an exception, before or after
    the table is written and before the artifact is logged, or with the
    table written, the artifact logged and the run closed. *)
Lemma save_and_log_cases env output_dir n df st :
  let res := save_and_log env output_dir n df st in
  wandb res.2 = wandb st ∧
  ((is_Some res.1 ∧ finished res.2 = finished st ∧
    artifacts res.2 = artifacts st ∧
    (disk res.2 = disk st ∨
     disk res.2 = <[out_path output_dir := df]> (disk st))) ∨
   (res.1 = None ∧ finished res.2 = true ∧
    directories res.2 = {[output_dir]} ∪ directories st ∧
    disk res.2 = <[out_path output_dir := df]> (disk st) ∧
    artifacts res.2 = artifacts st ++ [logged_artifact env output_dir df])).
Proof.
  unfold save_and_log, makedirs, to_csv, getsize, log_artifact, logged_artifact,
    out_path.
  destruct (makedirs_error env output_dir); [cbn; eauto 10|].
  destruct (to_csv_error env _); [cbn; eauto 10|].
  destruct (add_file_error env _); [cbn; eauto 10|].
  destruct (getsize_error env _); [cbn; eauto 10|].
  cbn [disk logging]. rewrite lookup_insert_eq.
  destruct (log_artifact_error env); cbn; eauto 10.
Qed.


(** Every way [run] can end. *)
Lemma run_cases env (self : instance) :
  let res := run env self in
  (disk res.2 = ∅ ∧ artifacts res.2 = [] ∧
     (is_Some res.1 ∨ tagged env (input_dir self) files_to_include = [])) ∨
  (∃ merged,
     (res.1 = None →
      artifacts res.2 =
        [logged_artifact env (output_dir self) (saved_table merged)]) ∧
     with_durations env (input_dir self)
       (concat (tagged env (input_dir self) files_to_include)) = Return merged ∧
     disk res.2 = {[ out_path (output_dir self) := saved_table merged ]} ∧
     (artifacts res.2 = [] ∨
      artifacts res.2 =
        [logged_artifact env (output_dir self) (saved_table merged)])).
Proof.
  unfold run. destruct self as [input_dir output_dir wandb_project wandb_entity].
  cbn [DataLoader.input_dir DataLoader.output_dir DataLoader.wandb_project
       DataLoader.wandb_entity].
  set (st0 := logging INFO "Data loading pipeline started." (wandb_init _ initial)).
  pose proof (gather_frame env input_dir files_to_include [] st0) as [Hd Ha].
  pose proof (gather_Return env input_dir files_to_include [] st0) as Hg.
  destruct (gather env input_dir files_to_include [] st0) as [[e|dfs] st1];
    cbn [fst snd] in *.
  { left. rewrite Hd, Ha. eauto. }
  specialize (Hg dfs eq_refl). cbn [app] in Hg. subst dfs.
  destruct (tagged env input_dir files_to_include) as [|df0 dfs] eqn:Ht.
  { left. cbn. rewrite Hd, Ha. eauto. }
  set (c := concat (df0 :: dfs)).
  set (st2 := logging INFO _ st1).
  pose proof (merge_durations_fst env input_dir c st2) as Hm.
  pose proof (merge_durations_frame env input_dir c st2) as [Hd2 Ha2].
  destruct (merge_durations env input_dir c st2) as [[e|merged] st3];
    cbn [fst snd] in *.
  { left. rewrite Hd2, Ha2. cbn. rewrite Hd, Ha. eauto. }
  unfold drop_duplicates. case_decide.
  2:{ left. cbn. rewrite Hd2, Ha2. cbn. rewrite Hd, Ha. eauto. }
  assert (Hd3 : disk st3 = ∅) by (rewrite Hd2; cbn; by rewrite Hd).
  assert (Ha3 : artifacts st3 = []) by (rewrite Ha2; cbn; by rewrite Ha).
  destruct (save_and_log_cases env output_dir (len merged)
    {| columns := columns merged; rows := drop_seen ∅ (rows merged) |} st3)
    as [_ [(He & _ & Hart & [Hdisk|Hdisk]) | (He & _ & _ & Hdisk & Hart)]];
    rewrite Hd3 in Hdisk; rewrite Ha3 in Hart.
  - left. eauto.
  - right. exists merged. split; [|eauto].
    intros Hn. rewrite Hn in He. by destruct He.
  - right. exists merged. eauto.
Qed.

Lemma set_cell_lookup_ne c v r c' : c ≠ c' → set_cell c v r !! c' = r !! c'.
Proof.
  intros Hne. destruct v; cbn.
  - by rewrite lookup_insert_ne.
  - by rewrite lookup_delete_ne.
Qed.

Lemma merge_row_keeps d right :
  d ∈ duration_columns → keeps_row (merge_row d right).
Proof.
  intros Hd r. unfold merge_row.
  destruct (filter _ right) as [|m ms]; split; try done.
  - intros r' Hr' c Hc. apply list_elem_of_singleton in Hr' as ->.
    apply lookup_delete_ne. intros ->. done.
  - intros r' Hr' c Hc. apply list_elem_of_fmap in Hr' as (x & -> & _).
    apply set_cell_lookup_ne. intros ->. done.
Qed.

Lemma rename_cell_keeps r c :
  c ∉ duration_columns →
  rename_cell "duration_ms" "duration_ms_x" r !! c = r !! c.
Proof.
  intros Hc. unfold rename_cell.
  rewrite set_cell_lookup_ne by (intros <-; apply Hc; set_solver).
  apply lookup_delete_ne. intros <-. apply Hc. set_solver.
Qed.

Lemma not_duration_column c :
  c ≠ "duration_ms" → c ≠ "duration_ms_x" → c ≠ "duration_ms_y" →
  c ∉ duration_columns.
Proof.
  intros H1 H2 H3 Hin. unfold duration_columns in Hin.
  repeat (apply elem_of_cons in Hin as [Hin|Hin]; [done|]).
  by apply elem_of_nil in Hin.
Qed.

Lemma keeps_row_key g r r' : keeps_row g → r' ∈ g r → key r' = key r.
Proof.
  intros Hg Hr'. destruct (Hg r) as [_ Hk]. apply (Hk r' Hr').
  by apply not_duration_column.
Qed.

Lemma first_with_bind g k l :
  keeps_row g → first_with k (l ≫= g) = first_with k l ≫= (λ r, head (g r)).
Proof.
  intros Hg. induction l as [|r l IH]; [done|].
  cbn [mbind list_bind]. fold (l ≫= g).
  rewrite first_with_app, first_with_cons, IH.
  destruct (Hg r) as [Hne _].
  destruct (g r) as [|r' rs] eqn:Hgr; [done|]. clear Hne.
  assert (Hkey : ∀ x, x ∈ r' :: rs → key x = key r).
  { intros x Hx. apply (keeps_row_key g); [done|]. by rewrite Hgr. }
  rewrite first_with_cons. rewrite (Hkey r') by left.
  case_decide; [cbn; by rewrite Hgr|].
  replace (first_with k rs) with (@None (gmap string string)); [done|].
  symmetry. apply first_with_None. intros x Hx.
  rewrite (Hkey x) by (by right). done.
Qed.

(** Step 3 turns every row of the combined table into at least one row. *)
Lemma with_durations_rows env input_dir c merged :
  with_durations env input_dir c = Return merged →
  ∃ g, keeps_row g ∧ rows merged = rows c ≫= g.
Proof.
  unfold with_durations. destruct (read env _) as [|e|d]; [| done |].
  - intros [= <-]. exists (λ r, [r]). split.
    + intros r. split; [done|]. intros r' Hr' c' _.
      by apply list_elem_of_singleton in Hr' as ->.
    + induction (rows c) as [|r l IH]; [done|]. cbn. by f_equal.
  - unfold rename_durations. destruct (columns d) as [|c0 [|c1 [|? ?]]]; try done.
    cbn [bind]. unfold merge. repeat case_decide; [| | done].
    + intros [= <-]. cbn [rows].
      exists (λ r, merge_row "duration_ms_y"
                ((λ r0, set_cell "path" (r0 !! c0)
                          (set_cell "duration_ms" (r0 !! c1) ∅)) <$> rows d)
                (rename_cell "duration_ms" "duration_ms_x" r)).
      split.
      * intros r. destruct (merge_row_keeps "duration_ms_y"
          ((λ r0, set_cell "path" (r0 !! c0)
                    (set_cell "duration_ms" (r0 !! c1) ∅)) <$> rows d)
          ltac:(unfold duration_columns; set_solver)
          (rename_cell "duration_ms" "duration_ms_x" r)) as [Hne Hk].
        split; [done|]. intros r' Hr' c' Hc'.
        rewrite (Hk r' Hr' c' Hc'). by apply rename_cell_keeps.
      * induction (rows c) as [|r l IH]; [done|]. cbn. by f_equal.
    + intros [= <-]. cbn [rows].
      exists (merge_row "duration_ms"
                ((λ r0, set_cell "path" (r0 !! c0)
                          (set_cell "duration_ms" (r0 !! c1) ∅)) <$> rows d)).
      split; [|done].
      apply merge_row_keeps. unfold duration_columns. set_solver.
Qed.

Lemma saved_table_distinct merged : distinct_paths (saved_table merged).
Proof.
  intros i j r1 r2 Hi Hj Hij Hk. apply Hij.
  pose proof (drop_seen_keys_NoDup ∅ (rows merged)) as Hnd.
  apply (NoDup_lookup _ i j (key r1) Hnd); cbn in Hi, Hj.
  - by rewrite list_lookup_fmap, Hi.
  - by rewrite list_lookup_fmap, Hj, Hk.
Qed.

Lemma first_with_fmap (g : gmap string string → gmap string string) k l :
  (∀ r, key (g r) = key r) →
  first_with k (g <$> l) = g <$> first_with k l.
Proof.
  intros Hg. induction l as [|r l IH]; [done|].
  rewrite fmap_cons, !first_with_cons, Hg, IH. by case_decide.
Qed.

Lemma first_with_tagged env input_dir names k :
  first_with k (tagged env input_dir names ≫= rows) =
    (λ fr, <["source_file" := fr.1]> fr.2) <$>
      first_occurrence env input_dir names k.
Proof.
  induction names as [|f names IH]; [done|].
  unfold tagged. cbn [mbind list_bind first_occurrence].
  fold (tagged env input_dir names).
  destruct (read env _) as [|e|t]; cbn [app]; try apply IH.
  rewrite bind_cons, first_with_app. cbn [set_source rows].
  rewrite first_with_fmap by (intros; apply lookup_insert_ne; done).
  destruct (first_with k (rows t)); [done|]. apply IH.
Qed.

Lemma tagged_nil env input_dir names :
  tagged env input_dir names = [] →
  ∀ f t, f ∈ names → read env (join input_dir f) ≠ Tsv t.
Proof.
  induction names as [|f0 names IH]; intros Ht f t Hf.
  - by apply elem_of_nil in Hf.
  - unfold tagged in Ht. cbn [mbind list_bind] in Ht.
    fold (tagged env input_dir names) in Ht.
    apply elem_of_cons in Hf as [-> | Hf].
    + destruct (read env (join input_dir f0)); done.
    + apply IH; [|done]. destruct (read env (join input_dir f0)); done.
Qed.

Example run_example :
  let res := run example_env example_loader in
  res.1 = None ∧
  wandb res.2 = Some {| project := "TTS_opensource"; entity := None;
                        name := "data_loading"; job_type := "data_loading" |} ∧
  directories res.2 = {[ "out" ]} ∧
  disk res.2 = {[ "out/complete_data.tsv" := example_saved ]} ∧
  art_metadata <$> artifacts res.2 =
    [ {| file_path := "out/complete_data.tsv"; size_bytes := 150; num_rows := 3 |} ] ∧
  finished res.2 = true.
Proof. repeat split; vm_compute; reflexivity. Qed.

(** C9.  Of the rows that share a path, the saved table holds exactly one:
    it comes from the earliest row with that path, searching the files
    that exist in the order train, test, dev, validated, other and each
    file from the top; its [source_file] cell names that file, and outside
    [source_file] and the duration columns its cells are those of that
    row.  A path that occurs in no file has no row. *)
Theorem drop_duplicates_keeps_first_occurrence env (self : instance) df :
  disk (run env self).2 !! out_path (output_dir self) = Some df →
  ∀ k,
    match first_occurrence env (input_dir self) files_to_include k with
    | Some (f, r0) =>
        ∃ r, filter (λ r, key r = k) (rows df) = [r] ∧
             r !! "source_file" = Some f ∧
             ∀ c, c ≠ "source_file" → c ∉ duration_columns → r !! c = r0 !! c
    | None => filter (λ r, key r = k) (rows df) = []
    end.
Proof.
  intros Hdf k.
  destruct (run_cases env self)
    as [(Hd & _) | (merged & _ & Hm & Hd & _)]; rewrite Hd in Hdf.
  { by rewrite lookup_empty in Hdf. }
  rewrite lookup_singleton_eq in Hdf. injection Hdf as <-.
  apply with_durations_rows in Hm as (g & Hg & Hrows).
  cbn [saved_table rows]. rewrite drop_seen_filter, decide_False by set_solver.
  rewrite Hrows. cbn [concat rows].
  rewrite first_with_bind, first_with_tagged by done.
  destruct (first_occurrence env (input_dir self) files_to_include k)
    as [[f r0]|]; [|done].
  cbn. destruct (Hg (<["source_file" := f]> r0)) as [Hne Hcells].
  destruct (g (<["source_file" := f]> r0)) as [|r rs]; [done|].
  exists r. cbn. split; [done|].
  assert (Hin : r ∈ r :: rs) by left. split.
  - rewrite (Hcells r Hin) by (by apply not_duration_column).
    apply lookup_insert_eq.
  - intros c Hc Hdc. rewrite (Hcells r Hin c Hdc).
    by apply lookup_insert_ne.
Qed.

Lemma drop_duplicates_keeps_first_occurrence_example :
  ∃ r, filter (λ r, key r = Some "b.mp3") (rows example_saved) = [r] ∧
       r !! "source_file" = Some "train.tsv" ∧
       ∀ c, c ≠ "source_file" → c ∉ duration_columns →
            r !! c = ({[ "path" := "b.mp3"; "sentence" := "two" ]}
                        : gmap string string) !! c.
Proof.
  refine (drop_duplicates_keeps_first_occurrence
            example_env example_loader example_saved _ (Some "b.mp3")).
  vm_compute. reflexivity.
Defined.

(** An exception of step 5 or 6 leaves [run] with what was done before
    it: nothing when the directory cannot be made, the saved table when
    the artifact cannot be logged; the run stays open. *)
Example run_readonly_example :
  let res := run readonly_env example_loader in
  res.1 = Some (Exn "PermissionError" "[Errno 13] Permission denied: 'out'") ∧
  last (logged res.2) =
    Some (INFO, "Dropped 4 duplicates based on 'path'. Final shape: (3, 4)") ∧
  directories res.2 = ∅ ∧ disk res.2 = ∅ ∧ artifacts res.2 = [] ∧
  finished res.2 = false.
Proof. repeat split; vm_compute; reflexivity. Qed.

Example run_offline_example :
  let res := run offline_env example_loader in
  res.1 = Some (Exn "CommError" "Network error") ∧
  last (logged res.2) =
    Some (INFO, "Saved final dataset to: out/complete_data.tsv") ∧
  directories res.2 = {[ "out" ]} ∧
  disk res.2 = {[ "out/complete_data.tsv" := example_saved ]} ∧
  artifacts res.2 = [] ∧
  finished res.2 = false.
Proof. repeat split; vm_compute; reflexivity. Qed.

(** *** How [run] ends *)



(** The loop of step 2 returns the tables of the files that exist unless
    one of them cannot be parsed. *)
Lemma gather_readable env input_dir names dfs st :
  (∀ f e, f ∈ names → read env (join input_dir f) ≠ Unreadable e) →
  (gather env input_dir names dfs st).1 = Return (dfs ++ tagged env input_dir names).
Proof.
  revert dfs st. induction names as [|f names IH]; intros dfs st Hr; cbn [gather].
  - unfold tagged. cbn. by rewrite app_nil_r.
  - unfold tagged. cbn [mbind list_bind]. fold (tagged env input_dir names).
    assert (Hr' : ∀ f' e, f' ∈ names → read env (join input_dir f') ≠ Unreadable e).
    { intros f' e Hf'. apply Hr. by right. }
    destruct (read env (join input_dir f)) as [|e|t] eqn:Hf.
    + by rewrite IH.
    + exfalso. apply (Hr f e); [left | done].
    + rewrite IH by done. by rewrite <- app_assoc.
Qed.





(** Over files that can be read, the loop of step 2 collects their tables
    and logs a line for each. *)
Lemma gather_app env input_dir before rest dfs st :
  (∀ f e, f ∈ before → read env (join input_dir f) ≠ Unreadable e) →
  gather env input_dir (before ++ rest) dfs st =
  gather env input_dir rest (dfs ++ tagged env input_dir before)
    {| wandb := wandb st;
       logged := logged st ++ (gather_line env input_dir <$> before);
       directories := directories st; disk := disk st;
       artifacts := artifacts st; finished := finished st |}.
Proof.
  revert dfs st. induction before as [|f0 before IH]; intros dfs st Hr.
  { cbn. rewrite !app_nil_r. by destruct st. }
  assert (Hr' : ∀ f e, f ∈ before → read env (join input_dir f) ≠ Unreadable e).
  { intros f e Hf. apply Hr. by right. }
  rewrite <- app_comm_cons. cbn [gather]. rewrite fmap_cons.
  unfold tagged. cbn [mbind list_bind]. fold (tagged env input_dir before).
  destruct (read env (join input_dir f0)) as [|e0|t] eqn:H0.
  - rewrite IH by done.
    replace (gather_line env input_dir f0)
      with (WARNING, f0 +:+ " not found in " +:+ input_dir +:+ ", skipping...")
      by (unfold gather_line; by rewrite H0).
    cbn [app logging wandb logged directories disk artifacts finished].
    by rewrite <- app_assoc.
  - exfalso. apply (Hr f0 e0); [left | done].
  - rewrite IH by done.
    replace (gather_line env input_dir f0) with (INFO, "Reading " +:+ f0)
      by (unfold gather_line; by rewrite H0).
    cbn [app logging wandb logged directories disk artifacts finished].
    by rewrite <- !app_assoc.
Qed.

(** X13.  The first of the five tables that exists and cannot be parsed
    ends [run]: the exception of [read_csv] on it leaves [run] right after
    the line that announces its reading.  The tables before it have been
    read, none after it is looked for, the run is left open and nothing is
    written. *)
Theorem unreadable_table_aborts_run env (self : instance) before f after e :
  files_to_include = before ++ f :: after →
  (∀ f' e', f' ∈ before → read env (join (input_dir self) f') ≠ Unreadable e') →
  read env (join (input_dir self) f) = Unreadable e →
  run env self =
    (Some e,
     {| wandb := Some (opened self);
        logged :=
          [(INFO, "Data loading pipeline started.")] ++
          (gather_line env (input_dir self) <$> before) ++
          [(INFO, "Reading " +:+ f)];
        directories := ∅; disk := ∅; artifacts := []; finished := false |}).
Proof.
  intros Hfiles Hbefore Hf. unfold run. rewrite Hfiles.
  rewrite gather_app by done. cbn [gather]. rewrite Hf.
  unfold logging, opened. cbn. done.
Qed.

Lemma unreadable_table_aborts_run_example :
  run corrupt_env example_loader =
    (Some (Exn "ParserError" "Error tokenizing data."),
     {| wandb := Some (opened example_loader);
        logged :=
          [(INFO, "Data loading pipeline started.")] ++
          (gather_line corrupt_env (input_dir example_loader) <$> ["train.tsv"]) ++
          [(INFO, "Reading " +:+ "test.tsv")];
        directories := ∅; disk := ∅; artifacts := []; finished := false |}).
Proof.
  apply (unreadable_table_aborts_run corrupt_env example_loader
           ["train.tsv"] "test.tsv" ["dev.tsv"; "validated.tsv"; "other.tsv"]).
  - reflexivity.
  - intros f' e' ->%list_elem_of_singleton. vm_compute. discriminate.
  - vm_compute. reflexivity.
Defined.

(** *** The rows of the saved table, in order *)

Lemma distinct_in_order_subseteq (m : list (option string)) k :
  k ∈ distinct_in_order m → k ∈ m.
Proof.
  induction m as [|x m IH]; [done|]. cbn [distinct_in_order].
  intros [-> | Hk]%elem_of_cons; [left|].
  apply list_elem_of_filter in Hk as [_ Hk]. right. by apply IH.
Qed.

Lemma filter_keeps_all {A} (P : A → Prop) `{!∀ x, Decision (P x)} (m : list A) :
  (∀ x, x ∈ m → P x) → filter P m = m.
Proof.
  induction m as [|x m IH]; intros Hall; [done|].
  rewrite filter_cons_True by (apply Hall; left).
  f_equal. apply IH. intros y Hy. apply Hall. by right.
Qed.

Lemma filter_swap {A} (P Q : A → Prop) `{!∀ x, Decision (P x)}
    `{!∀ x, Decision (Q x)} (m : list A) :
  filter P (filter Q m) = filter Q (filter P m).
Proof.
  induction m as [|x m IH]; [done|].
  destruct (decide (P x)) as [HP|HP]; destruct (decide (Q x)) as [HQ|HQ].
  - rewrite (filter_cons_True Q), !(filter_cons_True P), (filter_cons_True Q) by done.
    by rewrite IH.
  - rewrite (filter_cons_False Q), (filter_cons_True P), (filter_cons_False Q) by done.
    done.
  - rewrite (filter_cons_True Q), !(filter_cons_False P) by done. done.
  - rewrite (filter_cons_False Q), (filter_cons_False P) by done. done.
Qed.

Lemma filter_distinct_in_order (P : option string → Prop) `{!∀ x, Decision (P x)}
    (m : list (option string)) :
  filter P (distinct_in_order m) = distinct_in_order (filter P m).
Proof.
  induction m as [|x m IH]; [done|]. cbn [distinct_in_order].
  destruct (decide (P x)) as [HP|HP].
  - rewrite !filter_cons_True by done. cbn [distinct_in_order].
    by rewrite filter_swap, IH.
  - rewrite !filter_cons_False by done. rewrite filter_swap, IH.
    apply filter_keeps_all. intros y Hy Heq. subst y.
    apply distinct_in_order_subseteq, list_elem_of_filter in Hy as [Hy _]. done.
Qed.

Lemma drop_seen_keys seen l :
  key <$> drop_seen seen l =
    distinct_in_order (filter (λ k, k ∉ seen) (key <$> l)).
Proof.
  revert seen. induction l as [|r l IH]; intros seen; [done|].
  cbn [drop_seen]. rewrite fmap_cons. case_decide as Hin.
  - rewrite filter_cons_False by (intros Hn; by apply Hn). apply IH.
  - rewrite filter_cons_True by done. cbn [distinct_in_order].
    rewrite fmap_cons, IH. f_equal.
    rewrite filter_distinct_in_order, list_filter_filter. f_equal.
    apply list_filter_iff. intros k. split.
    + intros Hk. split.
      * intros ->. apply Hk, elem_of_union_l, elem_of_singleton. done.
      * intros Hs. apply Hk, elem_of_union_r. done.
    + intros [Hne Hs] [Hk | Hk]%elem_of_union; [|done].
      apply elem_of_singleton in Hk. done.
Qed.

Lemma distinct_in_order_repeated k (ks m : list (option string)) :
  (∀ x, x ∈ ks → x = k) →
  distinct_in_order (k :: ks ++ m) = distinct_in_order (k :: m).
Proof.
  induction ks as [|x ks IH]; intros Hall; [done|].
  rewrite (Hall x) by left.
  rewrite <- IH by (intros y Hy; apply Hall; by right).
  cbn [distinct_in_order app]. f_equal.
  rewrite filter_cons_False by (intros Hn; by apply Hn).
  rewrite list_filter_filter. apply list_filter_iff. tauto.
Qed.

Lemma keys_of_merged (g : gmap string string → list (gmap string string)) l :
  keeps_row g →
  distinct_in_order (key <$> (l ≫= g)) = distinct_in_order (key <$> l).
Proof.
  intros Hg. induction l as [|r l IH]; [done|].
  rewrite bind_cons, fmap_app, fmap_cons.
  destruct (Hg r) as [Hne _].
  destruct (g r) as [|r' rs] eqn:Hgr; [done|]. clear Hne.
  assert (Hkey : ∀ x, x ∈ r' :: rs → key x = key r).
  { intros x Hx. apply (keeps_row_key g); [done|]. by rewrite Hgr. }
  rewrite fmap_cons, (Hkey r') by left. rewrite <- app_comm_cons.
  rewrite distinct_in_order_repeated.
  - cbn [distinct_in_order]. by rewrite IH.
  - intros x Hx. apply list_elem_of_fmap in Hx as (y & -> & Hy).
    apply Hkey. by right.
Qed.

Lemma keys_of_tagged env input_dir names :
  key <$> (tagged env input_dir names ≫= rows) = input_paths env input_dir names.
Proof.
  induction names as [|f names IH]; [done|].
  unfold tagged, input_paths. cbn [mbind list_bind].
  fold (tagged env input_dir names). fold (input_paths env input_dir names).
  destruct (read env _) as [|e|t]; cbn [app]; try apply IH.
  rewrite bind_cons, fmap_app, IH. f_equal. cbn [set_source rows].
  rewrite <- list_fmap_compose. apply list_fmap_ext. intros i r _.
  cbn. unfold key. by rewrite lookup_insert_ne.
Qed.

Lemma elem_of_distinct_in_order (m : list (option string)) k :
  k ∈ distinct_in_order m ↔ k ∈ m.
Proof.
  split; [apply distinct_in_order_subseteq|].
  induction m as [|x m IH]; [done|]. cbn [distinct_in_order].
  intros [-> | Hk]%elem_of_cons; [left|].
  destruct (decide (k = x)) as [->|Hne]; [left|right].
  apply list_elem_of_filter. split; [done | by apply IH].
Qed.

(** The paths of the saved table are those of the input tables, each
    once, where it stands first. *)
Lemma saved_table_keys env input_dir merged :
  with_durations env input_dir (concat (tagged env input_dir files_to_include))
    = Return merged →
  key <$> rows (saved_table merged) =
    distinct_in_order (input_paths env input_dir files_to_include).
Proof.
  intros Hm. apply with_durations_rows in Hm as (g & Hg & Hrows).
  cbn [saved_table rows]. rewrite drop_seen_keys.
  rewrite filter_keeps_all by (intros k _; apply not_elem_of_empty).
  rewrite Hrows. cbn [concat rows].
  by rewrite keys_of_merged, keys_of_tagged.
Qed.

(** C8.  The table [run] saves at [output_dir/complete_data.tsv] is
    deduplicated by path: no two of its rows carry the same path, and the
    paths of its rows are the paths of the input tables, none left out and
    none added.  It is the only table written.  An artifact record [run]
    logs names the saved file and carries the output path, the byte size
    of the file saved there and the number of rows of the saved table;
    when [run] returns, one such record has been logged. *)
Theorem run_saves_deduplicated_table env (self : instance) df :
  let res := run env self in
  disk res.2 !! out_path (output_dir self) = Some df →
  (∀ p, is_Some (disk res.2 !! p) → p = out_path (output_dir self)) ∧
  distinct_paths df ∧
  (∀ k, k ∈ key <$> rows df ↔
        k ∈ input_paths env (input_dir self) files_to_include) ∧
  (∀ a, a ∈ artifacts res.2 →
     art_files a = [out_path (output_dir self)] ∧
     art_metadata a = {| file_path := out_path (output_dir self);
                         size_bytes := csv_bytes env df;
                         num_rows := Z.of_nat (length (rows df)) |}) ∧
  (res.1 = None → length (artifacts res.2) = 1%nat).
Proof.
  intros res Hdf. subst res.
  destruct (run_cases env self)
    as [(Hd & _) | (merged & Hret & Hm & Hd & Hart)]; rewrite Hd in Hdf.
  { by rewrite lookup_empty in Hdf. }
  rewrite lookup_singleton_eq in Hdf. injection Hdf as <-.
  split; [|split; [|split; [|split]]].
  - rewrite Hd. intros p [df Hp]. by apply lookup_singleton_Some in Hp as [<- _].
  - apply saved_table_distinct.
  - intros k. rewrite (saved_table_keys _ _ _ Hm).
    apply elem_of_distinct_in_order.
  - intros a Ha. destruct Hart as [Hart|Hart]; rewrite Hart in Ha.
    + by apply elem_of_nil in Ha.
    + apply list_elem_of_singleton in Ha as ->. done.
  - intros Hn. by rewrite (Hret Hn).
Qed.

Lemma run_saves_deduplicated_table_example :
  let res := run example_env example_loader in
  (∀ p, is_Some (disk res.2 !! p) → p = out_path (output_dir example_loader)) ∧
  distinct_paths example_saved ∧
  (∀ k, k ∈ key <$> rows example_saved ↔
        k ∈ input_paths example_env (input_dir example_loader) files_to_include) ∧
  (∀ a, a ∈ artifacts res.2 →
     art_files a = [out_path (output_dir example_loader)] ∧
     art_metadata a = {| file_path := out_path (output_dir example_loader);
                         size_bytes := csv_bytes example_env example_saved;
                         num_rows := Z.of_nat (length (rows example_saved)) |}) ∧
  (res.1 = None → length (artifacts res.2) = 1%nat).
Proof.
  apply (run_saves_deduplicated_table example_env example_loader example_saved).
  vm_compute. reflexivity.
Defined.

(** X14.  The saved table lists every path of the input tables once, where it
    stands first: the paths come in the order in which [run] read them, train
    before test before dev before validated before other, each from its first
    row on. The number of rows, which the artifact records, is the number of
    distinct paths. *)
Theorem saved_paths_in_order_of_first_appearance env (self : instance) df :
  disk (run env self).2 !! out_path (output_dir self) = Some df →
  key <$> rows df =
    distinct_in_order (input_paths env (input_dir self) files_to_include) ∧
  len df =
    Z.of_nat (length (distinct_in_order
                        (input_paths env (input_dir self) files_to_include))).
Proof.
  intros Hdf.
  destruct (run_cases env self)
    as [(Hd & _) | (merged & _ & Hm & Hd & _)]; rewrite Hd in Hdf.
  { by rewrite lookup_empty in Hdf. }
  rewrite lookup_singleton_eq in Hdf. injection Hdf as <-.
  apply with_durations_rows in Hm as (g & Hg & Hrows).
  assert (Hkeys : key <$> rows (saved_table merged) =
    distinct_in_order (input_paths env (input_dir self) files_to_include)).
  { cbn [saved_table rows]. rewrite drop_seen_keys.
    rewrite filter_keeps_all by (intros k _; apply not_elem_of_empty).
    rewrite Hrows. cbn [concat rows].
    by rewrite keys_of_merged, keys_of_tagged. }
  split; [done|]. unfold len. by rewrite <- Hkeys, length_fmap.
Qed.

Lemma saved_paths_in_order_of_first_appearance_example :
  key <$> rows example_saved =
    distinct_in_order (input_paths example_env (input_dir example_loader)
                         files_to_include) ∧
  len example_saved =
    Z.of_nat (length (distinct_in_order
                        (input_paths example_env (input_dir example_loader)
                           files_to_include))).
Proof.
  apply (saved_paths_in_order_of_first_appearance example_env example_loader).
  vm_compute. reflexivity.
Defined.

(** *** The columns of the tables *)

Lemma union_columns_spec (seen : list string) (dfs : list DataFrame) c :
  c ∈ union_columns seen dfs ↔ c ∈ seen ∨ ∃ df, df ∈ dfs ∧ c ∈ columns df.
Proof.
  revert seen. induction dfs as [|df dfs IH]; intros seen; cbn [union_columns].
  - split; [by left|]. intros [H | (df & Hdf & _)]; [done|].
    by apply elem_of_nil in Hdf.
  - rewrite IH, elem_of_app, list_elem_of_filter. split.
    + intros [[H | [_ H]] | (df' & Hdf' & Hc)].
      * by left.
      * right. exists df. split; [left | done].
      * right. exists df'. split; [by right | done].
    + intros [H | (df' & [-> | Hdf']%elem_of_cons & Hc)].
      * left. by left.
      * destruct (decide (c ∈ seen)); [left; by left | left; right; done].
      * right. eauto.
Qed.

Lemma elem_of_tagged env input_dir names df :
  df ∈ tagged env input_dir names ↔
  ∃ f t, f ∈ names ∧ read env (join input_dir f) = Tsv t ∧ df = set_source f t.
Proof.
  unfold tagged. rewrite list_elem_of_bind. split.
  - intros (f & Hdf & Hf). destruct (read env (join input_dir f)) as [|e|t] eqn:Hr.
    + by apply elem_of_nil in Hdf.
    + by apply elem_of_nil in Hdf.
    + apply list_elem_of_singleton in Hdf. eauto.
  - intros (f & t & Hf & Hr & ->). exists f. rewrite Hr. split; [left | done].
Qed.

Lemma columns_set_source f t c :
  c ∈ columns (set_source f t) ↔ c ∈ columns t ∨ c = "source_file".
Proof.
  cbn [set_source columns]. case_decide as Hs.
  - split; [by left|]. by intros [H | ->].
  - rewrite elem_of_app, list_elem_of_singleton. done.
Qed.

Lemma columns_concat_tagged env input_dir names c :
  c ∈ columns (concat (tagged env input_dir names)) ↔
  ∃ f t, f ∈ names ∧ read env (join input_dir f) = Tsv t ∧
         (c ∈ columns t ∨ c = "source_file").
Proof.
  cbn [concat columns]. rewrite union_columns_spec. split.
  - intros [H | (df & Hdf & Hc)]; [by apply elem_of_nil in H|].
    apply elem_of_tagged in Hdf as (f & t & Hf & Hr & ->).
    apply columns_set_source in Hc. eauto 6.
  - intros (f & t & Hf & Hr & Hc). right. exists (set_source f t). split.
    + apply elem_of_tagged. eauto.
    + by apply columns_set_source.
Qed.

Lemma set_cell_lookup_eq c v r : set_cell c v r !! c = v.
Proof.
  destruct v; cbn.
  - by rewrite lookup_insert_eq.
  - by rewrite lookup_delete_eq.
Qed.

(** *** The duration of a saved row *)

Lemma head_filter_find {A} (P : A → Prop) `{!∀ x, Decision (P x)} (m : list A) :
  head (filter P m) = snd <$> list_find P m.
Proof.
  induction m as [|x m IH]; [done|]. cbn [list_find].
  destruct (decide (P x)).
  - by rewrite filter_cons_True.
  - rewrite filter_cons_False by done. rewrite IH.
    by destruct (list_find P m) as [[i y]|].
Qed.

Lemma find_renamed (c0 c1 : string) k (m : list (gmap string string)) :
  head (filter (λ r, key r = k)
          ((λ r, set_cell "path" (r !! c0) (set_cell "duration_ms" (r !! c1) ∅))
             <$> m)) ≫= (λ r, r !! "duration_ms") =
  x ← snd <$> list_find (λ x : gmap string string, x !! c0 = k) m; x !! c1.
Proof.
  rewrite <- head_filter_find.
  induction m as [|x m IH]; [done|]. rewrite fmap_cons.
  assert (Hk : key (set_cell "path" (x !! c0) (set_cell "duration_ms" (x !! c1) ∅))
               = x !! c0) by apply set_cell_lookup_eq.
  destruct (decide (x !! c0 = k)) as [Hx|Hx].
  - rewrite !filter_cons_True by (by rewrite ?Hk). cbn [head mbind option_bind].
    rewrite set_cell_lookup_ne by done. apply set_cell_lookup_eq.
  - rewrite !filter_cons_False by (by rewrite ?Hk). apply IH.
Qed.

(** *** Malformed tables *)

(** X15.  A durations table that does not have exactly two columns cannot be
    renamed: the [ValueError] of the assignment to [columns] leaves [run],
    once the tables have been read. *)
Theorem durations_table_needs_two_columns env (self : instance) d f t :
  f ∈ files_to_include →
  read env (join (input_dir self) f) = Tsv t →
  (∀ f e, f ∈ files_to_include →
          read env (join (input_dir self) f) ≠ Unreadable e) →
  read env (join (input_dir self) "clip_durations.tsv") = Tsv d →
  length (columns d) ≠ 2%nat →
  ∃ e, (run env self).1 = Some e ∧ exn_class e = "ValueError".
Proof.
  intros Hf Ht Hreadable Hd Hlen. unfold run.
  set (st0 := logging INFO "Data loading pipeline started." (wandb_init _ initial)).
  pose proof (gather_readable env (input_dir self) files_to_include [] st0 Hreadable)
    as Hg.
  destruct (gather env (input_dir self) files_to_include [] st0) as [res st1].
  cbn [fst app] in Hg. subst res.
  destruct (tagged env (input_dir self) files_to_include) as [|df0 dfs] eqn:Htag.
  { exfalso. by apply (tagged_nil _ _ _ Htag f t). }
  unfold merge_durations. rewrite Hd. unfold rename_durations.
  destruct (columns d) as [|c0 [|c1 [|? ?]]]; try done; cbn; eauto.
Qed.


Lemma durations_table_needs_two_columns_example :
  ∃ e, (run three_column_env example_loader).1 = Some e ∧
       exn_class e = "ValueError".
Proof.
  apply (durations_table_needs_two_columns three_column_env example_loader
           {| columns := ["clip"; "duration[ms]"; "checked"];
              rows := [ {[ "clip" := "a.mp3"; "duration[ms]" := "1900";
                           "checked" := "yes" ]} ] |}
           "train.tsv"
           {| columns := ["path"; "sentence"];
              rows := [ {[ "path" := "a.mp3"; "sentence" := "one" ]} ] |}).
  - apply (bool_decide_unpack _). vm_compute. reflexivity.
  - vm_compute. reflexivity.
  - intros f e _. cbn. repeat case_decide; discriminate.
  - vm_compute. reflexivity.
  - cbn. lia.
Defined.


(** X16.  Without a [path] column there is nothing to merge or deduplicate on:
    when no table that was read has one, a [KeyError] leaves [run]. *)
Theorem missing_path_column_raises_KeyError env (self : instance) f t :
  f ∈ files_to_include →
  read env (join (input_dir self) f) = Tsv t →
  (∀ f e, f ∈ files_to_include →
          read env (join (input_dir self) f) ≠ Unreadable e) →
  (∀ f t, f ∈ files_to_include →
          read env (join (input_dir self) f) = Tsv t → "path" ∉ columns t) →
  (read env (join (input_dir self) "clip_durations.tsv") = Missing ∨
   ∃ d, read env (join (input_dir self) "clip_durations.tsv") = Tsv d ∧
        length (columns d) = 2%nat) →
  ∃ e, (run env self).1 = Some e ∧ exn_class e = "KeyError".
Proof.
  intros Hf Ht Hreadable Hnopath Hdur. unfold run.
  set (st0 := logging INFO "Data loading pipeline started." (wandb_init _ initial)).
  pose proof (gather_readable env (input_dir self) files_to_include [] st0 Hreadable)
    as Hg.
  assert (Hc : "path" ∉ columns (concat (tagged env (input_dir self) files_to_include))).
  { intros Hin. apply columns_concat_tagged in Hin as (f' & t' & Hf' & Ht' & [Hin | ?]);
      [|done]. by apply (Hnopath f' t'). }
  destruct (gather env (input_dir self) files_to_include [] st0) as [res st1].
  cbn [fst app] in Hg. subst res.
  destruct (tagged env (input_dir self) files_to_include) as [|df0 dfs] eqn:Htag.
  { exfalso. by apply (tagged_nil _ _ _ Htag f t). }
  unfold merge_durations. destruct Hdur as [-> | (d & -> & Hlen)].
  - unfold drop_duplicates. rewrite decide_False by done. cbn. eauto.
  - unfold rename_durations.
    destruct (columns d) as [|c0 [|c1 [|? ?]]]; try done. cbn [bind].
    unfold merge. rewrite decide_False by done. cbn. eauto.
Qed.

Lemma missing_path_column_raises_KeyError_example :
  ∃ e, (run unkeyed_env example_loader).1 = Some e ∧ exn_class e = "KeyError".
Proof.
  apply (missing_path_column_raises_KeyError unkeyed_env example_loader
           "train.tsv"
           {| columns := ["clip"; "sentence"];
              rows := [ {[ "clip" := "a.mp3"; "sentence" := "one" ]} ] |}).
  - apply (bool_decide_unpack _). vm_compute. reflexivity.
  - vm_compute. reflexivity.
  - intros f e _. cbn. repeat case_decide; discriminate.
  - intros f t _. cbn. case_decide; [|discriminate]. intros [= <-] Hin.
    apply (bool_decide_pack _) in Hin. vm_compute in Hin. done.
  - left. vm_compute. reflexivity.
Defined.


(** The table [run] saves is the deduplicated result of step 3, and that
    result has a [path] column. *)
Lemma run_saved env (self : instance) p df :
  disk (run env self).2 !! p = Some df →
  ∃ merged,
    tagged env (input_dir self) files_to_include ≠ [] ∧
    with_durations env (input_dir self)
      (concat (tagged env (input_dir self) files_to_include)) = Return merged ∧
    "path" ∈ columns merged ∧
    df = saved_table merged.
Proof.
  unfold run.
  set (st0 := logging INFO "Data loading pipeline started." (wandb_init _ initial)).
  pose proof (gather_frame env (input_dir self) files_to_include [] st0) as [Hd _].
  pose proof (gather_Return env (input_dir self) files_to_include [] st0) as Hg.
  destruct (gather env (input_dir self) files_to_include [] st0) as [[e|dfs] st1];
    cbn [fst snd] in *.
  { rewrite Hd. cbn. by rewrite lookup_empty. }
  specialize (Hg dfs eq_refl). cbn [app] in Hg. subst dfs.
  destruct (tagged env (input_dir self) files_to_include) as [|df0 dfs] eqn:Ht.
  { cbn. rewrite Hd. cbn. by rewrite lookup_empty. }
  set (c := concat (df0 :: dfs)).
  set (st2 := logging INFO _ st1).
  pose proof (merge_durations_fst env (input_dir self) c st2) as Hm.
  pose proof (merge_durations_frame env (input_dir self) c st2) as [Hd2 _].
  destruct (merge_durations env (input_dir self) c st2) as [[e|merged] st3];
    cbn [fst snd] in *.
  { rewrite Hd2. cbn. rewrite Hd. cbn. by rewrite lookup_empty. }
  unfold drop_duplicates. case_decide as Hpath.
  2:{ cbn. rewrite Hd2. cbn. rewrite Hd. cbn. by rewrite lookup_empty. }
  assert (Hd3 : disk st3 = ∅) by (rewrite Hd2; cbn; by rewrite Hd).
  destruct (save_and_log_cases env (output_dir self) (len merged)
    {| columns := columns merged; rows := drop_seen ∅ (rows merged) |} st3)
    as [_ [(_ & _ & _ & [Hdisk|Hdisk]) | (_ & _ & _ & Hdisk & _)]];
    rewrite Hdisk, Hd3.
  - by rewrite lookup_empty.
  - intros [[_ <-] | [_ Hp]]%lookup_insert_Some; [|by rewrite lookup_empty in Hp].
    exists merged. done.
  - intros [[_ <-] | [_ Hp]]%lookup_insert_Some; [|by rewrite lookup_empty in Hp].
    exists merged. done.
Qed.

Lemma columns_with_durations env input_dir c merged :
  with_durations env input_dir c = Return merged →
  (∀ col, col ∈ columns c →
     col ∈ columns merged ∨
     col = "duration_ms" ∧ "duration_ms_x" ∈ columns merged) ∧
  (∀ d, read env (join input_dir "clip_durations.tsv") = Tsv d →
     "duration_ms" ∈ columns merged ∨ "duration_ms_y" ∈ columns merged).
Proof.
  unfold with_durations. destruct (read env _) as [|e|d]; [| done |].
  - intros [= <-]. split; [by left | done].
  - unfold rename_durations. destruct (columns d) as [|c0 [|c1 [|? ?]]]; try done.
    cbn [bind]. unfold merge. repeat case_decide; [| | done]; intros [= <-];
      cbn [columns]; (split; [|intros _ _]).
    + intros col Hcol. destruct (decide (col = "duration_ms")) as [->|Hne].
      * right. split; [done|]. apply elem_of_app. left.
        apply list_elem_of_fmap. exists "duration_ms". by rewrite decide_True.
      * left. apply elem_of_app. left.
        apply list_elem_of_fmap. exists col. by rewrite decide_False.
    + right. apply elem_of_app. right. left.
    + intros col Hcol. left. apply elem_of_app. by left.
    + left. apply elem_of_app. right. left.
Qed.

(** X17.  The columns of the saved table: [path] and [source_file] are always
    among them; so is every column of a table that was read, except that a
    [duration_ms] column of the splits is renamed [duration_ms_x] when the
    durations table is merged; and the merge adds the column [duration_ms], or
    [duration_ms_y] beside a renamed one. *)
Theorem saved_table_columns env (self : instance) df :
  disk (run env self).2 !! out_path (output_dir self) = Some df →
  "path" ∈ columns df ∧
  "source_file" ∈ columns df ∧
  (∀ f t c, f ∈ files_to_include →
            read env (join (input_dir self) f) = Tsv t →
            c ∈ columns t →
            c ∈ columns df ∨ c = "duration_ms" ∧ "duration_ms_x" ∈ columns df) ∧
  (∀ d, read env (join (input_dir self) "clip_durations.tsv") = Tsv d →
        "duration_ms" ∈ columns df ∨ "duration_ms_y" ∈ columns df).
Proof.
  intros Hdf. apply run_saved in Hdf as (merged & Hne & Hm & Hpath & ->).
  apply columns_with_durations in Hm as [Hkept Hadded].
  cbn [saved_table columns]. split; [done|]. split; [|split; [|done]].
  - destruct (tagged env (input_dir self) files_to_include) as [|df0 dfs] eqn:Ht;
      [done|].
    assert (Hin : df0 ∈ tagged env (input_dir self) files_to_include)
      by (rewrite Ht; left).
    apply elem_of_tagged in Hin as (f & t & Hf & Hr & _). rewrite <- Ht in Hkept.
    destruct (Hkept "source_file") as [H | [? _]]; [|done|done].
    apply columns_concat_tagged. exists f, t. eauto.
  - intros f t c Hf Hr Hc. apply Hkept. apply columns_concat_tagged.
    exists f, t. eauto.
Qed.

Lemma saved_table_columns_example :
  "path" ∈ columns example_saved ∧
  "source_file" ∈ columns example_saved ∧
  (∀ f t c, f ∈ files_to_include →
            read example_env (join (input_dir example_loader) f) = Tsv t →
            c ∈ columns t →
            c ∈ columns example_saved ∨
            c = "duration_ms" ∧ "duration_ms_x" ∈ columns example_saved) ∧
  (∀ d, read example_env (join (input_dir example_loader) "clip_durations.tsv")
          = Tsv d →
        "duration_ms" ∈ columns example_saved ∨
        "duration_ms_y" ∈ columns example_saved).
Proof.
  apply (saved_table_columns example_env example_loader).
  vm_compute. reflexivity.
Defined.

(** *** The saved table, row by row *)

Lemma omap_ext_in {A B} (g h : A → option B) (m : list A) :
  (∀ x, x ∈ m → g x = h x) → omap g m = omap h m.
Proof.
  induction m as [|x m IH]; intros Hext; [done|]. cbn.
  rewrite (Hext x) by left. rewrite IH; [done|].
  intros y Hy. apply Hext. by right.
Qed.

(** What [keep="first"] retains, row by row. *)
Lemma drop_seen_first seen l :
  drop_seen seen l =
    omap (λ k, first_with k l)
      (distinct_in_order (filter (λ k, k ∉ seen) (key <$> l))).
Proof.
  revert seen. induction l as [|r l IH]; intros seen; [done|].
  cbn [drop_seen]. rewrite fmap_cons. case_decide as Hin.
  - rewrite filter_cons_False by (intros Hn; by apply Hn). rewrite IH.
    apply omap_ext_in. intros k Hk. rewrite first_with_cons.
    rewrite decide_False; [done|]. intros <-.
    apply distinct_in_order_subseteq, list_elem_of_filter in Hk as [Hk _]. done.
  - rewrite filter_cons_True by done. cbn [distinct_in_order].
    rewrite omap_cons_list, first_with_cons, decide_True by done.
    cbn [option_list app]. f_equal.
    rewrite IH, filter_distinct_in_order, list_filter_filter.
    replace (filter (λ k, k ≠ key r ∧ k ∉ seen) (key <$> l))
      with (filter (λ k, k ∉ {[key r]} ∪ seen) (key <$> l)).
    2:{ apply list_filter_iff. intros k. split.
        - intros Hk. split.
          + intros ->. apply Hk, elem_of_union_l, elem_of_singleton. done.
          + intros Hs. apply Hk, elem_of_union_r. done.
        - intros [Hne Hs] [Hk | Hk]%elem_of_union; [|done].
          apply elem_of_singleton in Hk. done. }
    apply omap_ext_in. intros k Hk. rewrite first_with_cons.
    rewrite decide_False; [done|]. intros <-.
    apply distinct_in_order_subseteq, list_elem_of_filter in Hk as [Hk _].
    apply Hk, elem_of_union_l, elem_of_singleton. done.
Qed.

Lemma first_occurrence_key env input_dir names k f r0 :
  first_occurrence env input_dir names k = Some (f, r0) → key r0 = k.
Proof.
  induction names as [|f0 names IH]; [done|]. cbn [first_occurrence].
  destruct (read env _) as [|e|t]; try apply IH.
  destruct (first_with k (rows t)) as [r1|] eqn:H1; [|apply IH].
  intros [= <- <-]. by apply first_with_Some in H1 as [_ ?].
Qed.

Lemma head_merge_row (dcol : string) (right : list (gmap string string)) r :
  head (merge_row dcol right r) =
    Some (set_cell dcol
            (head (filter (λ x, key x = key r) right) ≫= (λ x, x !! "duration_ms"))
            r).
Proof. unfold merge_row. by destruct (filter _ right). Qed.

(** X18.  The saved table, row by row. When no split table has a [duration_ms]
    column of its own, the table holds one row for every path of the input
    tables, in the order of first appearance: the earliest row with that path,
    with the name of its file in [source_file] and, when the durations table
    is merged, with the duration that table lists first for the path in
    [duration_ms]. *)
Theorem saved_table_row_by_row env (self : instance) df :
  (∀ f t, f ∈ files_to_include →
          read env (join (input_dir self) f) = Tsv t →
          "duration_ms" ∉ columns t) →
  disk (run env self).2 !! out_path (output_dir self) = Some df →
  rows df =
    omap (saved_row env (input_dir self))
      (distinct_in_order (input_paths env (input_dir self) files_to_include)).
Proof.
  intros Hnodur Hdf.
  destruct (run_cases env self)
    as [(Hd & _) | (merged & _ & Hm & Hd & _)]; rewrite Hd in Hdf.
  { by rewrite lookup_empty in Hdf. }
  rewrite lookup_singleton_eq in Hdf. injection Hdf as <-.
  set (c := concat (tagged env (input_dir self) files_to_include)) in *.
  assert (Hc : "duration_ms" ∉ columns c).
  { intros Hin. apply columns_concat_tagged in Hin as (f & t & Hf & Ht & [Hin | ?]);
      [|done]. by apply (Hnodur f t). }
  assert (Hg : ∃ g, keeps_row g ∧ rows merged = rows c ≫= g ∧
                ∀ r, head (g r) = Some (annotate env (input_dir self) (key r) r)).
  { unfold with_durations in Hm. unfold annotate.
    destruct (read env (join (input_dir self) "clip_durations.tsv")) as [|e|d];
      [| done |].
    - injection Hm as <-. exists (λ r, [r]). split; [|split; [|done]].
      + intros r. split; [done|]. intros r' Hr' c' _.
        by apply list_elem_of_singleton in Hr' as ->.
      + induction (rows c) as [|r l IH]; [done|]. cbn. by f_equal.
    - unfold rename_durations, listed_duration in *.
      destruct (columns d) as [|c0 [|c1 [|? ?]]]; try done. cbn [bind] in Hm.
      unfold merge in Hm. case_decide; [|done].
      rewrite decide_False in Hm by done. injection Hm as <-. cbn [rows].
      eexists. split; [|split; [reflexivity|]].
      + apply merge_row_keeps. unfold duration_columns. left.
      + intros r. by rewrite head_merge_row, find_renamed. }
  destruct Hg as (g & Hkeeps & Hrows & Hhead).
  cbn [saved_table rows]. rewrite drop_seen_first.
  rewrite filter_keeps_all by (intros k _; apply not_elem_of_empty).
  assert (Hrc : rows c = tagged env (input_dir self) files_to_include ≫= rows)
    by done.
  rewrite Hrows, keys_of_merged, Hrc, keys_of_tagged by done.
  apply omap_ext_in. intros k _.
  rewrite first_with_bind, first_with_tagged by done. unfold saved_row.
  destruct (first_occurrence env (input_dir self) files_to_include k)
    as [[f r0]|] eqn:Hfo; [|done].
  cbn. rewrite Hhead. do 2 f_equal. unfold key.
  rewrite lookup_insert_ne by done. by apply first_occurrence_key in Hfo.
Qed.

Lemma saved_table_row_by_row_example :
  rows example_saved =
    omap (saved_row example_env (input_dir example_loader))
      (distinct_in_order
         (input_paths example_env (input_dir example_loader) files_to_include)).
Proof.
  apply (saved_table_row_by_row example_env example_loader).
  - intros f t Hf Ht Hin. unfold files_to_include in Hf.
    repeat (apply elem_of_cons in Hf as [-> | Hf];
            [vm_compute in Ht; try discriminate; injection Ht as <-;
             apply (bool_decide_pack _) in Hin; vm_compute in Hin; done|]).
    by apply elem_of_nil in Hf.
  - vm_compute. reflexivity.
Defined.

End LoaderProperties.
